(** * Repository inventory reconciliation: CSV codec, keyed loaders,
      archive cross-check, staleness comparison and the detail-fetch pool.

    A shallow embedding of the JavaScript sources

      - compare_github_gitlab.js  (loadEnv, stringifyCsvValue, writeCsv,
        parseCsv, readCsv, loadGithubReport, loadGitlabReport, compare,
        main),
      - check_last_change.js      (toDate, getGithubTimestamp,
        pickGitlabTimestamp, compareLastChanges),
      - check_legacy_repos.js     (main),
      - check_repo_status.js      (gitlabGet, fetchGitlabProject),
      - crawl_gitlab.js           (fetchProjects,
        fetchProjectDetailsConcurrently),

    together with the properties the design document states about them.

    Modelling conventions.
      - A JavaScript string is a [string]; the four characters the codec
        treats specially are ASCII.
      - A JavaScript value that is a string or [undefined]/[null] is an
        [option string]; [None] is [undefined].
      - A plain object is a [gmap] of its own properties.  A property
        read with a fixed name ([record.name], [project.archived]) is a
        lookup in that map: none of the names the scripts read is a member
        of [Object.prototype].  A read [obj[key]] with a computed key on an
        object created by [{}] and used as a dictionary goes through
        [Dict.get], which also finds the members inherited from
        [Object.prototype], and the assignment [record[header] = text] of
        [readCsv] through [Dict.assignString], which creates no property
        for [__proto__].  A function that can throw on such a key returns
        an [option], [None] standing for the [TypeError].  The reads
        [github[key]] and [gitlab[key]] of [compare] are at the own keys
        of a mapping a loader returned, which never holds an inherited
        name, and the read [record[header]] of [writeCsv] is the lookup
        among the own properties, which it is for a record that has the
        property and for a header that is not an inherited name.
      - [fs.writeFileSync]/[fs.readFileSync] are modelled by the text that
        is written or read.
      - Host built-ins whose behaviour is not fixed by the sources
        ([String.prototype.trim], [toLowerCase], [Date] parsing, the remote
        fetch) are section variables; the concrete scenarios use their
        restriction to ASCII text.
      - The workers of the pool are coroutines of one event loop: a worker
        runs until its next [await], and any worker whose fetch has settled
        may run next.  The model allows every such interleaving; a fetch
        always settles, by resolving or by rejecting. *)

From Stdlib Require Import Ascii String.
From stdpp Require Import gmap strings list fin_maps sorting.

Local Open Scope string_scope.
Local Open Scope nat_scope.
Local Open Scope list_scope.

(** ** Characters and JavaScript truthiness *)

Definition dquote : ascii := "034"%char.
Definition comma : ascii := ","%char.
Definition LF : ascii := "010"%char.
Definition CR : ascii := "013"%char.

(** [str c] is the one-character string [c]. *)
Definition str (c : ascii) : string := String c EmptyString.

(** A value used as a condition: [undefined] and the empty string are falsy. *)
Definition truthy (v : option string) : bool :=
  match v with
  | Some (String _ _) => true
  | _ => false
  end.

(** [a || b] on values. *)
Definition jsOr (a b : option string) : option string :=
  if truthy a then a else b.

(** [value ?? fallback] *)
Definition nullish (v : option string) (fallback : string) : string :=
  match v with
  | Some s => s
  | None => fallback
  end.

(** ** Objects created by [{}] and indexed by a computed key *)

Module Dict.

(** The names of the members of [Object.prototype]. *)
Definition prototypeMembers : list string :=
  ["constructor"; "__defineGetter__"; "__defineSetter__"; "hasOwnProperty";
   "__lookupGetter__"; "__lookupSetter__"; "isPrototypeOf";
   "propertyIsEnumerable"; "toString"; "valueOf"; "__proto__";
   "toLocaleString"].

Definition inherited (key : string) : bool :=
  bool_decide (key ∈ prototypeMembers).

(** What [obj[key]] evaluates to: [undefined], the value of an own
    property, or a member of [Object.prototype] (a function, or the
    prototype itself for [__proto__]). *)
Inductive found (A : Type) : Type :=
  | Missing : found A
  | Own : A → found A
  | Member : found A.

Arguments Missing {A}.
Arguments Own {A} _.
Arguments Member {A}.

(** [obj[key]]: an own property shadows an inherited member. *)
Definition get {A} (obj : gmap string A) (key : string) : found A :=
  match obj !! key with
  | Some value => Own value
  | None => if inherited key then Member else Missing
  end.

(** The value found, as the object whose properties are read next, or
    [None] where it is [undefined] and so falsy.  The properties the
    scripts read from a value they looked up are [archived], [isArchived],
    [visibility], [url], [last_repository_updated_at] and
    [last_activity_at]; a member of [Object.prototype] has none of them, so
    it reads like the empty record. *)
Definition properties (value : found (gmap string string))
    : option (gmap string string) :=
  match value with
  | Missing => None
  | Own record => Some record
  | Member => Some ∅
  end.

(** [record[key] = text] on a record created by [{}], for a string
    [text].  The name [__proto__] is an accessor of [Object.prototype]
    whose setter ignores a string, so no property is created; any other
    name becomes an own property. *)
Definition assignString (key text : string) (record : gmap string string)
    : gmap string string :=
  if String.eqb key "__proto__" then record else <[key := text]> record.

End Dict.

(** ** TabularCodec: the writer *)

Module Csv.

(** The character class of the regular expression in [stringifyCsvValue]. *)
Definition isSpecial (c : ascii) : bool :=
  Ascii.eqb c dquote || Ascii.eqb c comma || Ascii.eqb c LF || Ascii.eqb c CR.

(** The regular-expression test of [stringifyCsvValue]: some character
    of [s] is a double quote, a comma, a line feed or a carriage return. *)
Fixpoint testSpecial (s : string) : bool :=
  match s with
  | EmptyString => false
  | String c rest => isSpecial c || testSpecial rest
  end.

(** The [replace] of [stringifyCsvValue]: every double quote is doubled. *)
Fixpoint doubleQuotes (s : string) : string :=
  match s with
  | EmptyString => EmptyString
  | String c rest =>
      if Ascii.eqb c dquote
      then String dquote (String dquote (doubleQuotes rest))
      else String c (doubleQuotes rest)
  end.

Definition stringifyCsvValue (value : option string) : string :=
  match value with
  | None => EmptyString
  | Some stringValue =>
      if testSpecial stringValue
      then String dquote (doubleQuotes stringValue +:+ str dquote)
      else stringValue
  end.

(** [writeCsv(pathname, headers, records)]: the text written to the file. *)
Definition writeCsv (headers : list string)
    (records : list (gmap string string)) : string :=
  let rows :=
    String.concat (str comma) headers ::
    map (fun record =>
           String.concat (str comma)
             (map (fun header => stringifyCsvValue (record !! header)) headers))
        records in
  String.concat (str LF) rows +:+ str LF.

(** ** TabularCodec: the reader *)

(** The state of the scanner: finished rows, the row being built, the
    cell being built, and the quoting mode. *)
Record scanner := Scanner {
  rows : list (list string);
  row : list string;
  cell : string;
  inQuotes : bool
}.

(** The [for] loop of [parseCsv] over the remaining input.  Where the loop
    looks at [content[i + 1]] and then skips it with [i += 1], the
    recursion continues on the tail of the tail. *)
Fixpoint scan (content : string) (st : scanner) : scanner :=
  match content with
  | EmptyString => st
  | String char rest =>
      if inQuotes st then
        if Ascii.eqb char dquote then
          match rest with
          | String next rest' =>
              if Ascii.eqb next dquote
              then scan rest' (Scanner (rows st) (row st)
                                 (cell st +:+ str dquote) true)
              else scan rest (Scanner (rows st) (row st) (cell st) false)
          | EmptyString =>
              scan rest (Scanner (rows st) (row st) (cell st) false)
          end
        else scan rest (Scanner (rows st) (row st) (cell st +:+ str char) true)
      else if Ascii.eqb char dquote then
        scan rest (Scanner (rows st) (row st) (cell st) true)
      else if Ascii.eqb char comma then
        scan rest (Scanner (rows st) (row st ++ [cell st]) EmptyString false)
      else if Ascii.eqb char CR || Ascii.eqb char LF then
        let st' := Scanner (rows st ++ [row st ++ [cell st]]) [] EmptyString false in
        match rest with
        | String next rest' =>
            if Ascii.eqb char CR && Ascii.eqb next LF
            then scan rest' st'
            else scan rest st'
        | EmptyString => scan rest st'
        end
      else scan rest (Scanner (rows st) (row st) (cell st +:+ str char) false)
  end.

(** The flush after the loop: a pending cell or row becomes a final row. *)
Definition flush (st : scanner) : list (list string) :=
  if (0 <? String.length (cell st)) || (0 <? length (row st))
  then rows st ++ [row st ++ [cell st]]
  else rows st.

(** The rows of the text before the trailing-row check. *)
Definition scanRows (content : string) : list (list string) :=
  flush (scan content (Scanner [] [] EmptyString false)).

(** [rows.length > 0 && rows[rows.length - 1].length === 1] and
    [rows[rows.length - 1][0]] is the empty string. *)
Definition trailingEmpty (rs : list (list string)) : bool :=
  (0 <? length rs) &&
  match rs !! (length rs - 1) with
  | Some lastRow =>
      (length lastRow =? 1) &&
      match lastRow !! 0 with
      | Some first => String.eqb first EmptyString
      | None => false
      end
  | None => false
  end.

(** [rows.pop()] *)
Definition pop (rs : list (list string)) : list (list string) :=
  take (length rs - 1) rs.

Definition parseCsv (content : string) : list (list string) :=
  let rs := scanRows content in
  if trailingEmpty rs then pop rs else rs.

(** The [headers.forEach] of [readCsv]: [record[header]] is assigned
    [cells[index]], or the empty string where the row has no such cell. *)
Fixpoint fillRecord (headers : list string) (index : nat) (cells : list string)
    (record : gmap string string) : gmap string string :=
  match headers with
  | [] => record
  | header :: headers' =>
      fillRecord headers' (S index) cells
        (Dict.assignString header (nullish (cells !! index) EmptyString) record)
  end.

(** [readCsv(pathname)] on the text of the file. *)
Definition readCsv (raw : string) : list (gmap string string) :=
  match parseCsv raw with
  | [] => []
  | headers :: data => map (fun cells => fillRecord headers 0 cells ∅) data
  end.

End Csv.

(** ** Auxiliary notions for stating the codec's properties *)

Module CsvSpec.
Import Csv.

(** The next character, if any, is not a double quote. *)
Definition notQuoteHead (s : string) : Prop :=
  match s with
  | EmptyString => True
  | String c _ => c ≠ dquote
  end.

(** A header without any of the four special characters. *)
Definition plainHeader (header : string) : Prop := testSpecial header = false.

Definition encodeRow (values : list (option string)) : string :=
  String.concat (str comma) (map stringifyCsvValue values).

(** The cells the scanner finds in a written row; joining no values gives
    the empty line, which scans as one empty cell. *)
Definition cellsOf (values : list (option string)) : list string :=
  match values with
  | [] => [EmptyString]
  | _ => map (fun v => nullish v EmptyString) values
  end.

Fixpoint unlines (lines : list string) : string :=
  match lines with
  | [] => EmptyString
  | line :: lines' => line +:+ String LF (unlines lines')
  end.

(** The values a record has under the headers, in header order. *)
Definition valuesOf (headers : list string) (record : gmap string string)
    : list (option string) :=
  map (fun header => record !! header) headers.

(** The cells of a record as the reader sees them. *)
Definition cellsRead (headers : list string) (record : gmap string string)
    : list string :=
  cellsOf (valuesOf headers record).

(** The records whose rows survive the trailing-row check. *)
Definition survivors (headers : list string)
    (records : list (gmap string string)) : list (gmap string string) :=
  match last records with
  | Some r =>
      if decide (cellsRead headers r = [EmptyString])
      then take (length records - 1) records
      else records
  | None => records
  end.

(** Every record has a string under every header. *)
Definition stringValued (headers : list string)
    (records : list (gmap string string)) : Prop :=
  Forall (fun r : gmap string string =>
            ∀ h, h ∈ headers → is_Some (r !! h)) records.

(** The decoded records equal the originals field by field: as many
    records, and under every header the same value. *)
Definition fieldwiseEqual (headers : list string)
    (original decoded : list (gmap string string)) : Prop :=
  length decoded = length original ∧
  ∀ i (r r' : gmap string string) h,
    original !! i = Some r → decoded !! i = Some r' → h ∈ headers →
    r' !! h = r !! h.

(** A two-column table with a comma, a quote and a line break in its
    values, ending in an all-empty record. *)
Definition sampleHeaders : list string := ["name"; "note"].

Definition sampleRecords : list (gmap string string) :=
  [{["name" := "a,b"; "note" := "x" +:+ str dquote +:+ "y" +:+ str LF +:+ "z"]};
   {["name" := EmptyString; "note" := EmptyString]}].

(** The text of scenario B: a quoted cell holding [a,b], a line feed, a
    doubled quote, [c] and a doubled quote. *)
Definition scenarioB : string :=
  String dquote ("a,b" +:+ str LF +:+ str dquote +:+ str dquote +:+ "c"
                 +:+ str dquote +:+ str dquote +:+ str dquote).

End CsvSpec.

(** ** KeyedCollectionLoader and the archive cross-check
       (compare_github_gitlab.js) *)

Module Reconcile.

(** The counters of [compare]. *)
Record counters := Counters {
  missing : nat;
  archived : nat;
  not_archived : nat;
  total_github : nat
}.

(** An output row of [compare]. *)
Record outcome := Outcome {
  github_name : option string;
  github_name_with_owner : option string;
  github_archived : option string;
  github_visibility : option string;
  gitlab_path_with_namespace : option string;
  gitlab_archived : option string;
  status : string
}.

(** What a loader leaves behind: the mapping it returns, the duplicates it
    collected, and the number in the warning it printed, if it printed one. *)
Record loaded := Loaded {
  canonical : gmap string (gmap string string);
  duplicates : gmap string (list (gmap string string));
  warning : option nat
}.

Section with_builtins.

(** [String.prototype.trim] and [String.prototype.toLowerCase]. *)
Variable trim : string → string.
Variable toLowerCase : string → string.

(** [record.name], or the empty string where it is falsy, trimmed. *)
Definition trimmedName (record : gmap string string) : string :=
  trim (nullish (jsOr (record !! "name") (Some EmptyString)) EmptyString).

(** One iteration of the loop shared by [loadGithubReport] and
    [loadGitlabReport].  [repos[key]] is truthy for an own record and for
    a member of [Object.prototype]; in the latter case [duplicates[key]]
    is that member too, [duplicates[key].push] is not a function, and the
    iteration throws a [TypeError]: [None].  Both assignments happen where
    the lookup found nothing, so under a key that is not inherited. *)
Definition loadStep
    (st : gmap string (gmap string string) *
          gmap string (list (gmap string string)))
    (record : gmap string string)
    : option (gmap string (gmap string string) *
              gmap string (list (gmap string string))) :=
  let '(repos, dups) := st in
  let name := trimmedName record in
  if String.eqb name EmptyString then Some st
  else
    let key := toLowerCase name in
    match Dict.get repos key with
    | Dict.Missing => Some (<[key := record]> repos, dups)
    | _ =>
        match Dict.get dups key with
        | Dict.Missing => Some (repos, <[key := [record]]> dups)
        | Dict.Own seen => Some (repos, <[key := seen ++ [record]]> dups)
        | Dict.Member => None
        end
    end.

(** The [for] loop of the loaders; an iteration that throws ends it. *)
Fixpoint loadLoop (records : list (gmap string string))
    (st : gmap string (gmap string string) *
          gmap string (list (gmap string string)))
    : option (gmap string (gmap string string) *
              gmap string (list (gmap string string))) :=
  match records with
  | [] => Some st
  | record :: records' =>
      match loadStep st record with
      | Some st' => loadLoop records' st'
      | None => None
      end
  end.

(** The body of both loaders on the records read from the file: what the
    loader returns, or [None] where it throws. *)
Definition loadRecords (records : list (gmap string string)) : option loaded :=
  match loadLoop records (∅, ∅) with
  | Some (repos, dups) =>
      let duplicateKeys := map fst (map_to_list dups) in
      Some (Loaded repos dups
              (if 0 <? length duplicateKeys
               then Some (length duplicateKeys) else None))
  | None => None
  end.

Definition loadGithubReport (raw : string) : option loaded :=
  loadRecords (Csv.readCsv raw).

Definition loadGitlabReport (raw : string) : option loaded :=
  loadRecords (Csv.readCsv raw).

(** [Object.keys(github).sort()]: the keys in ascending code-unit order. *)
Definition sortedKeys (github : gmap string (gmap string string)) : list string :=
  merge_sort String.le (map fst (map_to_list github)).

(** The lowercased, stringified [archived] field of a GitLab project. *)
Definition archivedValue (glProject : gmap string string) : string :=
  toLowerCase (nullish (glProject !! "archived") "undefined").

Definition isArchived (glProject : gmap string string) : bool :=
  String.eqb (archivedValue glProject) "true" ||
  String.eqb (archivedValue glProject) "1".

(** The object pushed onto [rows]. *)
Definition makeRow (ghRepo glProject : gmap string string) : outcome :=
  Outcome
    (ghRepo !! "name")
    (jsOr (jsOr (ghRepo !! "name_with_owner") (ghRepo !! "nameWithOwner"))
       (Some EmptyString))
    (jsOr (jsOr (ghRepo !! "archived") (ghRepo !! "isArchived"))
       (Some EmptyString))
    (jsOr (ghRepo !! "visibility") (Some EmptyString))
    (jsOr (glProject !! "path_with_namespace") (Some EmptyString))
    (glProject !! "archived")
    "gitlab_not_archived".

(** One iteration of the loop of [compare].  [github !! key] is [ghRepo];
    the keys iterated are the mapping's own, so it is never undefined. *)
Definition compareStep (github gitlab : gmap string (gmap string string))
    (st : list outcome * counters) (key : string) : list outcome * counters :=
  let '(rows, c) := st in
  match gitlab !! key with
  | None =>
      (rows, Counters (missing c + 1) (archived c) (not_archived c) (total_github c))
  | Some glProject =>
      if isArchived glProject then
        (rows, Counters (missing c) (archived c + 1) (not_archived c) (total_github c))
      else
        let c' := Counters (missing c) (archived c) (not_archived c + 1)
                    (total_github c) in
        match github !! key with
        | Some ghRepo => (rows ++ [makeRow ghRepo glProject], c')
        | None => (rows, c')
        end
  end.

Definition compare (github gitlab : gmap string (gmap string string))
    : list outcome * counters :=
  let keys := sortedKeys github in
  let '(rows, c) :=
    foldl (compareStep github gitlab) ([], Counters 0 0 0 0) keys in
  (rows, Counters (missing c) (archived c) (not_archived c) (length keys)).

End with_builtins.

End Reconcile.

(** ** The staleness comparison (check_last_change.js) *)

Module LastChange.

Record counters := Counters {
  compared : nat;
  missingInGitLab : nat;
  gitlabNewer : nat;
  githubNewerOrEqual : nat;
  unknown : nat
}.

(** An entry of [results]. *)
Record result := Result {
  name : string;
  githubPushedAt : option string;
  gitlabUpdatedAt : option string;
  status : string
}.

Section with_builtins.

Variable trim : string → string.
Variable toLowerCase : string → string.

(** [new Date(value).getTime()]: the time value in milliseconds, [None]
    where it is [NaN]. *)
Variable dateTime : string → option Z.

Definition getGithubTimestamp (record : gmap string string) : option string :=
  jsOr (jsOr (record !! "pushed_at") (record !! "pushedAt")) (Some EmptyString).

Definition toDate (value : option string) : option Z :=
  if truthy value then dateTime (nullish value EmptyString) else None.

Definition pickGitlabTimestamp (project : gmap string string) : option string :=
  jsOr (jsOr (project !! "last_repository_updated_at")
          (project !! "last_activity_at"))
    (Some EmptyString).

(** One iteration of the first loop of [compareLastChanges].  The record
    is stored where [gitlabByName[name]] is falsy, so neither under a key
    already taken nor under the name of a member of [Object.prototype]. *)
Definition indexStep (gitlabByName : gmap string (gmap string string))
    (record : gmap string string) : gmap string (gmap string string) :=
  let name := toLowerCase (Reconcile.trimmedName trim record) in
  if String.eqb name EmptyString then gitlabByName
  else
    match Dict.get gitlabByName name with
    | Dict.Missing => <[name := record]> gitlabByName
    | _ => gitlabByName
    end.

(** One iteration of the second loop.  [project] is whatever
    [gitlabByName[name.toLowerCase()]] finds, an own record or a member of
    [Object.prototype]. *)
Definition compareStep (gitlabByName : gmap string (gmap string string))
    (st : list result * counters) (repo : gmap string string)
    : list result * counters :=
  let '(results, c) := st in
  let name := Reconcile.trimmedName trim repo in
  if String.eqb name EmptyString then st
  else
    match Dict.properties (Dict.get gitlabByName (toLowerCase name)) with
    | None =>
        (results,
         Counters (compared c) (missingInGitLab c + 1) (gitlabNewer c)
           (githubNewerOrEqual c) (unknown c))
    | Some project =>
        let compared' := compared c + 1 in
        let githubTimestamp := getGithubTimestamp repo in
        let githubDate := toDate githubTimestamp in
        let gitlabTimestamp := pickGitlabTimestamp project in
        let gitlabDate := toDate gitlabTimestamp in
        match githubDate, gitlabDate with
        | None, None =>
            (results ++
               [Result name (jsOr githubTimestamp (Some EmptyString))
                  (jsOr gitlabTimestamp (Some EmptyString)) "unknown_timestamps"],
             Counters compared' (missingInGitLab c) (gitlabNewer c)
               (githubNewerOrEqual c) (unknown c + 1))
        | None, Some _ =>
            (results ++
               [Result name (jsOr githubTimestamp (Some EmptyString))
                  (jsOr gitlabTimestamp (Some EmptyString))
                  "gitlab_has_timestamp_only"],
             Counters compared' (missingInGitLab c) (gitlabNewer c + 1)
               (githubNewerOrEqual c) (unknown c))
        | Some _, None =>
            (results ++
               [Result name (jsOr githubTimestamp (Some EmptyString))
                  (jsOr gitlabTimestamp (Some EmptyString))
                  "github_has_timestamp_only"],
             Counters compared' (missingInGitLab c) (gitlabNewer c)
               (githubNewerOrEqual c + 1) (unknown c))
        | Some githubTime, Some gitlabTime =>
            if (githubTime <? gitlabTime)%Z then
              (results ++
                 [Result name githubTimestamp gitlabTimestamp "gitlab_newer"],
               Counters compared' (missingInGitLab c) (gitlabNewer c + 1)
                 (githubNewerOrEqual c) (unknown c))
            else
              (results ++
                 [Result name githubTimestamp gitlabTimestamp
                    "github_newer_or_equal"],
               Counters compared' (missingInGitLab c) (gitlabNewer c)
                 (githubNewerOrEqual c + 1) (unknown c))
        end
    end.

(** The first loop: [gitlabByName]. *)
Definition indexByName (gitlabRecords : list (gmap string string))
    : gmap string (gmap string string) :=
  foldl indexStep ∅ gitlabRecords.

Definition compareLastChanges
    (githubRecords gitlabRecords : list (gmap string string))
    : list result * counters :=
  let gitlabByName := indexByName gitlabRecords in
  foldl (compareStep gitlabByName) ([], Counters 0 0 0 0 0) githubRecords.

End with_builtins.

End LastChange.

(** ** The detail-fetch pool (crawl_gitlab.js) *)

Module Pool.

(** A project as the pool sees it: the identifier it passes to the fetch
    and the two properties it may write.  No other property is read or
    written by [fetchProjectDetailsConcurrently]. *)
Record project := Project {
  id : Z;
  last_repository_updated_at : option string;
  last_activity_at : option string
}.

(** How [fetchProjectDetail] settles: it resolves with a detail object, of
    which the pool reads two properties, or it rejects with an error. *)
Inductive response :=
  | Detail (last_repository_updated_at last_activity_at : option string)
  | Failure (message : string).

(** What an observer sees: the remote calls issued and the console lines. *)
Inductive event :=
  | Request (projectId : Z)
  | Warning (projectId : Z) (message : string)
  | Progress (fetched total : nat).

(** Where a worker is in its loop: at the top, about to claim an index;
    suspended at the [await] for the item it claimed; or returned. *)
Inductive worker :=
  | Claiming
  | Awaiting (currentIndex : nat)
  | Returned.

Global Instance worker_eq_dec : EqDecision worker.
Proof. solve_decision. Defined.

(** The variables shared by the workers, and the workers themselves. *)
Record pool := Pool {
  projects : list project;
  index : nat;
  fetched : nat;
  workers : list worker;
  trace : list event
}.

(** [concurrency], from the result of [parseInt] ([None] is [NaN]). *)
Definition concurrency (parsed : option Z) : Z :=
  match parsed with
  | None => 8
  | Some n => if (n <? 1)%Z then 8%Z else Z.min n 16
  end.

(** [Math.min(concurrency, projects.length)] *)
Definition workerCount (parsed : option Z) (projects : list project) : nat :=
  Z.to_nat (Z.min (concurrency parsed) (Z.of_nat (length projects))).

(** The pool when the workers have been created. *)
Definition start (parsed : option Z) (projects : list project) : pool :=
  Pool projects 0 0 (replicate (workerCount parsed projects) Claiming) [].

(** The line printed every 25 completions and at the final item. *)
Definition progressLine (fetched total : nat) : list event :=
  if (fetched mod 25 =? 0) || (fetched =? total)
  then [Progress fetched total] else [].

Section with_fetch.

(** The fetch behaviour: how the remote call for a project settles. *)
Variable fetchProjectDetail : Z → response.

(** The write-back after a successful fetch. *)
Definition enrich (p : project) (lru la : option string) : project :=
  Project (id p) lru
    (if truthy (last_activity_at p) then last_activity_at p else la).

(** One step of worker [w].  The event loop runs one worker at a time and
    switches workers only at an [await], so a claim together with the test
    that follows it is one step, and so is everything from the settling of
    the fetch up to the next claim.  A worker that skips an item goes on
    to its next claim without suspending; the model lets any worker take
    the next step there, so its interleavings include the event loop's. *)
Definition stepWorker (w : nat) (st : pool) : option pool :=
  match workers st !! w with
  | Some Claiming =>
      let currentIndex := index st in
      match projects st !! currentIndex with
      | None =>
          Some (Pool (projects st) (index st + 1) (fetched st)
                  (<[w := Returned]> (workers st)) (trace st))
      | Some p =>
          if truthy (last_repository_updated_at p) then
            Some (Pool (projects st) (index st + 1) (fetched st)
                    (workers st) (trace st))
          else
            Some (Pool (projects st) (index st + 1) (fetched st)
                    (<[w := Awaiting currentIndex]> (workers st))
                    (trace st ++ [Request (id p)]))
      end
  | Some (Awaiting currentIndex) =>
      match projects st !! currentIndex with
      | None => None
      | Some p =>
          let total := length (projects st) in
          match fetchProjectDetail (id p) with
          | Detail lru la =>
              Some (Pool (<[currentIndex := enrich p lru la]> (projects st))
                      (index st) (fetched st + 1)
                      (<[w := Claiming]> (workers st))
                      (trace st ++ progressLine (fetched st + 1) total))
          | Failure message =>
              Some (Pool (projects st) (index st) (fetched st + 1)
                      (<[w := Claiming]> (workers st))
                      (trace st ++ [Warning (id p) message]
                         ++ progressLine (fetched st + 1) total))
          end
      end
  | Some Returned => None
  | None => None
  end.

(** A schedule names the worker that runs at each step. *)
Fixpoint runSchedule (schedule : list nat) (st : pool) : option pool :=
  match schedule with
  | [] => Some st
  | w :: schedule' =>
      match stepWorker w st with
      | Some st' => runSchedule schedule' st'
      | None => None
      end
  end.

(** [Promise.all(workers)] has resolved. *)
Definition finished (st : pool) : Prop :=
  Forall (fun w => w = Returned) (workers st).

(** [fetchProjectDetailsConcurrently] on the items [ps] returns with [st]
    as the final state, under some interleaving of its workers. *)
Definition fetchProjectDetailsConcurrently (parsed : option Z) (ps : list project) (st : pool)
    : Prop :=
  ∃ schedule, runSchedule schedule (start parsed ps) = Some st ∧ finished st.

End with_fetch.

(** The remote calls and the warnings of a trace. *)
Definition requests (t : list event) : list Z :=
  omap (fun e => match e with Request i => Some i | _ => None end) t.

Definition warnings (t : list event) : list (Z * string) :=
  omap (fun e => match e with Warning i m => Some (i, m) | _ => None end) t.

(** An item still needs enrichment. *)
Definition needsDetail (p : project) : bool :=
  negb (truthy (last_repository_updated_at p)).

End Pool.

(** ** The built-ins on ASCII text, for the concrete scenarios *)

Module Builtins.

Definition isSpace (c : ascii) : bool :=
  let n := nat_of_ascii c in (n =? 32) || ((9 <=? n) && (n <=? 13)).

Fixpoint trimStart (s : string) : string :=
  match s with
  | EmptyString => EmptyString
  | String c rest => if isSpace c then trimStart rest else s
  end.

Fixpoint trimEnd (s : string) : string :=
  match s with
  | EmptyString => EmptyString
  | String c rest =>
      match trimEnd rest with
      | EmptyString => if isSpace c then EmptyString else str c
      | rest' => String c rest'
      end
  end.

(** [trim] on ASCII text. *)
Definition trimAscii (s : string) : string := trimEnd (trimStart s).

Definition lowerChar (c : ascii) : ascii :=
  let n := nat_of_ascii c in
  if (65 <=? n) && (n <=? 90) then ascii_of_nat (n + 32) else c.

(** [toLowerCase] on ASCII text. *)
Fixpoint lowerAscii (s : string) : string :=
  match s with
  | EmptyString => EmptyString
  | String c rest => String (lowerChar c) (lowerAscii rest)
  end.

(** The time values of two ISO timestamps, in milliseconds since the
    epoch; no other text is given a time value here. *)
Definition sampleDateTime (s : string) : option Z :=
  if String.eqb s "2024-01-01T00:00:00Z" then Some 1704067200000%Z
  else if String.eqb s "2024-06-01T00:00:00Z" then Some 1717200000000%Z
  else None.

End Builtins.

(** ** Auxiliary notions for stating the reconciliation properties *)

Module ReconcileSpec.
Import Reconcile.

(** A list as an optional property: absent where the list is empty. *)
Definition nonempty {A} (l : list A) : option (list A) :=
  match l with
  | [] => None
  | _ => Some l
  end.

(** The three branches of the loop of [compare]. *)
Inductive branch := MissingOnRight | Resolved | Unresolved.

Global Instance branch_eq_dec : EqDecision branch.
Proof. solve_decision. Defined.

Section with_builtins.

Variable trim : string → string.
Variable toLowerCase : string → string.

(** The normalized IdentityKey of a record. *)
Definition keyOf (record : gmap string string) : string :=
  toLowerCase (trimmedName trim record).

(** The records of a table that have the key [key], in file order. *)
Definition matching (key : string) (records : list (gmap string string))
    : list (gmap string string) :=
  filter (fun r => trimmedName trim r ≠ EmptyString ∧ keyOf r = key) records.

(** The normalized keys of a table, one per record with a name. *)
Definition keysOf (records : list (gmap string string)) : list string :=
  map keyOf (filter (fun r => trimmedName trim r ≠ EmptyString) records).

(** The branch a left key takes. *)
Definition branchOf (gitlab : gmap string (gmap string string)) (key : string)
    : branch :=
  match gitlab !! key with
  | None => MissingOnRight
  | Some glProject =>
      if isArchived toLowerCase glProject then Resolved else Unresolved
  end.

(** How many of the keys take branch [b]. *)
Definition tally (b : branch) (gitlab : gmap string (gmap string string))
    (keys : list string) : nat :=
  length (filter (fun k => branchOf gitlab k = b) keys).

(** The row emitted for a left key, if any. *)
Definition rowFor (github gitlab : gmap string (gmap string string))
    (key : string) : option outcome :=
  match github !! key, gitlab !! key with
  | Some ghRepo, Some glProject =>
      if isArchived toLowerCase glProject then None
      else Some (makeRow ghRepo glProject)
  | _, _ => None
  end.

(** The normalized key of an output row, from its [github_name]. *)
Definition rowKey (r : outcome) : string :=
  toLowerCase
    (trim (nullish (jsOr (github_name r) (Some EmptyString)) EmptyString)).

(** A record with a name under which the loaders find a member of
    [Object.prototype]. *)
Definition memberNamed (record : gmap string string) : Prop :=
  trimmedName trim record ≠ EmptyString ∧ Dict.inherited (keyOf record) = true.

Global Instance memberNamed_dec record : Decision (memberNamed record).
Proof. unfold memberNamed. apply _. Defined.

(** The data path of [main] on the records read from the two files: both
    loaders, the GitHub one first, then [compare]; [None] where a loader
    throws. *)
Definition crossCheck (github gitlab : list (gmap string string))
    : option (list outcome * counters) :=
  match loadRecords trim toLowerCase github with
  | None => None
  | Some githubReport =>
      match loadRecords trim toLowerCase gitlab with
      | None => None
      | Some gitlabReport =>
          Some (compare toLowerCase (canonical githubReport)
                  (canonical gitlabReport))
      end
  end.

End with_builtins.

(** Scenario A. *)
Definition scenarioA_left : list (gmap string string) :=
  [{["name" := "Foo"]}; {["name" := "bar"]}].

Definition scenarioA_right : list (gmap string string) :=
  [{["name" := "foo"; "archived" := "true"]};
   {["name" := "BAR"; "archived" := "false"]}].

Definition scenarioA_run : option (list outcome * counters) :=
  crossCheck Builtins.trimAscii Builtins.lowerAscii
    scenarioA_left scenarioA_right.

(** A GitHub report with one repository, named constructor. *)
Definition constructorReport : string :=
  "name,archived" +:+ str LF +:+ "constructor,false" +:+ str LF.

End ReconcileSpec.

(** ** Auxiliary notions for stating the staleness properties *)

Module LastChangeSpec.
Import LastChange.

(** The five-way classification of a joined pair by its two dates, GitHub's
    first; [None] is an unknown date. *)
Inductive Outcome : option Z → option Z → string → Prop :=
  | both_unknown :
      Outcome None None "unknown_timestamps"
  | gitlab_only_known gitlabTime :
      Outcome None (Some gitlabTime) "gitlab_has_timestamp_only"
  | github_only_known githubTime :
      Outcome (Some githubTime) None "github_has_timestamp_only"
  | gitlab_is_newer githubTime gitlabTime :
      (githubTime < gitlabTime)%Z →
      Outcome (Some githubTime) (Some gitlabTime) "gitlab_newer"
  | github_is_newer_or_equal githubTime gitlabTime :
      (gitlabTime ≤ githubTime)%Z →
      Outcome (Some githubTime) (Some gitlabTime) "github_newer_or_equal".

Definition fiveTags : list string :=
  ["unknown_timestamps"; "gitlab_has_timestamp_only";
   "github_has_timestamp_only"; "gitlab_newer"; "github_newer_or_equal"].

(** How many results carry the status [tag]. *)
Definition countStatus (tag : string) (results : list result) : nat :=
  length (filter (fun r => status r = tag) results).

(** The values of all the counters. *)
Definition counterValues (c : counters) : list nat :=
  [compared c; missingInGitLab c; gitlabNewer c; githubNewerOrEqual c;
   unknown c].

(** Every one of the five outcomes has a counter of its own: the number of
    results with that status is the value of some counter. *)
Definition dedicatedCounters (run : list result * counters) : Prop :=
  ∀ tag, tag ∈ fiveTags → countStatus tag run.1 ∈ counterValues run.2.

Section with_builtins.

Variable trim : string → string.
Variable toLowerCase : string → string.

(** A GitHub record that has a name for which the lookup in
    [gitlabByName] finds something. *)
Definition joined (gitlabByName : gmap string (gmap string string))
    (repo : gmap string string) : Prop :=
  Reconcile.trimmedName trim repo ≠ EmptyString ∧
  is_Some (Dict.properties
             (Dict.get gitlabByName
                (toLowerCase (Reconcile.trimmedName trim repo)))).

Global Instance joined_dec gitlabByName repo :
  Decision (joined gitlabByName repo).
Proof. unfold joined. apply _. Defined.

(** A GitHub record that has a name and a GitLab counterpart: a GitLab
    record with the same lowercased trimmed name, which is not empty. *)
Definition counterpart (gitlabRecords : list (gmap string string))
    (repo : gmap string string) : Prop :=
  Reconcile.trimmedName trim repo ≠ EmptyString ∧
  Exists (fun project =>
            toLowerCase (Reconcile.trimmedName trim project) ≠ EmptyString ∧
            toLowerCase (Reconcile.trimmedName trim project)
            = toLowerCase (Reconcile.trimmedName trim repo)) gitlabRecords.

Global Instance counterpart_dec gitlabRecords repo :
  Decision (counterpart gitlabRecords repo).
Proof. unfold counterpart. apply _. Defined.

(** A record whose lowercased trimmed name is not the name of a member of
    [Object.prototype]. *)
Definition plainlyNamed (record : gmap string string) : Prop :=
  Dict.inherited (toLowerCase (Reconcile.trimmedName trim record)) = false.

(** The pair a result was computed from: a GitHub record and the GitLab
    record with the same normalized key, classified by their dates. *)
Definition resultOfPair (dateTime : string → option Z)
    (githubRecords gitlabRecords : list (gmap string string))
    (r : result) : Prop :=
  ∃ repo project,
    repo ∈ githubRecords ∧ project ∈ gitlabRecords ∧
    name r = Reconcile.trimmedName trim repo ∧
    toLowerCase (Reconcile.trimmedName trim project)
    = toLowerCase (Reconcile.trimmedName trim repo) ∧
    Outcome (toDate dateTime (getGithubTimestamp repo))
      (toDate dateTime (pickGitlabTimestamp project)) (status r).

End with_builtins.

(** Two joined pairs: one with only the GitLab date known, one with both
    dates known and GitLab's the later. *)
Definition twoGitlabLeaning_github : list (gmap string string) :=
  [{["name" := "a"]};
   {["name" := "b"; "pushed_at" := "2024-01-01T00:00:00Z"]}].

Definition twoGitlabLeaning_gitlab : list (gmap string string) :=
  [{["name" := "a"; "last_activity_at" := "2024-06-01T00:00:00Z"]};
   {["name" := "b"; "last_activity_at" := "2024-06-01T00:00:00Z"]}].

(** A GitHub file with one repository, named constructor. *)
Definition constructorOnly : list (gmap string string) :=
  [{["name" := "constructor"; "pushed_at" := "2024-01-01T00:00:00Z"]}].

(** Two repositories, listed in descending and in ascending order of name. *)
Definition zetaAlpha : list (gmap string string) :=
  [{["name" := "zeta"]}; {["name" := "alpha"]}].

Definition alphaZeta : list (gmap string string) :=
  [{["name" := "alpha"]}; {["name" := "zeta"]}].

(** Two records with the same normalized key, in both orders, and one
    counterpart. *)
Definition fooTwice : list (gmap string string) :=
  [{["name" := "Foo"; "visibility" := "public"]};
   {["name" := "foo"; "visibility" := "private"]}].

Definition fooTwiceSwapped : list (gmap string string) :=
  [{["name" := "foo"; "visibility" := "private"]};
   {["name" := "Foo"; "visibility" := "public"]}].

Definition fooCounterpart : list (gmap string string) :=
  [{["name" := "foo"; "archived" := "false"]}].

Definition runStaleness (github gitlab : list (gmap string string))
    : list result * counters :=
  compareLastChanges Builtins.trimAscii Builtins.lowerAscii
    Builtins.sampleDateTime github gitlab.

Definition runCrossCheck (github gitlab : list (gmap string string))
    : option (list Reconcile.outcome * Reconcile.counters) :=
  ReconcileSpec.crossCheck Builtins.trimAscii Builtins.lowerAscii
    github gitlab.

End LastChangeSpec.

(** ** Auxiliary notions for stating the pool's properties *)

Module PoolSpec.
Import Pool.

(** Some worker is suspended on item [i]. *)
Definition awaited (ws : list worker) (i : nat) : Prop :=
  ∃ w, ws !! w = Some (Awaiting i).

(** What a worker still has to do, for the termination measure. *)
Definition weight (w : worker) : nat :=
  match w with
  | Returned => 0
  | Claiming => 1
  | Awaiting _ => 2
  end.

Definition measure (st : pool) : nat :=
  2 * (length (projects st) - index st) + sum_list (map weight (workers st)).

Section with_fetch.

Variable fetchProjectDetail : Z → response.

(** An item once the pool is through with it: untouched if it needed no
    detail or its fetch failed, enriched otherwise. *)
Definition settled (p : project) : project :=
  if needsDetail p then
    match fetchProjectDetail (id p) with
    | Detail lru la => enrich p lru la
    | Failure _ => p
    end
  else p.

(** The warning an item gives rise to, if any. *)
Definition warningOf (p : project) : option (Z * string) :=
  if needsDetail p then
    match fetchProjectDetail (id p) with
    | Detail _ _ => None
    | Failure message => Some (id p, message)
    end
  else None.

(** What holds of every state of the pool started on [ps]: items not yet
    claimed or still awaited are as they were, the others are settled; an
    awaited item is claimed, needs its detail and is awaited by one worker
    only; a worker has returned only after the items ran out; the requests
    are those of the claimed items, in order; and the warnings are those
    of the items whose fetch has settled, [finishedFetches], in the order
    of settling. *)
Record invariant (ps : list project) (st : pool)
    (finishedFetches : list nat) : Prop := Invariant {
  inv_length : length (projects st) = length ps;
  inv_pending : ∀ i p, ps !! i = Some p →
    index st ≤ i ∨ awaited (workers st) i → projects st !! i = Some p;
  inv_settled : ∀ i p, ps !! i = Some p →
    i < index st → ¬ awaited (workers st) i →
    projects st !! i = Some (settled p);
  inv_awaited : ∀ i, awaited (workers st) i →
    i < index st ∧ ∃ p, ps !! i = Some p ∧ needsDetail p = true;
  inv_exclusive : ∀ w w' i,
    workers st !! w = Some (Awaiting i) →
    workers st !! w' = Some (Awaiting i) → w = w';
  inv_returned : Returned ∈ workers st → length ps ≤ index st;
  inv_workers : workers st = [] → ps = [];
  inv_requests :
    requests (trace st) = map id (filter (fun p => needsDetail p = true)
                                    (take (index st) ps));
  inv_done_NoDup : NoDup finishedFetches;
  inv_done : ∀ i, i ∈ finishedFetches ↔
    i < index st ∧ ¬ awaited (workers st) i ∧
    ∃ p, ps !! i = Some p ∧ needsDetail p = true;
  inv_warnings :
    warnings (trace st)
    = omap (fun i => ps !! i ≫= warningOf) finishedFetches;
  inv_fetched : fetched st = length finishedFetches
}.

End with_fetch.

(** Scenario C: ten items without the field, three workers, and a fetch
    that fails for item 4 only. *)
Definition scenarioC_items : list project :=
  map (fun n => Project n None None) [1; 2; 3; 4; 5; 6; 7; 8; 9; 10]%Z.

Definition scenarioC_fetch (projectId : Z) : response :=
  if (projectId =? 4)%Z then Failure "socket hang up"
  else Detail (Some "2024-06-01T00:00:00Z") (Some "2024-01-01T00:00:00Z").

Definition scenarioC_parsed : option Z := Some 3%Z.

(** The items after the pool has run. *)
Definition scenarioC_filled : list project :=
  map (fun n =>
         if (n =? 4)%Z then Project n None None
         else Project n (Some "2024-06-01T00:00:00Z")
                (Some "2024-01-01T00:00:00Z"))
    [1; 2; 3; 4; 5; 6; 7; 8; 9; 10]%Z.

(** A schedule of the three workers in turn, and the state it ends in. *)
Definition roundRobin : list nat :=
  [0; 1; 2; 0; 0; 1; 1; 2; 2; 0; 0; 1; 1; 2; 2; 0; 0; 1; 1; 2; 2; 0; 0].

Definition scenarioC_final : pool :=
  Pool scenarioC_filled 13 10 [Returned; Returned; Returned]
    [Request 1; Request 2; Request 3; Request 4; Request 5; Request 6;
     Warning 4 "socket hang up"; Request 7; Request 8; Request 9; Request 10;
     Progress 10 10].

(** A schedule for a second run on the filled items: the first worker
    skips up to item 4 and fetches it, the second skips the rest. *)
Definition secondRun : list nat :=
  [0; 0; 0; 0; 1; 1; 1; 1; 1; 1; 1; 2; 0; 0].

Definition scenarioC_again : pool :=
  Pool scenarioC_filled 13 1 [Returned; Returned; Returned]
    [Request 4; Warning 4 "socket hang up"].

End PoolSpec.

(** ** The environment file (loadEnv, the same in every script) *)

Module Env.

Definition squote : ascii := "039"%char.
Definition hash : ascii := "#"%char.
Definition equals : ascii := "="%char.

(** [raw.split] on an optional carriage return followed by a line feed:
    [line] is the text collected since the last break. *)
Fixpoint splitLines (raw : string) (line : string) : list string :=
  match raw with
  | EmptyString => [line]
  | String c rest =>
      if Ascii.eqb c CR then
        match rest with
        | String next rest' =>
            if Ascii.eqb next LF then line :: splitLines rest' EmptyString
            else splitLines rest (line +:+ str c)
        | EmptyString => splitLines rest (line +:+ str c)
        end
      else if Ascii.eqb c LF then line :: splitLines rest EmptyString
      else splitLines rest (line +:+ str c)
  end.

(** [line.indexOf] of the equals sign with the two slices around it:
    the text before the first equals sign and the text after it. *)
Fixpoint splitAtEquals (line : string) : option (string * string) :=
  match line with
  | EmptyString => None
  | String c rest =>
      if Ascii.eqb c equals then Some (EmptyString, rest)
      else
        match splitAtEquals rest with
        | Some (before, after) => Some (String c before, after)
        | None => None
        end
  end.

Definition startsWith (c : ascii) (s : string) : bool :=
  match s with
  | String c' _ => Ascii.eqb c' c
  | EmptyString => false
  end.

Fixpoint endsWith (c : ascii) (s : string) : bool :=
  match s with
  | EmptyString => false
  | String c' EmptyString => Ascii.eqb c' c
  | String _ rest => endsWith c rest
  end.

Fixpoint dropLast (s : string) : string :=
  match s with
  | EmptyString => EmptyString
  | String _ EmptyString => EmptyString
  | String c rest => String c (dropLast rest)
  end.

(** [value.slice(1, -1)] *)
Definition sliceInner (value : string) : string :=
  match value with
  | EmptyString => EmptyString
  | String _ rest => dropLast rest
  end.

(** The removal of one pair of matching quotes around a value. *)
Definition unquote (value : string) : string :=
  if (startsWith dquote value && endsWith dquote value)
     || (startsWith squote value && endsWith squote value)
  then sliceInner value else value.

Section with_builtins.

Variable trim : string → string.

(** The lines that pass the filter: not empty and not a comment. *)
Definition kept (line : string) : bool :=
  negb (String.eqb line EmptyString) && negb (startsWith hash line).

(** The key and value a kept line assigns, if it assigns any. *)
Definition parseLine (line : string) : option (string * string) :=
  match splitAtEquals line with
  | None => None
  | Some (before, after) =>
      let key := trim before in
      if String.eqb key EmptyString then None
      else Some (key, unquote (trim after))
  end.

(** The body of the [forEach]: the variable is set unless the environment
    has it already. *)
Definition assign (env : gmap string string) (line : string)
    : gmap string string :=
  match parseLine line with
  | None => env
  | Some (key, value) =>
      match env !! key with
      | Some _ => env
      | None => <[key := value]> env
      end
  end.

(** [loadEnv] on the text of the file, [None] where there is no file,
    and on [process.env]. *)
Definition loadEnv (file : option string) (env : gmap string string)
    : gmap string string :=
  match file with
  | None => env
  | Some raw =>
      foldl assign env
        (filter (fun line => kept line = true)
           (map trim (splitLines raw EmptyString)))
  end.

End with_builtins.

End Env.

(** ** The paginated project listing (fetchProjects of crawl_gitlab.js) *)

Module Crawl.

(** What [JSON.parse] makes of a response body. *)
Inductive parsed (A : Type) :=
  | Malformed
  | NotArray
  | Items (data : list A).
Arguments Malformed {A}.
Arguments NotArray {A}.
Arguments Items {A} data.

(** How [gitlabGet] settles for a page: it rejects, or it resolves with
    a body and the [x-next-page] header. *)
Inductive reply (A : Type) :=
  | Rejected (message : string)
  | Replied (body : parsed A) (nextPage : option string).
Arguments Rejected {A} message.
Arguments Replied {A} body nextPage.

Inductive outcome (A : Type) :=
  | Threw (message : string)
  | Returned (records : list A).
Arguments Threw {A} message.
Arguments Returned {A} records.

Section with_server.

Context {A : Type}.

(** [parseInt(text, 10)], [None] for [NaN]. *)
Variable parseInt : string → option Z.

(** The response to the request for a page. *)
Variable gitlabGet : Z → reply A.

(** The [while (true)] loop of [fetchProjects], from the state it has on
    entering an iteration; [None] when [fuel] iterations do not reach a
    [break] or a [throw]. *)
Fixpoint fetchProjectsFrom (fuel : nat) (page : Z) (records : list A)
    : option (outcome A) :=
  match fuel with
  | 0 => None
  | S fuel' =>
      match gitlabGet page with
      | Rejected message => Some (Threw message)
      | Replied Malformed _ =>
          Some (Threw "Failed to parse GitLab JSON response.")
      | Replied NotArray _ => Some (Returned records)
      | Replied (Items []) _ => Some (Returned records)
      | Replied (Items data) nextPage =>
          let records' := records ++ data in
          if truthy nextPage then
            match parseInt (nullish nextPage EmptyString) with
            | None => Some (Returned records')
            | Some page' =>
                if (page' <? 1)%Z then Some (Returned records')
                else fetchProjectsFrom fuel' page' records'
            end
          else Some (Returned records')
      end
  end.

Definition fetchProjects (fuel : nat) : option (outcome A) :=
  fetchProjectsFrom fuel 1 [].

End with_server.

End Crawl.

(** ** The legacy-project audit (main of check_legacy_repos.js) *)

Module Legacy.

(** An entry of [matches]. *)
Record matched := Matched {
  m_name : option string;
  githubArchived : option string;
  githubVisibility : option string;
  githubUrl : option string;
  m_gitlabArchived : option string;
  m_gitlabPath : option string;
  m_gitlabUrl : option string
}.

(** An entry of [missing]. *)
Record unmatched := Unmatched {
  u_name : option string;
  u_gitlabArchived : option string;
  u_gitlabPath : option string;
  u_gitlabUrl : option string
}.

Section with_builtins.

Variable trim : string → string.
Variable toLowerCase : string → string.

(** The lowercased trimmed name of a record. *)
Definition key (record : gmap string string) : string :=
  toLowerCase (Reconcile.trimmedName trim record).

(** One iteration of the loop that builds [githubByName].  The record is
    skipped where [githubByName[key]] is truthy, so under a key already
    taken and under the name of a member of [Object.prototype]. *)
Definition indexStep (githubByName : gmap string (gmap string string))
    (repo : gmap string string) : gmap string (gmap string string) :=
  if String.eqb (key repo) EmptyString then githubByName
  else
    match Dict.get githubByName (key repo) with
    | Dict.Missing => <[key repo := repo]> githubByName
    | _ => githubByName
    end.

(** The filter that selects [legacyProjects]. *)
Definition isLegacy (legacyPrefix : string) (project : gmap string string)
    : bool :=
  String.prefix legacyPrefix
    (toLowerCase
       (nullish (jsOr (project !! "path_with_namespace") (Some EmptyString))
          EmptyString)).

(** One iteration of the loop over [legacyProjects].  [repo] is whatever
    [githubByName[key]] finds, an own record or a member of
    [Object.prototype]. *)
Definition auditStep (githubByName : gmap string (gmap string string))
    (st : list matched * list unmatched) (project : gmap string string)
    : list matched * list unmatched :=
  let '(matches, missing) := st in
  if String.eqb (key project) EmptyString then st
  else
    match Dict.properties (Dict.get githubByName (key project)) with
    | Some repo =>
        (matches ++
           [Matched (project !! "name")
              (jsOr (jsOr (repo !! "archived") (repo !! "isArchived"))
                 (Some EmptyString))
              (jsOr (repo !! "visibility") (Some EmptyString))
              (jsOr (repo !! "url") (Some EmptyString))
              (project !! "archived")
              (project !! "path_with_namespace")
              (project !! "web_url")],
         missing)
    | None =>
        (matches,
         missing ++
           [Unmatched (project !! "name") (project !! "archived")
              (project !! "path_with_namespace") (project !! "web_url")])
    end.

(** The data part of [main]: the matches and the missing projects, for
    the records of the two reports and the lowercased legacy prefix. *)
Definition audit (legacyPrefix : string)
    (githubRecords gitlabRecords : list (gmap string string))
    : list matched * list unmatched :=
  let githubByName := foldl indexStep ∅ githubRecords in
  let legacyProjects :=
    filter (fun project => isLegacy legacyPrefix project = true)
      gitlabRecords in
  foldl (auditStep githubByName) ([], []) legacyProjects.

End with_builtins.

End Legacy.

(** ** The archive report as written by main of compare_github_gitlab.js *)

Module Report.

(** The column headers passed to [writeCsv]. *)
Definition headers : list string :=
  ["github_name"; "github_name_with_owner"; "github_archived";
   "github_visibility"; "gitlab_path_with_namespace"; "gitlab_archived";
   "status"].

(** A property that is set unless its value is undefined. *)
Definition setField (name : string) (value : option string)
    (record : gmap string string) : gmap string string :=
  match value with
  | Some v => <[name := v]> record
  | None => record
  end.

(** An output row as the object that [writeCsv] receives. *)
Definition rowObject (r : Reconcile.outcome) : gmap string string :=
  setField "github_name" (Reconcile.github_name r)
    (setField "github_name_with_owner" (Reconcile.github_name_with_owner r)
       (setField "github_archived" (Reconcile.github_archived r)
          (setField "github_visibility" (Reconcile.github_visibility r)
             (setField "gitlab_path_with_namespace"
                (Reconcile.gitlab_path_with_namespace r)
                (setField "gitlab_archived" (Reconcile.gitlab_archived r)
                   {["status" := Reconcile.status r]}))))).

(** The text [main] writes for the rows of [compare]. *)
Definition written (rows : list Reconcile.outcome) : string :=
  Csv.writeCsv headers (map rowObject rows).

End Report.

(** ** The single-repository check (check_repo_status.js) *)

Module Status.

(** An error object: its message and, on an HTTP error, its status code. *)
Record error := Error {
  message : string;
  statusCode : option Z
}.

(** What the HTTPS request comes to: a network error, or a response with
    its status code, if it has one, and its body. *)
Inductive exchange :=
  | NetworkError (message : string)
  | Response (status : option Z) (body : string).

Definition slash : ascii := "/"%char.

(** The removal of one slash at the end of a path. *)
Definition stripTrailingSlash (path : string) : string :=
  if Env.endsWith slash path then Env.dropLast path else path.

Section with_builtins.

(** The JSON values other than [null]; [JSON.parse], which throws
    ([None]), yields [null] ([Some None]) or yields another value; and the
    decimal text of a number in a template literal. *)
Variable J : Type.
Variable parseJson : string → option (option J).
Variable decimal : Z → string.

(** How [gitlabGet] settles: it rejects with an error or resolves with
    the body. *)
Definition gitlabGet (x : exchange) : error + string :=
  match x with
  | NetworkError message => inl (Error message None)
  | Response statusCode body =>
      let status := match statusCode with Some n => n | None => 0%Z end in
      if (400 <=? status)%Z then
        inl (Error ("GitLab request failed with status " +:+ decimal status)
               (Some status))
      else inr body
  end.

(** The project path that [fetchGitlabProject] asks for. *)
Definition fullPath (groupPath repoName : string) : string :=
  stripTrailingSlash groupPath +:+ str slash +:+ repoName.

(** [fetchGitlabProject]: the value it returns, [None] being [null], or
    the message of the error it throws.  The [null] of the 404 branch and
    a body that parses to [null] are the same value. *)
Definition fetchGitlabProject (groupPath repoName : string) (x : exchange)
    : string + option J :=
  let attempt : error + option J :=
    match gitlabGet x with
    | inl e => inl e
    | inr body =>
        match parseJson body with
        | Some project => inr project
        | None =>
            inl (Error "Failed to parse GitLab project response as JSON." None)
        end
    end in
  match attempt with
  | inr project => inr project
  | inl e =>
      if decide (statusCode e = Some 404%Z) then inr None
      else
        inl ("GitLab request failed for project '"
             +:+ fullPath groupPath repoName +:+ "': " +:+ message e)
  end.

End with_builtins.

End Status.

(** ** Auxiliary notions for the further properties *)

Module MoreSpec.

(** The two-character line break. *)
Definition CRLF : string := String CR (str LF).

(** Lines, each followed by the line break [eol]. *)
Fixpoint unlinesWith (eol : string) (lines : list string) : string :=
  match lines with
  | [] => EmptyString
  | line :: lines' => line +:+ eol +:+ unlinesWith eol lines'
  end.

(** A text without a carriage return and without a line feed. *)
Fixpoint noBreak (line : string) : bool :=
  match line with
  | EmptyString => true
  | String c rest =>
      negb (Ascii.eqb c CR) && negb (Ascii.eqb c LF) && noBreak rest
  end.

(** The assignments of an environment file, in file order. *)
Definition assignments (trim : string → string) (raw : string)
    : list (string * string) :=
  omap (Env.parseLine trim)
    (filter (fun line => Env.kept line = true)
       (map trim (Env.splitLines raw EmptyString))).

(** The value of the first assignment to [key]. *)
Definition firstAssigned (key : string) (kvs : list (string * string))
    : option string :=
  snd <$> head (filter (fun kv : string * string => kv.1 = key) kvs).

Section listing.

Context {A : Type}.
Variable parseInt : string → option Z.
Variable gitlabGet : Z → Crawl.reply A.

(** The header does not lead to a further page. *)
Definition lastPage (nextPage : option string) : Prop :=
  truthy nextPage = false ∨
  parseInt (nullish nextPage EmptyString) = None ∨
  ∃ n, parseInt (nullish nextPage EmptyString) = Some n ∧ (n < 1)%Z.

(** [Listing page pages n]: starting at [page] and following the next-page
    headers, the server hands out the non-empty [pages] and then stops, in
    [n] requests: by a header that leads nowhere, by an empty page or by a
    body that is not an array. *)
Inductive Listing : Z → list (list A) → nat → Prop :=
  | listing_last page data nextPage :
      data ≠ [] →
      gitlabGet page = Crawl.Replied (Crawl.Items data) nextPage →
      lastPage nextPage →
      Listing page [data] 1
  | listing_empty page nextPage :
      gitlabGet page = Crawl.Replied (Crawl.Items []) nextPage →
      Listing page [] 1
  | listing_not_array page nextPage :
      gitlabGet page = Crawl.Replied Crawl.NotArray nextPage →
      Listing page [] 1
  | listing_next page data nextPage next pages n :
      data ≠ [] →
      gitlabGet page = Crawl.Replied (Crawl.Items data) nextPage →
      truthy nextPage = true →
      parseInt (nullish nextPage EmptyString) = Some next →
      (1 ≤ next)%Z →
      Listing next pages n →
      Listing page (data :: pages) (S n).

(** Every page the server can be asked for is non-empty and leads on. *)
Definition endless : Prop :=
  ∀ page, ∃ item data nextPage next,
    gitlabGet page = Crawl.Replied (Crawl.Items (item :: data)) nextPage ∧
    truthy nextPage = true ∧
    parseInt (nullish nextPage EmptyString) = Some next ∧
    (1 ≤ next)%Z.

End listing.

(** A server with three pages of numbers, linked by their headers. *)
Definition threePages (page : Z) : Crawl.reply Z :=
  if (page =? 1)%Z then Crawl.Replied (Crawl.Items [1; 2]%Z) (Some "2")
  else if (page =? 2)%Z then Crawl.Replied (Crawl.Items [3; 4]%Z) (Some "3")
  else if (page =? 3)%Z then Crawl.Replied (Crawl.Items [5]%Z) (Some EmptyString)
  else Crawl.Rejected "not found".

(** [parseInt] on the page numbers the sample server uses. *)
Definition samplePageNumber (text : string) : option Z :=
  if String.eqb text "2" then Some 2%Z
  else if String.eqb text "3" then Some 3%Z
  else None.

(** A server whose every page points back to page one. *)
Definition loopingServer (page : Z) : Crawl.reply Z :=
  Crawl.Replied (Crawl.Items [page]) (Some "1").

Definition loopingPageNumber (text : string) : option Z :=
  if String.eqb text "1" then Some 1%Z else None.

(** The named GitHub records of a file. *)
Definition namedRecords (trim : string → string)
    (records : list (gmap string string)) : list (gmap string string) :=
  filter (fun r => Reconcile.trimmedName trim r ≠ EmptyString) records.

(** An output row of the archive cross-check with an undefined name. *)
Definition sampleRow : Reconcile.outcome :=
  Reconcile.Outcome None (Some "o/r") (Some "false") (Some "public")
    (Some "g/r") (Some "false") "gitlab_not_archived".

Section legacy.

Variable trim : string → string.
Variable toLowerCase : string → string.

(** The legacy projects that have a name, in file order. *)
Definition audited (legacyPrefix : string)
    (gitlabRecords : list (gmap string string)) : list (gmap string string) :=
  filter (fun p => Legacy.key trim toLowerCase p ≠ EmptyString)
    (filter (fun p => Legacy.isLegacy toLowerCase legacyPrefix p = true)
       gitlabRecords).

(** Some GitHub record has the key of the project. *)
Definition onGithub (githubRecords : list (gmap string string))
    (project : gmap string string) : Prop :=
  Exists (fun repo => Legacy.key trim toLowerCase repo
                      = Legacy.key trim toLowerCase project) githubRecords.

Global Instance onGithub_dec githubRecords project :
  Decision (onGithub githubRecords project).
Proof. unfold onGithub. apply _. Defined.

End legacy.

(** A legacy group with one project on GitHub, one not and one named
    constructor, next to a project outside the group. *)
Definition legacyGithub : list (gmap string string) :=
  [{["name" := "Billing"; "url" := "https://github.example/billing"]}].

Definition legacyGitlab : list (gmap string string) :=
  [{["name" := "billing"; "path_with_namespace" := "acme/legacy/billing"]};
   {["name" := "wiki"; "path_with_namespace" := "acme/legacy/wiki"]};
   {["name" := "constructor";
     "path_with_namespace" := "acme/legacy/constructor"]};
   {["name" := "shop"; "path_with_namespace" := "acme/shop"]}].

(** The columns of the reports the two crawlers write. *)
Definition githubReportHeaders : list string :=
  ["name"; "name_with_owner"; "archived"; "visibility"; "url"].

Definition gitlabReportHeaders : list string :=
  ["name"; "path_with_namespace"; "archived"; "last_activity_at"; "web_url";
   "empty_repo"; "visibility"; "last_repository_updated_at"].

(** A record as it comes back from a written table with the columns
    [headers]: those columns only, an absent value as the empty string. *)
Definition decoded (headers : list string) (r : gmap string string)
    : gmap string string :=
  Csv.fillRecord headers 0 (CsvSpec.cellsRead headers r) ∅.

(** Two repositories as the GitHub crawler lists them. *)
Definition crawledRepos : list (gmap string string) :=
  [{["name" := "Foo"; "name_with_owner" := "acme/Foo"; "archived" := "false"]};
   {["name" := "bar"; "url" := "https://github.example/acme/bar"]}].

End MoreSpec.

(** * Properties of the codec *)

Section string_facts.

Lemma sapp_nil_l (s : string) : EmptyString +:+ s = s.
Proof. reflexivity. Qed.

Lemma sapp_cons (c : ascii) (s t : string) :
  String c s +:+ t = String c (s +:+ t).
Proof. reflexivity. Qed.

Lemma sapp_nil_r (s : string) : s +:+ EmptyString = s.
Proof. induction s as [|c s IH]; [done | by rewrite sapp_cons, IH]. Qed.

Lemma sapp_assoc (a b c : string) : (a +:+ b) +:+ c = a +:+ (b +:+ c).
Proof.
  induction a as [|x a IH]; [done | by rewrite !sapp_cons, IH].
Qed.

Lemma sapp_snoc (a : string) (c : ascii) (s : string) :
  (a +:+ str c) +:+ s = a +:+ String c s.
Proof. by rewrite sapp_assoc. Qed.

Lemma str_app (c : ascii) (s : string) : str c +:+ s = String c s.
Proof. reflexivity. Qed.

End string_facts.

(** * Properties of objects indexed by a computed key *)

Module DictFacts.

Lemma assignString_other key text (record : gmap string string) h :
  h ≠ key → Dict.assignString key text record !! h = record !! h.
Proof.
  intros Hne. unfold Dict.assignString.
  destruct (String.eqb key "__proto__"); [done|].
  by rewrite lookup_insert_ne.
Qed.

Lemma assignString_own key text (record : gmap string string) :
  key ≠ "__proto__" → Dict.assignString key text record !! key = Some text.
Proof.
  intros Hne%String.eqb_neq. unfold Dict.assignString. rewrite Hne.
  by rewrite lookup_insert_eq.
Qed.

Lemma assignString_proto text (record : gmap string string) :
  Dict.assignString "__proto__" text record = record.
Proof. reflexivity. Qed.

(** Off the members of [Object.prototype], [obj[key]] is the lookup among
    the own properties. *)
Lemma get_own {A} (obj : gmap string A) key :
  Dict.inherited key = false →
  Dict.get obj key
  = match obj !! key with Some value => Dict.Own value | None => Dict.Missing end.
Proof. intros Hkey. unfold Dict.get. by rewrite Hkey. Qed.

(** A member of [Object.prototype] that is not shadowed is what the
    lookup finds. *)
Lemma get_member {A} (obj : gmap string A) key :
  Dict.inherited key = true → obj !! key = None →
  Dict.get obj key = Dict.Member.
Proof. intros Hkey Hnone. unfold Dict.get. by rewrite Hnone, Hkey. Qed.

Lemma get_missing {A} (obj : gmap string A) key :
  Dict.get obj key = Dict.Missing ↔
  obj !! key = None ∧ Dict.inherited key = false.
Proof.
  unfold Dict.get. destruct (obj !! key); [by split; [|intros []]|].
  destruct (Dict.inherited key); split; try done; by intros [].
Qed.

End DictFacts.

Module CsvFacts.
Import Csv CsvSpec.

(** *** One step of the scanner, case by case *)

Lemma isSpecial_false c :
  isSpecial c = false →
  Ascii.eqb c dquote = false ∧ Ascii.eqb c comma = false ∧
  Ascii.eqb c LF = false ∧ Ascii.eqb c CR = false.
Proof.
  unfold isSpecial. intros H.
  repeat (apply orb_false_elim in H as [H ?]). auto.
Qed.

Lemma scan_plain c rest rs r cl :
  isSpecial c = false →
  scan (String c rest) (Scanner rs r cl false)
  = scan rest (Scanner rs r (cl +:+ str c) false).
Proof.
  intros (Hq & Hc & Hl & Hr)%isSpecial_false.
  cbn [scan inQuotes rows row cell]. by rewrite Hq, Hc, Hl, Hr.
Qed.

Lemma scan_open rest rs r cl :
  scan (String dquote rest) (Scanner rs r cl false)
  = scan rest (Scanner rs r cl true).
Proof. reflexivity. Qed.

Lemma scan_comma rest rs r cl :
  scan (String comma rest) (Scanner rs r cl false)
  = scan rest (Scanner rs (r ++ [cl]) EmptyString false).
Proof. reflexivity. Qed.

Lemma scan_LF rest rs r cl :
  scan (String LF rest) (Scanner rs r cl false)
  = scan rest (Scanner (rs ++ [r ++ [cl]]) [] EmptyString false).
Proof. destruct rest; reflexivity. Qed.

Lemma scan_quoted_char c rest rs r cl :
  Ascii.eqb c dquote = false →
  scan (String c rest) (Scanner rs r cl true)
  = scan rest (Scanner rs r (cl +:+ str c) true).
Proof. intros Hq. cbn [scan inQuotes rows row cell]. by rewrite Hq. Qed.

Lemma scan_escaped rest rs r cl :
  scan (String dquote (String dquote rest)) (Scanner rs r cl true)
  = scan rest (Scanner rs r (cl +:+ str dquote) true).
Proof. reflexivity. Qed.

Lemma scan_close rest rs r cl :
  notQuoteHead rest →
  scan (String dquote rest) (Scanner rs r cl true)
  = scan rest (Scanner rs r cl false).
Proof.
  intros H. destruct rest as [|c rest]; [reflexivity|].
  cbn [scan inQuotes rows row cell]. simpl in H.
  apply Ascii.eqb_neq in H. by rewrite Ascii.eqb_refl, H.
Qed.

(** *** A written cell is read back as its value *)

Lemma scan_unquoted s rest rs r cl :
  testSpecial s = false →
  scan (s +:+ rest) (Scanner rs r cl false)
  = scan rest (Scanner rs r (cl +:+ s) false).
Proof.
  revert cl. induction s as [|c s IH]; intros cl H.
  - by rewrite sapp_nil_l, sapp_nil_r.
  - simpl in H. apply orb_false_elim in H as [Hc Hs].
    rewrite sapp_cons, scan_plain by done.
    rewrite IH by done. by rewrite sapp_snoc.
Qed.

Lemma scan_quoted_body s rest rs r cl :
  notQuoteHead rest →
  scan (doubleQuotes s +:+ String dquote rest) (Scanner rs r cl true)
  = scan rest (Scanner rs r (cl +:+ s) false).
Proof.
  intros Hrest. revert cl. induction s as [|c s IH]; intros cl.
  - cbn [doubleQuotes]. rewrite sapp_nil_l, scan_close by done.
    by rewrite sapp_nil_r.
  - cbn [doubleQuotes]. destruct (Ascii.eqb c dquote) eqn:Hc.
    + apply Ascii.eqb_eq in Hc as ->.
      rewrite !sapp_cons, scan_escaped, IH. by rewrite sapp_snoc.
    + rewrite sapp_cons, scan_quoted_char by done.
      rewrite IH. by rewrite sapp_snoc.
Qed.

Lemma scan_value v rest rs r cl :
  notQuoteHead rest →
  scan (stringifyCsvValue v +:+ rest) (Scanner rs r cl false)
  = scan rest (Scanner rs r (cl +:+ nullish v EmptyString) false).
Proof.
  intros Hrest. destruct v as [s|]; cbn [stringifyCsvValue nullish].
  - destruct (testSpecial s) eqn:Hs.
    + rewrite sapp_cons, scan_open, sapp_assoc, str_app.
      by apply scan_quoted_body.
    + by apply scan_unquoted.
  - by rewrite sapp_nil_l, sapp_nil_r.
Qed.

(** *** A written row is read back as its cells *)

Lemma concat_cons2 sep (x y : string) l :
  String.concat sep (x :: y :: l) = x +:+ sep +:+ String.concat sep (y :: l).
Proof. reflexivity. Qed.

Lemma scan_row_cons v vs rest rs r :
  scan (encodeRow (v :: vs) +:+ String LF rest) (Scanner rs r EmptyString false)
  = scan rest
      (Scanner (rs ++ [r ++ map (fun v => nullish v EmptyString) (v :: vs)])
         [] EmptyString false).
Proof.
  revert v r. induction vs as [|v' vs IH]; intros v r.
  - unfold encodeRow. cbn [map String.concat].
    rewrite scan_value by (by compute). by rewrite sapp_nil_l, scan_LF.
  - unfold encodeRow in *. cbn [map] in *.
    rewrite concat_cons2, !sapp_assoc, str_app.
    rewrite scan_value by (by compute).
    rewrite sapp_nil_l, scan_comma, IH.
    by rewrite <- (assoc_L (++)).
Qed.

Lemma scan_row vs rest rs :
  scan (encodeRow vs +:+ String LF rest) (Scanner rs [] EmptyString false)
  = scan rest (Scanner (rs ++ [cellsOf vs]) [] EmptyString false).
Proof.
  destruct vs as [|v vs].
  - unfold encodeRow. cbn [map String.concat cellsOf].
    by rewrite sapp_nil_l, scan_LF.
  - by rewrite scan_row_cons.
Qed.

Lemma scan_unlines vss rs :
  scan (unlines (map encodeRow vss)) (Scanner rs [] EmptyString false)
  = Scanner (rs ++ map cellsOf vss) [] EmptyString false.
Proof.
  revert rs. induction vss as [|vs vss IH]; intros rs.
  - cbn. by rewrite app_nil_r.
  - cbn [map unlines]. rewrite scan_row, IH.
    by rewrite <- (assoc_L (++)).
Qed.

Lemma concat_unlines line lines :
  String.concat (str LF) (line :: lines) +:+ str LF = unlines (line :: lines).
Proof.
  revert line. induction lines as [|l lines IH]; intros line.
  - reflexivity.
  - rewrite concat_cons2, !sapp_assoc, IH. reflexivity.
Qed.

Lemma stringify_plain hs :
  Forall plainHeader hs → map stringifyCsvValue (map Some hs) = hs.
Proof.
  induction 1 as [|h hs Hh _ IH]; [done|].
  cbn [map stringifyCsvValue]. unfold plainHeader in Hh. by rewrite Hh, IH.
Qed.

Lemma writeCsv_unlines hs records :
  Forall plainHeader hs →
  writeCsv hs records
  = unlines (map encodeRow (map Some hs :: map (valuesOf hs) records)).
Proof.
  intros Hhs. unfold writeCsv. rewrite concat_unlines.
  cbn [map]. unfold encodeRow at 1. rewrite stringify_plain by done.
  do 2 f_equal. rewrite map_map. apply map_ext. intros record.
  unfold encodeRow, valuesOf. by rewrite map_map.
Qed.

Lemma scanRows_writeCsv hs records :
  Forall plainHeader hs →
  scanRows (writeCsv hs records)
  = cellsOf (map Some hs) :: map (fun r => cellsOf (valuesOf hs r)) records.
Proof.
  intros Hhs. unfold scanRows. rewrite writeCsv_unlines by done.
  rewrite scan_unlines. cbn. by rewrite map_map.
Qed.

(** *** The trailing-row check *)

Lemma trailingEmpty_snoc rs (x : list string) :
  trailingEmpty (rs ++ [x]) = true ↔ x = [EmptyString].
Proof.
  unfold trailingEmpty. rewrite length_app. cbn [length].
  replace (length rs + 1 - 1) with (length rs + 0) by lia.
  rewrite lookup_app_r, Nat.add_0_r, Nat.sub_diag by lia. cbn [lookup list_lookup].
  replace (0 <? length rs + 1) with true by (symmetry; apply Nat.ltb_lt; lia).
  cbn [andb]. destruct x as [|c [|c' x]]; cbn; try (split; [done | congruence]).
  rewrite String.eqb_eq. split; congruence.
Qed.

Lemma trailingEmpty_nil : trailingEmpty [] = false.
Proof. reflexivity. Qed.

Lemma pop_snoc rs (x : list string) : pop (rs ++ [x]) = rs.
Proof.
  unfold pop. rewrite length_app. cbn [length].
  replace (length rs + 1 - 1) with (length rs) by lia.
  by rewrite take_app_length.
Qed.

Lemma trailingEmpty_last rs :
  trailingEmpty rs = true ↔ last rs = Some [EmptyString].
Proof.
  destruct rs as [|r rs _] using rev_ind.
  - by cbn.
  - rewrite trailingEmpty_snoc, last_snoc. split; congruence.
Qed.

(** *** Rebuilding a record from its cells *)

Lemma fillRecord_other hs index cells record h :
  h ∉ hs → fillRecord hs index cells record !! h = record !! h.
Proof.
  revert index record. induction hs as [|h0 hs IH]; intros index record Hh.
  - done.
  - apply not_elem_of_cons in Hh as [Hne Hh]. cbn [fillRecord].
    rewrite IH by done. by apply DictFacts.assignString_other.
Qed.

Lemma fillRecord_values (f : string → string) hs pre record h :
  h ∈ hs →
  h ≠ "__proto__" →
  fillRecord hs (length pre) (pre ++ map f hs) record !! h = Some (f h).
Proof.
  revert pre record. induction hs as [|h0 hs IH]; intros pre record Hh Hproto.
  - by apply elem_of_nil in Hh.
  - cbn [fillRecord map].
    rewrite lookup_app_r, Nat.sub_diag by lia. cbn [lookup list_lookup nullish].
    destruct (decide (h ∈ hs)) as [Hin|Hout].
    + specialize (IH (pre ++ [f h0]) (Dict.assignString h0 (f h0) record)
                    Hin Hproto).
      rewrite length_app, Nat.add_1_r in IH.
      by rewrite <- (assoc_L (++)) in IH.
    + apply elem_of_cons in Hh as [->|Hin]; [|done].
      rewrite fillRecord_other by done.
      by apply DictFacts.assignString_own.
Qed.

(** The header [__proto__] never becomes a field. *)
Lemma fillRecord_proto hs index cells (record : gmap string string) :
  fillRecord hs index cells record !! "__proto__" = record !! "__proto__".
Proof.
  revert index record. induction hs as [|h0 hs IH]; intros index record; [done|].
  cbn [fillRecord]. rewrite IH. unfold Dict.assignString.
  destruct (String.eqb_spec h0 "__proto__") as [->|Hne]; [done|].
  by rewrite lookup_insert_ne.
Qed.

(** *** Reading back a written table *)

Lemma parseCsv_snoc content rs x :
  scanRows content = rs ++ [x] →
  parseCsv content = if decide (x = [EmptyString]) then rs else rs ++ [x].
Proof.
  intros Hscan. unfold parseCsv. rewrite Hscan.
  destruct (trailingEmpty (rs ++ [x])) eqn:Ht.
  - apply trailingEmpty_snoc in Ht. rewrite decide_True by done. apply pop_snoc.
  - rewrite decide_False; [done|]. intros Hx.
    apply (trailingEmpty_snoc rs) in Hx. congruence.
Qed.

Lemma readCsv_writeCsv hs records :
  Forall plainHeader hs →
  readCsv (writeCsv hs records)
  = map (fun r => fillRecord (cellsOf (map Some hs)) 0 (cellsRead hs r) ∅)
      (survivors hs records).
Proof.
  intros Hhs. pose proof (scanRows_writeCsv hs records Hhs) as Hscan.
  unfold readCsv, survivors.
  destruct records as [|r records _] using rev_ind.
  - cbn [map] in Hscan.
    rewrite (parseCsv_snoc _ [] _ Hscan). by case_decide.
  - rewrite map_app in Hscan. cbn [map] in Hscan.
    rewrite app_comm_cons in Hscan.
    rewrite (parseCsv_snoc _ _ _ Hscan), last_snoc.
    fold (cellsRead hs r). case_decide.
    + rewrite length_app. cbn [length].
      replace (length records + 1 - 1) with (length records) by lia.
      by rewrite take_app_length, map_map.
    + rewrite <- app_comm_cons, !map_app, map_map. reflexivity.
Qed.

(** *** When the last record survives *)

Lemma cellsRead_cons h hs r :
  cellsRead (h :: hs) r
  = map (fun h => nullish (r !! h) EmptyString) (h :: hs).
Proof. unfold cellsRead, valuesOf. cbn [map cellsOf]. by rewrite map_map. Qed.

Lemma cellsOf_headers h hs : cellsOf (map Some (h :: hs)) = h :: hs.
Proof.
  cbn [map cellsOf nullish]. f_equal. rewrite map_map. cbn [nullish].
  apply map_id.
Qed.

Lemma survivors_kept hs records :
  (∀ r, last records = Some r → cellsRead hs r ≠ [EmptyString]) →
  survivors hs records = records.
Proof.
  intros H. unfold survivors. destruct (last records) as [r|]; [|done].
  by rewrite decide_False by by apply H.
Qed.

Lemma survivors_dropped hs records r :
  cellsRead hs r = [EmptyString] → survivors hs (records ++ [r]) = records.
Proof.
  intros H. unfold survivors. rewrite last_snoc, decide_True by done.
  rewrite length_app. cbn [length].
  replace (length records + 1 - 1) with (length records) by lia.
  by rewrite take_app_length.
Qed.

Lemma readCsv_writeCsv_fields hs records i (r r' : gmap string string) h :
  Forall plainHeader hs →
  survivors hs records = records →
  records !! i = Some r →
  readCsv (writeCsv hs records) !! i = Some r' →
  h ∈ hs →
  h ≠ "__proto__" →
  r' !! h = Some (nullish (r !! h) EmptyString).
Proof.
  intros Hhs Hkeep Hr Hr' Hh Hproto.
  rewrite readCsv_writeCsv, Hkeep, list_lookup_fmap, Hr in Hr' by done.
  destruct hs as [|h0 hs]; [by apply elem_of_nil in Hh|].
  rewrite cellsOf_headers in Hr'.
  cbn [fmap option_fmap option_map] in Hr'. apply (inj Some) in Hr' as <-.
  rewrite cellsRead_cons.
  apply (fillRecord_values (fun h => nullish (r !! h) EmptyString)
           (h0 :: hs) [] ∅ h Hh Hproto).
Qed.

End CsvFacts.

(** * Properties of the loaders and of the archive cross-check *)

Module ReconcileFacts.
Import Reconcile ReconcileSpec.

Section with_builtins.

Variable trim : string → string.
Variable toLowerCase : string → string.

Local Abbreviation trimmedName := (Reconcile.trimmedName trim).
Local Abbreviation keyOf := (ReconcileSpec.keyOf trim toLowerCase).
Local Abbreviation matching := (ReconcileSpec.matching trim toLowerCase).
Local Abbreviation keysOf := (ReconcileSpec.keysOf trim toLowerCase).
Local Abbreviation loadStep := (Reconcile.loadStep trim toLowerCase).
Local Abbreviation loadRecords := (Reconcile.loadRecords trim toLowerCase).

Lemma matching_snoc key records r :
  matching key (records ++ [r])
  = matching key records ++
    (if decide (trimmedName r ≠ EmptyString ∧ keyOf r = key) then [r] else []).
Proof.
  unfold ReconcileSpec.matching. rewrite filter_app. by f_equal.
Qed.

Lemma matching_elem key records r :
  r ∈ matching key records →
  r ∈ records ∧ trimmedName r ≠ EmptyString ∧ keyOf r = key.
Proof.
  unfold ReconcileSpec.matching. rewrite list_elem_of_filter. tauto.
Qed.

Local Abbreviation memberNamed := (ReconcileSpec.memberNamed trim toLowerCase).

Lemma loadLoop_app records records' st :
  loadLoop trim toLowerCase (records ++ records') st
  = match loadLoop trim toLowerCase records st with
    | Some st' => loadLoop trim toLowerCase records' st'
    | None => None
    end.
Proof.
  revert st. induction records as [|r records IH]; intros st; [done|].
  cbn [app Reconcile.loadLoop]. destruct (loadStep st r); [apply IH | done].
Qed.

Lemma matching_nil_member key records :
  Forall (fun r => ¬ memberNamed r) records →
  Dict.inherited key = true →
  matching key records = [].
Proof.
  intros Hok Hkey. unfold ReconcileSpec.matching.
  induction Hok as [|r records Hr _ IH]; [done|].
  rewrite filter_cons, decide_False; [done|].
  intros [Hname <-]. apply Hr. by split.
Qed.

(** The state of the loader's loop after the records, none of which has a
    name that finds a member of [Object.prototype]. *)
Lemma loadLoop_returns records :
  Forall (fun r => ¬ memberNamed r) records →
  ∃ repos dups,
    loadLoop trim toLowerCase records (∅, ∅) = Some (repos, dups) ∧
    ∀ key, repos !! key = head (matching key records) ∧
           dups !! key = nonempty (tail (matching key records)).
Proof.
  induction records as [|r records IH] using rev_ind; intros Hok.
  - exists ∅, ∅. split; [done|]. intros key. by rewrite !lookup_empty.
  - apply Forall_app in Hok as [Hok Hr]. apply Forall_cons in Hr as [Hr _].
    destruct (IH Hok) as (repos & dups & Hloop & Hstate).
    rewrite loadLoop_app, Hloop. cbn [Reconcile.loadLoop].
    unfold Reconcile.loadStep. fold (keyOf r).
    destruct (String.eqb_spec (trimmedName r) EmptyString) as [Hempty|Hname].
    { exists repos, dups. split; [done|]. intros key.
      rewrite matching_snoc, decide_False by tauto. rewrite app_nil_r.
      apply Hstate. }
    assert (Dict.inherited (keyOf r) = false) as Hown.
    { destruct (Dict.inherited (keyOf r)) eqn:Hin; [|done].
      exfalso. apply Hr. by split. }
    rewrite !DictFacts.get_own by done.
    destruct (Hstate (keyOf r)) as [Hrepos Hdups].
    destruct (repos !! keyOf r) as [first|] eqn:Hfirst.
    + destruct (matching (keyOf r) records) as [|x rest] eqn:Hm; [done|].
      cbn [head tail] in Hrepos, Hdups.
      destruct (dups !! keyOf r) as [seen|] eqn:Hseen.
      * exists repos, (<[keyOf r := seen ++ [r]]> dups). split; [done|].
        intros key. rewrite matching_snoc. case_decide as Hk.
        -- destruct Hk as [_ <-]. rewrite Hm. cbn [app head tail].
           split; [congruence|]. rewrite lookup_insert_eq.
           destruct rest; [done|]. by injection Hdups as ->.
        -- rewrite app_nil_r. destruct (Hstate key) as [? ?]. split; [done|].
           rewrite lookup_insert_ne; [done|]. intros <-. tauto.
      * exists repos, (<[keyOf r := [r]]> dups). split; [done|].
        intros key. rewrite matching_snoc. case_decide as Hk.
        -- destruct Hk as [_ <-]. rewrite Hm. cbn [app head tail].
           split; [congruence|]. rewrite lookup_insert_eq.
           by destruct rest.
        -- rewrite app_nil_r. destruct (Hstate key) as [? ?]. split; [done|].
           rewrite lookup_insert_ne; [done|]. intros <-. tauto.
    + destruct (matching (keyOf r) records) as [|x rest] eqn:Hm; [|done].
      exists (<[keyOf r := r]> repos), dups. split; [done|]. intros key.
      rewrite matching_snoc. case_decide as Hk.
      * destruct Hk as [_ <-]. rewrite Hm. cbn [app head tail nonempty].
        by rewrite lookup_insert_eq.
      * rewrite app_nil_r. destruct (Hstate key) as [? ?]. split; [|done].
        rewrite lookup_insert_ne; [done|]. intros <-. tauto.
Qed.

(** The loop throws at the first record whose name finds a member of
    [Object.prototype]. *)
Lemma loadLoop_throws records :
  Exists memberNamed records →
  loadLoop trim toLowerCase records (∅, ∅) = None.
Proof.
  induction records as [|r records IH] using rev_ind.
  - by intros ?%Exists_nil.
  - intros Hex. rewrite loadLoop_app.
    destruct (decide (Exists memberNamed records)) as [Hbefore|Hnone].
    { by rewrite IH. }
    apply Exists_app in Hex as [?|Hr]; [done|].
    apply Exists_cons in Hr as [[Hname Hkey]|?%Exists_nil]; [|done].
    apply not_Exists_Forall in Hnone; [|apply _].
    destruct (loadLoop_returns records Hnone) as (repos & dups & -> & Hstate).
    cbn [Reconcile.loadLoop]. unfold Reconcile.loadStep. fold (keyOf r).
    apply String.eqb_neq in Hname. rewrite Hname.
    destruct (Hstate (keyOf r)) as [Hrepos Hdups].
    rewrite (matching_nil_member _ _ Hnone Hkey) in Hrepos, Hdups.
    by rewrite !DictFacts.get_member.
Qed.

Lemma loadRecords_None records :
  loadRecords records = None ↔ Exists memberNamed records.
Proof.
  unfold Reconcile.loadRecords. split.
  - intros Hnone. destruct (decide (Exists memberNamed records)); [done|].
    apply not_Exists_Forall in n; [|apply _].
    destruct (loadLoop_returns records n) as (repos & dups & Hloop & _).
    by rewrite Hloop in Hnone.
  - intros Hex. by rewrite loadLoop_throws.
Qed.

Lemma loadRecords_returns records :
  Forall (fun r => ¬ memberNamed r) records →
  ∃ report, loadRecords records = Some report.
Proof.
  intros Hok. destruct (loadRecords records) eqn:Hload; [by eexists|].
  apply loadRecords_None in Hload.
  apply Exists_exists in Hload as (r & Hr & Hmember).
  rewrite Forall_forall in Hok. by destruct (Hok r Hr).
Qed.

Lemma loadRecords_Some records report :
  loadRecords records = Some report →
  Forall (fun r => ¬ memberNamed r) records ∧
  (∀ key, canonical report !! key = head (matching key records) ∧
          duplicates report !! key = nonempty (tail (matching key records))) ∧
  warning report
  = (if 0 <? size (duplicates report)
     then Some (size (duplicates report)) else None).
Proof.
  intros Hload.
  assert (Forall (fun r => ¬ memberNamed r) records) as Hok.
  { apply Forall_forall. intros r Hr Hmember.
    assert (loadRecords records = None) as Hnone.
    { apply loadRecords_None, Exists_exists. by exists r. }
    congruence. }
  split; [done|].
  destruct (loadLoop_returns records Hok) as (repos & dups & Hloop & Hstate).
  unfold Reconcile.loadRecords in Hload. rewrite Hloop in Hload.
  injection Hload as <-. cbn [canonical duplicates warning].
  split; [done|]. by rewrite length_map, length_map_to_list.
Qed.

Lemma loadRecords_canonical records report key :
  loadRecords records = Some report →
  canonical report !! key = head (matching key records).
Proof. intros (_ & Hstate & _)%loadRecords_Some. apply Hstate. Qed.

Lemma loadRecords_duplicates records report key :
  loadRecords records = Some report →
  duplicates report !! key = nonempty (tail (matching key records)).
Proof. intros (_ & Hstate & _)%loadRecords_Some. apply Hstate. Qed.

Lemma head_is_Some_elem {A} (l : list A) x : head l = Some x → x ∈ l.
Proof. destruct l; [done|]. intros [= ->]. left. Qed.

Lemma loadRecords_key records report key r :
  loadRecords records = Some report →
  canonical report !! key = Some r →
  r ∈ records ∧ trimmedName r ≠ EmptyString ∧ keyOf r = key.
Proof.
  intros Hload. rewrite (loadRecords_canonical _ _ _ Hload).
  intros H%head_is_Some_elem. by apply matching_elem.
Qed.

Lemma loadRecords_dom records report :
  loadRecords records = Some report →
  dom (canonical report) = list_to_set (keysOf records).
Proof.
  intros Hload. apply set_eq. intros key.
  rewrite elem_of_dom, elem_of_list_to_set, (loadRecords_canonical _ _ _ Hload).
  unfold ReconcileSpec.keysOf. rewrite list_elem_of_fmap. split.
  - intros [r Hr]. apply head_is_Some_elem, matching_elem in Hr as (? & ? & ?).
    exists r. split; [done|]. by apply list_elem_of_filter.
  - intros (r & -> & [Hname Hin]%list_elem_of_filter).
    assert (r ∈ matching (keyOf r) records) as Hm.
    { unfold ReconcileSpec.matching. by apply list_elem_of_filter. }
    destruct (matching (keyOf r) records); [by apply elem_of_nil in Hm|].
    by eexists.
Qed.

Lemma size_list_to_set_remove_dups (l : list string) :
  size (list_to_set l : gset string) = length (remove_dups l).
Proof.
  rewrite <- (size_list_to_set (C := gset string) (remove_dups l))
    by apply NoDup_remove_dups.
  f_equal. apply set_eq. intros x.
  by rewrite !elem_of_list_to_set, elem_of_remove_dups.
Qed.

Lemma loadRecords_size records report :
  loadRecords records = Some report →
  size (canonical report) = length (remove_dups (keysOf records)).
Proof.
  intros Hload.
  rewrite <- (size_dom (D := gset string)), (loadRecords_dom _ _ Hload).
  apply size_list_to_set_remove_dups.
Qed.

(** *** The loop of [compare] *)

Local Abbreviation branchOf := (ReconcileSpec.branchOf toLowerCase).
Local Abbreviation tally := (ReconcileSpec.tally toLowerCase).
Local Abbreviation rowFor := (ReconcileSpec.rowFor toLowerCase).
Local Abbreviation compareStep := (Reconcile.compareStep toLowerCase).
Local Abbreviation compare := (Reconcile.compare toLowerCase).

Lemma sortedKeys_perm (github : gmap string (gmap string string)) :
  sortedKeys github ≡ₚ (map_to_list github).*1.
Proof. apply merge_sort_Permutation. Qed.

Lemma sortedKeys_NoDup (github : gmap string (gmap string string)) :
  NoDup (sortedKeys github).
Proof. rewrite sortedKeys_perm. apply NoDup_fst_map_to_list. Qed.

Lemma sortedKeys_elem (github : gmap string (gmap string string)) key :
  key ∈ sortedKeys github ↔ is_Some (github !! key).
Proof.
  rewrite sortedKeys_perm, list_elem_of_fmap. split.
  - intros ([k v] & -> & Hkv). apply elem_of_map_to_list in Hkv. by eexists.
  - intros [v Hv]. exists (key, v). split; [done|].
    by apply elem_of_map_to_list.
Qed.

Lemma sortedKeys_sorted (github : gmap string (gmap string string)) :
  StronglySorted String.le (sortedKeys github).
Proof. apply (StronglySorted_merge_sort _). Qed.

Lemma sortedKeys_length (github : gmap string (gmap string string)) :
  length (sortedKeys github) = size github.
Proof.
  rewrite sortedKeys_perm, length_fmap. apply length_map_to_list.
Qed.

Lemma tally_cons b gitlab key keys :
  tally b gitlab (key :: keys)
  = (if decide (branchOf gitlab key = b) then 1 else 0) + tally b gitlab keys.
Proof.
  unfold ReconcileSpec.tally. rewrite filter_cons. by case_decide.
Qed.

Lemma tally_total gitlab keys :
  tally MissingOnRight gitlab keys + tally Resolved gitlab keys
  + tally Unresolved gitlab keys = length keys.
Proof.
  induction keys as [|key keys IH]; [done|].
  rewrite !tally_cons. cbn [length].
  destruct (branchOf gitlab key); repeat case_decide; try done; lia.
Qed.

Lemma compareStep_fold github gitlab keys rows c :
  (∀ key, key ∈ keys → is_Some (github !! key)) →
  foldl (compareStep github gitlab) (rows, c) keys
  = (rows ++ omap (rowFor github gitlab) keys,
     Counters (missing c + tally MissingOnRight gitlab keys)
       (archived c + tally Resolved gitlab keys)
       (not_archived c + tally Unresolved gitlab keys)
       (total_github c)).
Proof.
  revert rows c. induction keys as [|key keys IH]; intros rows c Hkeys.
  - cbn. rewrite app_nil_r, !Nat.add_0_r. by destruct c.
  - cbn [foldl omap list_omap]. rewrite !tally_cons.
    destruct (Hkeys key) as [ghRepo HghRepo]; [left|].
    assert (∀ k, k ∈ keys → is_Some (github !! k)) as Hrest.
    { intros k Hk. apply Hkeys. by right. }
    unfold Reconcile.compareStep at 2, ReconcileSpec.rowFor at 1.
    unfold ReconcileSpec.branchOf. rewrite HghRepo.
    destruct (gitlab !! key) as [glProject|].
    + destruct (isArchived toLowerCase glProject).
      * rewrite IH by done. cbn [missing archived not_archived total_github].
        repeat case_decide; try done. f_equal. f_equal; lia.
      * rewrite IH by done. cbn [missing archived not_archived total_github].
        repeat case_decide; try done.
        rewrite <- (assoc_L (++)). f_equal. f_equal; lia.
    + rewrite IH by done. cbn [missing archived not_archived total_github].
      repeat case_decide; try done. f_equal. f_equal; lia.
Qed.

Lemma compare_spec github gitlab :
  compare github gitlab
  = (omap (rowFor github gitlab) (sortedKeys github),
     Counters (tally MissingOnRight gitlab (sortedKeys github))
       (tally Resolved gitlab (sortedKeys github))
       (tally Unresolved gitlab (sortedKeys github))
       (length (sortedKeys github))).
Proof.
  unfold Reconcile.compare.
  rewrite compareStep_fold by (intros key; apply sortedKeys_elem).
  reflexivity.
Qed.

Lemma rowFor_length github gitlab keys :
  (∀ key, key ∈ keys → is_Some (github !! key)) →
  length (omap (rowFor github gitlab) keys) = tally Unresolved gitlab keys.
Proof.
  induction keys as [|key keys IH]; intros Hkeys; [done|].
  rewrite tally_cons. cbn [omap list_omap].
  destruct (Hkeys key) as [ghRepo HghRepo]; [left|].
  unfold ReconcileSpec.rowFor at 1, ReconcileSpec.branchOf. rewrite HghRepo.
  assert (length (omap (rowFor github gitlab) keys)
          = tally Unresolved gitlab keys) as Hlen.
  { apply IH. intros k Hk. apply Hkeys. by right. }
  destruct (gitlab !! key) as [glProject|].
  - destruct (isArchived toLowerCase glProject); case_decide; try done.
    cbn [length]. lia.
  - by case_decide.
Qed.

(** *** Order of the rows and independence of file order *)

Local Abbreviation rowKey := (ReconcileSpec.rowKey trim toLowerCase).

Lemma StronglySorted_filter {A} (R : relation A) (P : A → Prop)
    `{∀ x, Decision (P x)} l :
  StronglySorted R l → StronglySorted R (filter P l).
Proof.
  induction 1 as [|x l Hl IH Hx]; [constructor|].
  rewrite filter_cons. case_decide; [|done].
  constructor; [done|]. rewrite Forall_forall in Hx |- *.
  intros y [_ Hy]%list_elem_of_filter. by apply Hx.
Qed.

(** The keys of the rows are the unresolved keys, in the order iterated. *)
Lemma rowKeys_filter github gitlab keys :
  (∀ key, key ∈ keys → ∃ r, github !! key = Some r ∧ keyOf r = key) →
  map rowKey (omap (rowFor github gitlab) keys)
  = filter (fun key => branchOf gitlab key = Unresolved) keys.
Proof.
  induction keys as [|key keys IH]; intros Hkeys; [done|].
  rewrite filter_cons. cbn [omap list_omap].
  destruct (Hkeys key) as (ghRepo & HghRepo & Hkey); [left|].
  assert (map rowKey (omap (rowFor github gitlab) keys)
          = filter (fun key => branchOf gitlab key = Unresolved) keys) as Hrest.
  { apply IH. intros k Hk. apply Hkeys. by right. }
  unfold ReconcileSpec.rowFor at 1. rewrite HghRepo.
  destruct (decide (branchOf gitlab key = Unresolved)) as [Hb|Hb];
    unfold ReconcileSpec.branchOf in Hb;
    destruct (gitlab !! key) as [glProject|]; try done;
    destruct (isArchived toLowerCase glProject); try done.
  cbn [map]. by rewrite Hrest, <- Hkey.
Qed.

Lemma matching_keysOf key records :
  map keyOf (matching key records)
  = filter (fun k => k = key) (keysOf records).
Proof.
  unfold ReconcileSpec.matching, ReconcileSpec.keysOf.
  induction records as [|r records IH]; [done|].
  rewrite !filter_cons.
  destruct (decide (trimmedName r ≠ EmptyString)) as [Hname|Hname].
  - cbn [map]. rewrite filter_cons.
    destruct (decide (keyOf r = key)) as [Hk|Hk].
    + rewrite decide_True by done. cbn [map]. by rewrite IH.
    + rewrite decide_False by tauto. done.
  - rewrite decide_False by tauto. done.
Qed.

Lemma NoDup_filter_eq (key : string) keys :
  NoDup keys → length (filter (fun k => k = key) keys) ≤ 1.
Proof.
  induction 1 as [|k keys Hk _ IH]; [cbn; lia|].
  rewrite filter_cons. case_decide as Heq; [|done]. subst k.
  destruct (filter (fun k => k = key) keys) as [|k rest] eqn:Hf; [cbn; lia|].
  assert (k ∈ filter (fun k => k = key) keys) as Hin by (rewrite Hf; left).
  apply list_elem_of_filter in Hin as [-> Hin]. done.
Qed.

Lemma matching_unique key records :
  NoDup (keysOf records) → length (matching key records) ≤ 1.
Proof.
  intros Hnd. rewrite <- (length_map keyOf), matching_keysOf.
  by apply NoDup_filter_eq.
Qed.

(** Reordering a file without repeated keys changes neither whether the
    loader returns nor the mapping it returns. *)
Lemma loadRecords_permutation records records' :
  records ≡ₚ records' →
  NoDup (keysOf records) →
  canonical <$> loadRecords records = canonical <$> loadRecords records'.
Proof.
  intros Hperm Hnd.
  destruct (loadRecords records) as [report|] eqn:Hload.
  - destruct (loadRecords_Some _ _ Hload) as (Hok & _ & _).
    rewrite Hperm in Hok.
    destruct (loadRecords_returns records' Hok) as [report' Hload'].
    rewrite Hload'. cbn. f_equal. apply map_eq. intros key.
    rewrite (loadRecords_canonical _ _ _ Hload),
            (loadRecords_canonical _ _ _ Hload').
    assert (matching key records ≡ₚ matching key records') as Hm.
    { unfold ReconcileSpec.matching. by rewrite Hperm. }
    pose proof (matching_unique key records Hnd) as Hlen.
    destruct (matching key records) as [|x [|y rest]].
    + apply Permutation_nil_l in Hm. by rewrite <- Hm.
    + apply Permutation_singleton_l in Hm. by rewrite <- Hm.
    + cbn in Hlen. lia.
  - apply loadRecords_None in Hload. rewrite Hperm in Hload.
    apply loadRecords_None in Hload. by rewrite Hload.
Qed.

Lemma crossCheck_canonical github gitlab :
  ReconcileSpec.crossCheck trim toLowerCase github gitlab
  = match canonical <$> loadRecords github, canonical <$> loadRecords gitlab with
    | Some ghRepos, Some glProjects => Some (compare ghRepos glProjects)
    | _, _ => None
    end.
Proof.
  unfold ReconcileSpec.crossCheck.
  destruct (loadRecords github); [|done]. by destruct (loadRecords gitlab).
Qed.

Lemma trimmedName_spec (record : gmap string string) :
  trimmedName record = trim (default EmptyString (record !! "name")).
Proof.
  unfold Reconcile.trimmedName. f_equal.
  by destruct (record !! "name") as [[|c name]|].
Qed.

End with_builtins.

End ReconcileFacts.

(** * Properties of the staleness comparison *)

Module LastChangeFacts.
Import LastChange LastChangeSpec.

Section with_builtins.

Variable trim : string → string.
Variable toLowerCase : string → string.
Variable dateTime : string → option Z.

Local Abbreviation trimmedName := (Reconcile.trimmedName trim).
Local Abbreviation toDate := (LastChange.toDate dateTime).
Local Abbreviation indexStep := (LastChange.indexStep trim toLowerCase).
Local Abbreviation indexByName := (LastChange.indexByName trim toLowerCase).
Local Abbreviation compareStep :=
  (LastChange.compareStep trim toLowerCase dateTime).
Local Abbreviation compareLastChanges :=
  (LastChange.compareLastChanges trim toLowerCase dateTime).
Local Abbreviation joined := (LastChangeSpec.joined trim toLowerCase).

Local Abbreviation key r := (toLowerCase (trimmedName r)).

(** The index holds, under each key, the first record with that key, and
    nothing under the empty key or under the name of a member of
    [Object.prototype]. *)
Lemma indexStep_fold gitlabRecords k :
  foldl indexStep ∅ gitlabRecords !! k
  = head (filter (fun r => key r ≠ EmptyString ∧ key r = k ∧
                           Dict.inherited (key r) = false) gitlabRecords).
Proof.
  induction gitlabRecords as [|r records IH] using rev_ind; [done|].
  rewrite foldl_app, filter_app, filter_cons, filter_nil. cbn [foldl].
  unfold LastChange.indexStep at 1.
  destruct (String.eqb_spec (key r) EmptyString) as [Hempty|Hkey].
  { rewrite decide_False by tauto. by rewrite app_nil_r. }
  unfold Dict.get.
  destruct (foldl indexStep ∅ records !! key r) as [seen|] eqn:Hseen.
  - destruct (decide (key r = k)) as [<-|Hne].
    + rewrite Hseen in *. destruct (filter _ records); [done|].
      by case_decide.
    + rewrite decide_False by tauto. by rewrite app_nil_r.
  - destruct (Dict.inherited (key r)) eqn:Hin.
    + rewrite decide_False by (intros (_ & _ & ?); congruence).
      by rewrite app_nil_r.
    + destruct (decide (key r = k)) as [<-|Hne].
      * rewrite decide_True by done. rewrite lookup_insert_eq.
        rewrite Hseen in IH. by destruct (filter _ records).
      * rewrite decide_False by tauto. rewrite app_nil_r.
        by rewrite lookup_insert_ne.
Qed.

Lemma indexByName_elem gitlabRecords k project :
  indexByName gitlabRecords !! k = Some project →
  project ∈ gitlabRecords ∧ key project = k ∧ k ≠ EmptyString ∧
  Dict.inherited k = false.
Proof.
  unfold LastChange.indexByName. rewrite indexStep_fold.
  intros Hhead.
  assert (project ∈ filter (fun r => key r ≠ EmptyString ∧ key r = k ∧
                              Dict.inherited (key r) = false) gitlabRecords)
    as Hin.
  { destruct (filter _ gitlabRecords); [done|].
    injection Hhead as ->. left. }
  apply list_elem_of_filter in Hin as [(? & <- & ?) ?]. done.
Qed.

Lemma indexByName_is_Some gitlabRecords k :
  is_Some (indexByName gitlabRecords !! k) ↔
  k ≠ EmptyString ∧ Dict.inherited k = false ∧
  Exists (fun project => key project = k) gitlabRecords.
Proof.
  split.
  - intros [project (Hin & <- & ? & ?)%indexByName_elem].
    split_and!; try done. apply Exists_exists. by exists project.
  - intros (Hk & Hown & (project & Hin & <-)%Exists_exists).
    unfold LastChange.indexByName. rewrite indexStep_fold.
    assert (project ∈ filter (fun r => key r ≠ EmptyString ∧
                                key r = key project ∧
                                Dict.inherited (key r) = false) gitlabRecords)
      as Hfiltered by (by apply list_elem_of_filter).
    destruct (filter _ gitlabRecords); [by apply elem_of_nil in Hfiltered|].
    by eexists.
Qed.

Lemma countStatus_snoc tag results r :
  countStatus tag (results ++ [r])
  = countStatus tag results + (if decide (status r = tag) then 1 else 0).
Proof.
  unfold countStatus. rewrite filter_app, length_app. f_equal.
  rewrite filter_cons, filter_nil. by case_decide.
Qed.

(** The five outcomes are mutually exclusive and exhaustive. *)
Lemma Outcome_total githubDate gitlabDate :
  ∃ tag, Outcome githubDate gitlabDate tag.
Proof.
  destruct githubDate as [gh|], gitlabDate as [gl|]; try (eexists; by constructor).
  destruct (decide (gh < gl)%Z).
  - eexists. by apply gitlab_is_newer.
  - eexists. apply github_is_newer_or_equal. lia.
Qed.

Lemma Outcome_functional githubDate gitlabDate tag tag' :
  Outcome githubDate gitlabDate tag → Outcome githubDate gitlabDate tag' →
  tag = tag'.
Proof. destruct 1; inversion 1; subst; try done; lia. Qed.

Lemma Outcome_tag githubDate gitlabDate tag :
  Outcome githubDate gitlabDate tag → tag ∈ fiveTags.
Proof.
  destruct 1; unfold fiveTags; repeat first [by left | right].
Qed.

(** A record without a counterpart adds no result. *)
Lemma compareStep_unjoined gitlabByName results c repo :
  ¬ joined gitlabByName repo →
  ∃ c', compareStep gitlabByName (results, c) repo = (results, c') ∧
        compared c' = compared c ∧ gitlabNewer c' = gitlabNewer c ∧
        githubNewerOrEqual c' = githubNewerOrEqual c ∧ unknown c' = unknown c.
Proof.
  intros Hnot. unfold LastChange.compareStep.
  destruct (String.eqb_spec (trimmedName repo) EmptyString) as [Hempty|Hname].
  { by exists c. }
  destruct (Dict.properties
              (Dict.get gitlabByName (toLowerCase (trimmedName repo))))
    eqn:Hproject.
  { exfalso. apply Hnot. split; [done | by eexists]. }
  eexists. split; [reflexivity|]. done.
Qed.

(** A joined pair adds exactly one result, classified five ways, and
    bumps [compared] and one of three other counters. *)
Lemma compareStep_joined gitlabByName results c repo project :
  trimmedName repo ≠ EmptyString →
  Dict.properties (Dict.get gitlabByName (toLowerCase (trimmedName repo)))
  = Some project →
  ∃ r c',
    compareStep gitlabByName (results, c) repo = (results ++ [r], c') ∧
    name r = trimmedName repo ∧
    Outcome (toDate (getGithubTimestamp repo))
      (toDate (pickGitlabTimestamp project)) (status r) ∧
    compared c' = compared c + 1 ∧
    missingInGitLab c' = missingInGitLab c ∧
    unknown c'
    = unknown c + (if decide (status r = "unknown_timestamps") then 1 else 0) ∧
    gitlabNewer c'
    = gitlabNewer c
      + (if decide (status r = "gitlab_has_timestamp_only") then 1 else 0)
      + (if decide (status r = "gitlab_newer") then 1 else 0) ∧
    githubNewerOrEqual c'
    = githubNewerOrEqual c
      + (if decide (status r = "github_has_timestamp_only") then 1 else 0)
      + (if decide (status r = "github_newer_or_equal") then 1 else 0).
Proof.
  intros Hname Hproject. unfold LastChange.compareStep.
  apply String.eqb_neq in Hname. rewrite Hname, Hproject.
  destruct (toDate (getGithubTimestamp repo)) as [gh|],
           (toDate (pickGitlabTimestamp project)) as [gl|].
  - destruct (Z.ltb_spec gh gl).
    + eexists _, _. split; [reflexivity|]. cbn.
      split_and!; try done; try (by constructor);
        repeat case_decide; try done; lia.
    + eexists _, _. split; [reflexivity|]. cbn.
      split_and!; try done; try (by constructor);
        repeat case_decide; try done; lia.
  - eexists _, _. split; [reflexivity|]. cbn.
    split_and!; try done; try (by constructor);
      repeat case_decide; try done; lia.
  - eexists _, _. split; [reflexivity|]. cbn.
    split_and!; try done; try (by constructor);
      repeat case_decide; try done; lia.
  - eexists _, _. split; [reflexivity|]. cbn.
    split_and!; try done; try (by constructor);
      repeat case_decide; try done; lia.
Qed.

Local Abbreviation resultOfPair :=
  (LastChangeSpec.resultOfPair trim toLowerCase dateTime).
Local Abbreviation counterpart := (LastChangeSpec.counterpart trim toLowerCase).
Local Abbreviation plainlyNamed := (LastChangeSpec.plainlyNamed trim toLowerCase).

(** What holds of the results and counters after the second loop: every
    result is classified by the dates of a GitHub record and of what the
    lookup found for it. *)
Lemma compareLastChanges_inv githubRecords gitlabRecords :
  let run := compareLastChanges githubRecords gitlabRecords in
  compared run.2 = length run.1 ∧
  unknown run.2 = countStatus "unknown_timestamps" run.1 ∧
  gitlabNewer run.2
  = countStatus "gitlab_has_timestamp_only" run.1
    + countStatus "gitlab_newer" run.1 ∧
  githubNewerOrEqual run.2
  = countStatus "github_has_timestamp_only" run.1
    + countStatus "github_newer_or_equal" run.1 ∧
  map name run.1
  = map trimmedName (filter (joined (indexByName gitlabRecords)) githubRecords) ∧
  Forall (fun r => ∃ repo project,
            repo ∈ githubRecords ∧ name r = trimmedName repo ∧
            Dict.properties (Dict.get (indexByName gitlabRecords) (key repo))
            = Some project ∧
            Outcome (toDate (getGithubTimestamp repo))
              (toDate (pickGitlabTimestamp project)) (status r)) run.1.
Proof.
  unfold LastChange.compareLastChanges. cbn zeta.
  set (idx := indexByName gitlabRecords).
  assert (∀ processed,
    let run := foldl (compareStep idx) ([], Counters 0 0 0 0 0) processed in
    compared run.2 = length run.1 ∧
    unknown run.2 = countStatus "unknown_timestamps" run.1 ∧
    gitlabNewer run.2
    = countStatus "gitlab_has_timestamp_only" run.1
      + countStatus "gitlab_newer" run.1 ∧
    githubNewerOrEqual run.2
    = countStatus "github_has_timestamp_only" run.1
      + countStatus "github_newer_or_equal" run.1 ∧
    map name run.1 = map trimmedName (filter (joined idx) processed) ∧
    Forall (fun r => ∃ repo project,
              repo ∈ processed ∧ name r = trimmedName repo ∧
              Dict.properties (Dict.get idx (key repo)) = Some project ∧
              Outcome (toDate (getGithubTimestamp repo))
                (toDate (pickGitlabTimestamp project)) (status r)) run.1)
    as Hinv; [|apply Hinv].
  induction processed as [|repo processed IH] using rev_ind.
  - cbn. split_and!; done.
  - cbn zeta in *. rewrite foldl_app. cbn [foldl].
    destruct (foldl (compareStep idx) ([], Counters 0 0 0 0 0) processed)
      as [results c].
    cbn [fst snd] in IH. destruct IH as (Hc & Hu & Hgl & Hgh & Hnames & Hall).
    assert (Forall (fun r => ∃ repo' project,
              repo' ∈ processed ++ [repo] ∧ name r = trimmedName repo' ∧
              Dict.properties (Dict.get idx (key repo')) = Some project ∧
              Outcome (toDate (getGithubTimestamp repo'))
                (toDate (pickGitlabTimestamp project)) (status r)) results)
      as Hall'.
    { eapply Forall_impl; [exact Hall|].
      intros r (repo' & project & ? & ? & ? & ?).
      exists repo', project. split_and!; try done. apply elem_of_app. by left. }
    rewrite filter_app, filter_cons, filter_nil.
    destruct (decide (joined idx repo)) as [[Hname [project Hproject]]|Hnot].
    + destruct (compareStep_joined idx results c repo project Hname Hproject)
        as (r & c' & -> & Hr & Hout & Hc' & _ & Hu' & Hgl' & Hgh').
      cbn [fst snd]. rewrite !countStatus_snoc, length_app, !map_app.
      cbn [length map]. split_and!; try lia.
      * by rewrite Hnames, Hr.
      * apply Forall_app. split; [done|]. constructor; [|constructor].
        exists repo, project. split_and!; try done.
        apply elem_of_app. right. by left.
    + destruct (compareStep_unjoined idx results c repo Hnot) as (c' & -> & Hc' & Hgl' & Hgh' & Hu').
      cbn [fst snd]. rewrite app_nil_r. split_and!; try done; lia.
Qed.

(** For a record whose key is not inherited, the lookup finds something
    exactly when the record has a counterpart. *)
Lemma joined_counterpart gitlabRecords repo :
  plainlyNamed repo →
  joined (indexByName gitlabRecords) repo ↔ counterpart gitlabRecords repo.
Proof.
  intros Hplain. unfold LastChangeSpec.joined, LastChangeSpec.counterpart.
  rewrite DictFacts.get_own by done.
  assert (is_Some (Dict.properties
            match indexByName gitlabRecords !! key repo with
            | Some value => Dict.Own value
            | None => Dict.Missing
            end) ↔ is_Some (indexByName gitlabRecords !! key repo)) as ->.
  { destruct (indexByName gitlabRecords !! key repo); cbn; split;
      intros [? ?]; by eauto. }
  rewrite indexByName_is_Some. split.
  - intros (Hname & Hk & _ & Hex). split; [done|].
    eapply Exists_impl; [exact Hex|]. intros project Hp. cbn in Hp.
    split; congruence.
  - intros (Hname & Hex). split; [done|].
    apply Exists_exists in Hex as (project & Hin & Hne & Heq).
    split_and!; [congruence | done |].
    apply Exists_exists. by exists project.
Qed.

(** The index never holds the name of a member of [Object.prototype], so
    a lookup under such a name finds the member. *)
Lemma indexByName_member gitlabRecords k :
  Dict.inherited k = true →
  Dict.get (indexByName gitlabRecords) k = Dict.Member.
Proof.
  intros Hk. apply DictFacts.get_member; [done|].
  destruct (indexByName gitlabRecords !! k) as [project|] eqn:Hproject;
    [|done].
  apply indexByName_elem in Hproject as (_ & _ & _ & ?). congruence.
Qed.

(** The lookup finds something for a record with a counterpart and for a
    record whose key is the name of a member of [Object.prototype]. *)
Lemma joined_spec gitlabRecords repo :
  joined (indexByName gitlabRecords) repo ↔
  trimmedName repo ≠ EmptyString ∧
  (Dict.inherited (key repo) = true ∨ counterpart gitlabRecords repo).
Proof.
  destruct (Dict.inherited (key repo)) eqn:Hk.
  - unfold LastChangeSpec.joined. rewrite indexByName_member by done.
    cbn [Dict.properties]. split; [intros [? _]; by auto|].
    intros [? _]. split; [done | by eexists].
  - rewrite joined_counterpart by done. split.
    + intros Hc. split; [by destruct Hc | by right].
    + by intros [_ [?|?]].
Qed.

Lemma countStatus_cons tag r results :
  countStatus tag (r :: results)
  = (if decide (status r = tag) then 1 else 0) + countStatus tag results.
Proof. unfold countStatus. rewrite filter_cons. by case_decide. Qed.

(** Results with one of the five statuses are partitioned by status. *)
Lemma countStatus_partition results :
  Forall (fun r => status r ∈ fiveTags) results →
  countStatus "unknown_timestamps" results
  + countStatus "gitlab_has_timestamp_only" results
  + countStatus "github_has_timestamp_only" results
  + countStatus "gitlab_newer" results
  + countStatus "github_newer_or_equal" results
  = length results.
Proof.
  induction 1 as [|r results Hr _ IH]; [done|].
  rewrite !countStatus_cons. cbn [length]. unfold fiveTags in Hr.
  repeat (apply elem_of_cons in Hr as [-> | Hr];
          [repeat case_decide; try done; lia|]).
  by apply elem_of_nil in Hr.
Qed.

End with_builtins.

End LastChangeFacts.

(** * Properties of the detail-fetch pool *)

Module PoolFacts.
Import Pool PoolSpec.

(** *** Workers suspended on an item *)

Lemma awaited_insert ws w old new i :
  ws !! w = Some old →
  awaited (<[w := new]> ws) i
  ↔ new = Awaiting i ∨ ∃ w', w' ≠ w ∧ ws !! w' = Some (Awaiting i).
Proof.
  intros Hw. unfold awaited. split.
  - intros [w' Hw'].
    apply list_lookup_insert_Some in Hw' as [(-> & ? & ?) | (? & ?)]; eauto.
  - intros [-> | (w' & ? & ?)].
    + exists w. apply list_lookup_insert_eq. by eapply lookup_lt_Some.
    + exists w'. by rewrite list_lookup_insert_ne.
Qed.

Lemma awaited_from_claiming ws w new i :
  ws !! w = Some Claiming →
  awaited (<[w := new]> ws) i ↔ new = Awaiting i ∨ awaited ws i.
Proof.
  intros Hw. rewrite (awaited_insert ws w Claiming) by done. split.
  - intros [? | (w' & _ & ?)]; [by left | right; by exists w'].
  - intros [? | [w' Hw']]; [by left | right]. exists w'. split; [|done].
    intros ->. congruence.
Qed.

Lemma awaited_released ws w i j :
  ws !! w = Some (Awaiting i) →
  (∀ w', ws !! w' = Some (Awaiting i) → w' = w) →
  awaited (<[w := Claiming]> ws) j ↔ j ≠ i ∧ awaited ws j.
Proof.
  intros Hw Hexcl. rewrite (awaited_insert ws w (Awaiting i)) by done. split.
  - intros [? | (w' & Hne & Hw')]; [done|]. split; [|by exists w'].
    intros ->. by apply Hne, Hexcl.
  - intros [Hne [w' Hw']]. right. exists w'. split; [|done].
    intros ->. congruence.
Qed.

Lemma insert_not_nil (ws : list worker) w old new :
  ws !! w = Some old → <[w := new]> ws ≠ [].
Proof.
  intros Hw Hnil. apply (f_equal length) in Hnil.
  rewrite length_insert in Hnil. apply lookup_lt_Some in Hw. cbn in Hnil. lia.
Qed.

Lemma elem_of_insert_worker (ws : list worker) w old new x :
  ws !! w = Some old → x ∈ <[w := new]> ws → x = new ∨ x ∈ ws.
Proof.
  intros Hw [w' Hw']%list_elem_of_lookup.
  apply list_lookup_insert_Some in Hw' as [(_ & ? & _) | (_ & ?)].
  - by left.
  - right. by eapply list_elem_of_lookup_2.
Qed.

(** *** Requests and warnings of a trace *)

Lemma requests_app t t' : requests (t ++ t') = requests t ++ requests t'.
Proof. unfold requests. apply omap_app. Qed.

Lemma warnings_app t t' : warnings (t ++ t') = warnings t ++ warnings t'.
Proof. unfold warnings. apply omap_app. Qed.

Lemma requests_progress n total : requests (progressLine n total) = [].
Proof. unfold progressLine. by destruct (_ || _). Qed.

Lemma warnings_progress n total : warnings (progressLine n total) = [].
Proof. unfold progressLine. by destruct (_ || _). Qed.

Section with_fetch.

Variable fetchProjectDetail : Z → response.

Local Abbreviation settled := (PoolSpec.settled fetchProjectDetail).
Local Abbreviation warningOf := (PoolSpec.warningOf fetchProjectDetail).
Local Abbreviation invariant := (PoolSpec.invariant fetchProjectDetail).
Local Abbreviation stepWorker := (Pool.stepWorker fetchProjectDetail).
Local Abbreviation runSchedule := (Pool.runSchedule fetchProjectDetail).

(** *** The invariant holds at the start *)

Lemma concurrency_pos parsed : (1 ≤ concurrency parsed)%Z.
Proof.
  unfold concurrency. destruct parsed as [n|]; [|lia].
  destruct (Z.ltb_spec n 1); lia.
Qed.

Lemma workerCount_zero parsed ps : workerCount parsed ps = 0 → ps = [].
Proof.
  unfold workerCount. pose proof (concurrency_pos parsed).
  destruct ps; [done|]. cbn [length]. lia.
Qed.

Lemma invariant_start parsed ps : invariant ps (start parsed ps) [].
Proof.
  unfold start.
  assert (∀ i, ¬ awaited (replicate (workerCount parsed ps) Claiming) i)
    as Hnone.
  { intros i [w Hw]. apply lookup_replicate in Hw as [? _]. done. }
  split; cbn [projects index fetched workers trace].
  - done.
  - done.
  - intros. lia.
  - intros i Hi. by apply Hnone in Hi.
  - intros w w' i Hw. apply lookup_replicate in Hw as [? _]. done.
  - intros Hin. apply elem_of_replicate in Hin as [? _]. done.
  - intros Hnil. apply (f_equal length) in Hnil.
    rewrite length_replicate in Hnil. by eapply workerCount_zero.
  - by rewrite take_0.
  - constructor.
  - intros i. split; [by intros ?%elem_of_nil | lia].
  - done.
  - done.
Qed.

(** *** Each kind of step keeps the invariant *)

(** A claim past the last item: the worker returns. *)
Lemma invariant_return ps st finishedFetches w :
  invariant ps st finishedFetches →
  workers st !! w = Some Claiming →
  projects st !! index st = None →
  invariant ps
    (Pool (projects st) (index st + 1) (fetched st)
       (<[w := Returned]> (workers st)) (trace st))
    finishedFetches.
Proof.
  intros [Hlen Hpend Hset Hawd Hexcl Hret Hwk Hreq Hnd Hdone Hwarn Hfet] Hw Hnone.
  assert (length ps ≤ index st) as Hpast.
  { apply lookup_ge_None in Hnone. lia. }
  assert (∀ i, awaited (<[w := Returned]> (workers st)) i
               ↔ awaited (workers st) i) as Haw.
  { intros i. rewrite awaited_from_claiming by done.
    split; [by intros [?|?] | by right]. }
  split; cbn [projects index fetched workers trace]; try done.
  - intros i p Hp [Hi | Hi%Haw]; apply Hpend; auto with lia.
  - intros i p Hp _ Hi. apply Hset; [done| |by rewrite <- Haw].
    apply lookup_lt_Some in Hp. lia.
  - intros i Hi%Haw. destruct (Hawd i Hi) as [? ?]. split; [lia|done].
  - intros w1 w2 i Hw1 Hw2.
    apply list_lookup_insert_Some in Hw1 as [(_ & ? & _) | (_ & Hw1)]; [done|].
    apply list_lookup_insert_Some in Hw2 as [(_ & ? & _) | (_ & Hw2)]; [done|].
    by eapply Hexcl.
  - intros _. lia.
  - intros Hnil. by eapply insert_not_nil in Hnil.
  - rewrite Hreq. by rewrite !take_ge by lia.
  - intros i. rewrite Hdone, Haw. split.
    + intros (? & ? & ?). split_and!; [lia|done..].
    + intros (_ & ? & p & Hp & ?). split_and!; [|done|by exists p].
      apply lookup_lt_Some in Hp. lia.
Qed.

(** A claim of an item that has the field: the worker goes on. *)
Lemma invariant_skip ps st finishedFetches w p :
  invariant ps st finishedFetches →
  workers st !! w = Some Claiming →
  projects st !! index st = Some p →
  needsDetail p = false →
  invariant ps
    (Pool (projects st) (index st + 1) (fetched st) (workers st) (trace st))
    finishedFetches.
Proof.
  intros [Hlen Hpend Hset Hawd Hexcl Hret Hwk Hreq Hnd Hdone Hwarn Hfet]
    Hw Hp Hneeds.
  assert (ps !! index st = Some p) as Hp0.
  { destruct (ps !! index st) as [p0|] eqn:Hp0.
    - rewrite (Hpend _ _ Hp0) in Hp by (left; lia). done.
    - apply lookup_ge_None in Hp0. apply lookup_lt_Some in Hp. lia. }
  split; cbn [projects index fetched workers trace]; try done.
  - intros i q Hq [Hi | Hi]; apply (Hpend i q); auto with lia.
  - intros i q Hq Hi Hnaw. destruct (decide (i = index st)) as [->|Hne].
    + rewrite Hp0 in Hq. injection Hq as <-.
      unfold PoolSpec.settled. by rewrite Hneeds.
    + apply Hset; [done|lia|done].
  - intros i Hi. destruct (Hawd i Hi) as [? ?]. split; [lia|done].
  - intros Hin. specialize (Hret Hin). apply lookup_lt_Some in Hp0. lia.
  - rewrite Nat.add_1_r, Hreq, (take_S_r _ _ _ Hp0), filter_app, filter_cons,
      filter_nil.
    rewrite decide_False by congruence. by rewrite app_nil_r.
  - intros i. rewrite Hdone. split.
    + intros (? & ? & ?). split_and!; [lia|done..].
    + intros (Hi & ? & q & Hq & ?). split_and!; [|done|by exists q].
      destruct (decide (i = index st)) as [->|Hne]; [congruence|lia].
Qed.

(** A claim of an item that lacks the field: the fetch is issued. *)
Lemma invariant_request ps st finishedFetches w p :
  invariant ps st finishedFetches →
  workers st !! w = Some Claiming →
  projects st !! index st = Some p →
  needsDetail p = true →
  invariant ps
    (Pool (projects st) (index st + 1) (fetched st)
       (<[w := Awaiting (index st)]> (workers st))
       (trace st ++ [Request (id p)]))
    finishedFetches.
Proof.
  intros [Hlen Hpend Hset Hawd Hexcl Hret Hwk Hreq Hnd Hdone Hwarn Hfet]
    Hw Hp Hneeds.
  assert (ps !! index st = Some p) as Hp0.
  { destruct (ps !! index st) as [p0|] eqn:Hp0.
    - rewrite (Hpend _ _ Hp0) in Hp by (left; lia). done.
    - apply lookup_ge_None in Hp0. apply lookup_lt_Some in Hp. lia. }
  assert (∀ i, awaited (<[w := Awaiting (index st)]> (workers st)) i
               ↔ i = index st ∨ awaited (workers st) i) as Haw.
  { intros i. rewrite awaited_from_claiming by done.
    split; (intros [?|?]; [left; congruence | by right]). }
  split; cbn [projects index fetched workers trace]; try done.
  - intros i q Hq [Hi | [-> | Hi]%Haw]; apply (Hpend _ q); auto with lia.
  - intros i q Hq Hi Hnaw. apply Hset; [done| |].
    + destruct (decide (i = index st)) as [->|Hne]; [|lia].
      exfalso. apply Hnaw, Haw. by left.
    + intros Hi'. apply Hnaw, Haw. by right.
  - intros i [-> | Hi]%Haw.
    + split; [lia|]. by exists p.
    + destruct (Hawd i Hi) as [? ?]. split; [lia|done].
  - intros w1 w2 i Hw1 Hw2.
    apply list_lookup_insert_Some in Hw1 as [(<- & Hi1 & _) | (Hne1 & Hw1)];
      apply list_lookup_insert_Some in Hw2 as [(<- & Hi2 & _) | (Hne2 & Hw2)].
    + done.
    + injection Hi1 as <-.
      destruct (Hawd (index st)) as [? _]; [by exists w2 | lia].
    + injection Hi2 as <-.
      destruct (Hawd (index st)) as [? _]; [by exists w1 | lia].
    + by eapply Hexcl.
  - intros [? | Hin]%(elem_of_insert_worker _ _ Claiming); [done | |done].
    specialize (Hret Hin). apply lookup_lt_Some in Hp0. lia.
  - intros Hnil. by eapply insert_not_nil in Hnil.
  - rewrite Nat.add_1_r, requests_app, Hreq, (take_S_r _ _ _ Hp0), filter_app,
      filter_cons, filter_nil.
    rewrite decide_True by done. by rewrite map_app.
  - intros i. rewrite Hdone, Haw. split.
    + intros (Hi & Hnaw & ?). split_and!; [lia| |done].
      intros [-> | ?]; [lia | done].
    + intros (Hi & Hnaw & q & Hq & ?). split_and!; [| |by exists q].
      * destruct (decide (i = index st)) as [->|Hne]; [|lia].
        exfalso. apply Hnaw. by left.
      * intros ?. apply Hnaw. by right.
  - by rewrite warnings_app, app_nil_r.
Qed.

(** What is known of an item a worker is suspended on. *)
Lemma invariant_awaiting ps st finishedFetches w i p :
  invariant ps st finishedFetches →
  workers st !! w = Some (Awaiting i) →
  projects st !! i = Some p →
  ps !! i = Some p ∧ needsDetail p = true ∧ i < index st ∧
  i < length (projects st) ∧ (i ∉ finishedFetches) ∧
  (∀ j, awaited (<[w := Claiming]> (workers st)) j
        ↔ j ≠ i ∧ awaited (workers st) j).
Proof.
  intros [Hlen Hpend Hset Hawd Hexcl Hret Hwk Hreq Hnd Hdone Hwarn Hfet] Hw Hp.
  assert (awaited (workers st) i) as Hi by (by exists w).
  destruct (Hawd i Hi) as (Hlt & p0 & Hp0 & Hneeds).
  rewrite (Hpend _ _ Hp0) in Hp by (by right). injection Hp as <-.
  split_and!; try done.
  - rewrite Hlen. by eapply lookup_lt_Some.
  - rewrite Hdone. tauto.
  - intros j. apply awaited_released; [done|].
    intros w' Hw'. by eapply Hexcl.
Qed.

(** The fetch resolves: the item is enriched. *)
Lemma invariant_resolve ps st finishedFetches w i p lru la :
  invariant ps st finishedFetches →
  workers st !! w = Some (Awaiting i) →
  projects st !! i = Some p →
  fetchProjectDetail (id p) = Detail lru la →
  invariant ps
    (Pool (<[i := enrich p lru la]> (projects st)) (index st) (fetched st + 1)
       (<[w := Claiming]> (workers st))
       (trace st ++ progressLine (fetched st + 1) (length (projects st))))
    (finishedFetches ++ [i]).
Proof.
  intros Hinv Hw Hp Hfetch.
  destruct (invariant_awaiting _ _ _ _ _ _ Hinv Hw Hp)
    as (Hp0 & Hneeds & Hlt & Hlt' & Hfresh & Haw).
  destruct Hinv
    as [Hlen Hpend Hset Hawd Hexcl Hret Hwk Hreq Hnd Hdone Hwarn Hfet].
  split; cbn [projects index fetched workers trace].
  - by rewrite length_insert.
  - intros j q Hq Hj.
    assert (j ≠ i) as Hne by (destruct Hj as [?|[? _]%Haw]; [lia|done]).
    rewrite list_lookup_insert_ne by done. apply Hpend; [done|].
    destruct Hj as [?|[_ ?]%Haw]; [by left | by right].
  - intros j q Hq Hj Hnaw. destruct (decide (j = i)) as [->|Hne].
    + rewrite list_lookup_insert_eq by done.
      rewrite Hp0 in Hq. injection Hq as <-.
      unfold PoolSpec.settled. by rewrite Hneeds, Hfetch.
    + rewrite list_lookup_insert_ne by done. apply Hset; [done..|].
      intros Hj'. apply Hnaw, Haw. done.
  - intros j [_ Hj]%Haw. by apply Hawd.
  - intros w1 w2 j Hw1 Hw2.
    apply list_lookup_insert_Some in Hw1 as [(_ & ? & _) | (_ & Hw1)]; [done|].
    apply list_lookup_insert_Some in Hw2 as [(_ & ? & _) | (_ & Hw2)]; [done|].
    by eapply Hexcl.
  - intros [? | Hin]%(elem_of_insert_worker _ _ (Awaiting i)); [done|auto|done].
  - intros Hnil. by eapply insert_not_nil in Hnil.
  - by rewrite requests_app, requests_progress, app_nil_r.
  - apply NoDup_app. split_and!; [done| |apply NoDup_singleton].
    intros j Hj ->%list_elem_of_singleton. done.
  - intros j. rewrite elem_of_app, list_elem_of_singleton, Hdone, Haw. split.
    + intros [(? & ? & ?) | ->].
      * split_and!; [done| |done]. tauto.
      * split_and!; [done| |by exists p]. tauto.
    + intros (? & Hnaw & ?). destruct (decide (j = i)) as [->|Hne]; [by right|].
      left. split_and!; [done| |done]. intros ?. by apply Hnaw.
  - rewrite warnings_app, warnings_progress, app_nil_r, omap_app, Hwarn.
    cbn [omap list_omap]. rewrite Hp0. cbn [mbind option_bind].
    unfold PoolSpec.warningOf. by rewrite Hneeds, Hfetch, app_nil_r.
  - rewrite length_app. cbn [length]. lia.
Qed.

(** The fetch rejects: a warning is printed and the item is left alone. *)
Lemma invariant_reject ps st finishedFetches w i p message :
  invariant ps st finishedFetches →
  workers st !! w = Some (Awaiting i) →
  projects st !! i = Some p →
  fetchProjectDetail (id p) = Failure message →
  invariant ps
    (Pool (projects st) (index st) (fetched st + 1)
       (<[w := Claiming]> (workers st))
       (trace st ++ [Warning (id p) message]
          ++ progressLine (fetched st + 1) (length (projects st))))
    (finishedFetches ++ [i]).
Proof.
  intros Hinv Hw Hp Hfetch.
  destruct (invariant_awaiting _ _ _ _ _ _ Hinv Hw Hp)
    as (Hp0 & Hneeds & Hlt & Hlt' & Hfresh & Haw).
  destruct Hinv
    as [Hlen Hpend Hset Hawd Hexcl Hret Hwk Hreq Hnd Hdone Hwarn Hfet].
  split; cbn [projects index fetched workers trace].
  - done.
  - intros j q Hq Hj. apply Hpend; [done|].
    destruct Hj as [?|[_ ?]%Haw]; [by left | by right].
  - intros j q Hq Hj Hnaw. destruct (decide (j = i)) as [->|Hne].
    + rewrite Hp0 in Hq. injection Hq as <-. rewrite Hp.
      unfold PoolSpec.settled. by rewrite Hneeds, Hfetch.
    + apply Hset; [done..|]. intros Hj'. apply Hnaw, Haw. done.
  - intros j [_ Hj]%Haw. by apply Hawd.
  - intros w1 w2 j Hw1 Hw2.
    apply list_lookup_insert_Some in Hw1 as [(_ & ? & _) | (_ & Hw1)]; [done|].
    apply list_lookup_insert_Some in Hw2 as [(_ & ? & _) | (_ & Hw2)]; [done|].
    by eapply Hexcl.
  - intros [? | Hin]%(elem_of_insert_worker _ _ (Awaiting i)); [done|auto|done].
  - intros Hnil. by eapply insert_not_nil in Hnil.
  - rewrite !requests_app, requests_progress. cbn. by rewrite app_nil_r.
  - apply NoDup_app. split_and!; [done| |apply NoDup_singleton].
    intros j Hj ->%list_elem_of_singleton. done.
  - intros j. rewrite elem_of_app, list_elem_of_singleton, Hdone, Haw. split.
    + intros [(? & ? & ?) | ->].
      * split_and!; [done| |done]. tauto.
      * split_and!; [done| |by exists p]. tauto.
    + intros (? & Hnaw & ?). destruct (decide (j = i)) as [->|Hne]; [by right|].
      left. split_and!; [done| |done]. intros ?. by apply Hnaw.
  - rewrite !warnings_app, warnings_progress, omap_app, Hwarn.
    cbn [omap list_omap]. rewrite Hp0. cbn [mbind option_bind].
    unfold PoolSpec.warningOf. rewrite Hneeds, Hfetch. reflexivity.
  - rewrite length_app. cbn [length]. lia.
Qed.

(** Every step keeps the invariant. *)
Lemma invariant_step ps st finishedFetches w st' :
  invariant ps st finishedFetches →
  stepWorker w st = Some st' →
  ∃ finishedFetches', invariant ps st' finishedFetches'.
Proof.
  intros Hinv. unfold Pool.stepWorker.
  destruct (workers st !! w) as [[|i|]|] eqn:Hw; try done.
  - destruct (projects st !! index st) as [p|] eqn:Hp.
    + destruct (truthy (last_repository_updated_at p)) eqn:Hfield;
        intros [= <-]; exists finishedFetches.
      * eapply invariant_skip; [done..|]. unfold needsDetail. by rewrite Hfield.
      * eapply invariant_request; [done..|]. unfold needsDetail. by rewrite Hfield.
    + intros [= <-]. exists finishedFetches. by apply invariant_return.
  - destruct (projects st !! i) as [p|] eqn:Hp; [|done].
    destruct (fetchProjectDetail (id p)) as [lru la|message] eqn:Hfetch;
      intros [= <-]; exists (finishedFetches ++ [i]).
    + by apply invariant_resolve.
    + by apply invariant_reject.
Qed.

Lemma invariant_run schedule ps st finishedFetches st' :
  invariant ps st finishedFetches →
  runSchedule schedule st = Some st' →
  ∃ finishedFetches', invariant ps st' finishedFetches'.
Proof.
  revert st finishedFetches.
  induction schedule as [|w schedule IH]; intros st finishedFetches Hinv.
  - intros [= <-]. by exists finishedFetches.
  - cbn [Pool.runSchedule]. destruct (stepWorker w st) as [st1|] eqn:Hstep; [|done].
    destruct (invariant_step _ _ _ _ _ Hinv Hstep) as [done1 Hinv1].
    by apply (IH st1 done1).
Qed.

(** *** The pool always returns *)

Lemma weight_insert ws w old new :
  ws !! w = Some old →
  sum_list (map weight (<[w := new]> ws)) + weight old
  = sum_list (map weight ws) + weight new.
Proof.
  revert w. induction ws as [|x ws IH]; intros [|w] Hw; try done.
  - injection Hw as ->. simpl. lia.
  - specialize (IH w Hw). simpl in *. lia.
Qed.

Lemma step_measure w st st' :
  stepWorker w st = Some st' → measure st' < measure st.
Proof.
  unfold Pool.stepWorker, measure.
  destruct (workers st !! w) as [[|i|]|] eqn:Hw; try done.
  - destruct (projects st !! index st) as [p|] eqn:Hp.
    + apply lookup_lt_Some in Hp.
      destruct (truthy (last_repository_updated_at p)); intros [= <-];
        cbn [projects index workers].
      * lia.
      * pose proof (weight_insert _ _ _ (Awaiting (index st)) Hw) as Hsum.
        cbn [weight] in Hsum. lia.
    + apply lookup_ge_None in Hp. intros [= <-]. cbn [projects index workers].
      pose proof (weight_insert _ _ _ Returned Hw) as Hsum.
      cbn [weight] in Hsum. lia.
  - destruct (projects st !! i) as [p|] eqn:Hp; [|done].
    pose proof (weight_insert _ _ _ Claiming Hw) as Hsum. cbn [weight] in Hsum.
    destruct (fetchProjectDetail (id p)); intros [= <-];
      cbn [projects index workers]; rewrite ?length_insert; lia.
Qed.

(** No schedule runs for more steps than the measure of its first state. *)
Lemma run_bounded schedule st st' :
  runSchedule schedule st = Some st' →
  length schedule + measure st' ≤ measure st.
Proof.
  revert st. induction schedule as [|w schedule IH]; intros st.
  - intros [= <-]. cbn. lia.
  - cbn [Pool.runSchedule length].
    destruct (stepWorker w st) as [st1|] eqn:Hstep; [|done].
    intros Hrun. apply IH in Hrun. apply step_measure in Hstep. lia.
Qed.

Lemma unfinished_worker (ws : list worker) :
  Forall (fun w => w = Returned) ws ∨
  ∃ w x, ws !! w = Some x ∧ x ≠ Returned.
Proof.
  induction ws as [|x ws [IH | (w & y & Hw & Hy)]].
  - left. constructor.
  - destruct (decide (x = Returned)) as [->|Hx].
    + left. by constructor.
    + right. by exists 0, x.
  - right. by exists (S w), y.
Qed.

(** A pool that has not finished can take a step. *)
Lemma invariant_progress ps st finishedFetches :
  invariant ps st finishedFetches →
  finished st ∨ ∃ w st', stepWorker w st = Some st'.
Proof.
  intros Hinv. destruct (unfinished_worker (workers st))
    as [Hall | (w & x & Hw & Hx)]; [by left | right].
  exists w. unfold Pool.stepWorker. rewrite Hw.
  destruct x as [|i|]; [| |done].
  - destruct (projects st !! index st) as [p|]; [|by eexists].
    destruct (truthy (last_repository_updated_at p)); by eexists.
  - destruct Hinv as [_ Hpend _ Hawd _ _ _ _ _ _ _ _].
    destruct (Hawd i) as (_ & p & Hp & _); [by exists w|].
    rewrite (Hpend i p Hp) by (right; by exists w).
    destruct (fetchProjectDetail (id p)); by eexists.
Qed.

(** From every state the pool reaches, some schedule lets it finish. *)
Lemma invariant_completes ps st finishedFetches :
  invariant ps st finishedFetches →
  ∃ schedule st', runSchedule schedule st = Some st' ∧ finished st'.
Proof.
  remember (measure st) as n eqn:Hn. revert st finishedFetches Hn.
  induction n as [n IH] using lt_wf_ind. intros st finishedFetches -> Hinv.
  destruct (invariant_progress _ _ _ Hinv) as [Hfin | (w & st1 & Hstep)].
  - by exists [], st.
  - destruct (invariant_step _ _ _ _ _ Hinv Hstep) as [done1 Hinv1].
    destruct (IH (measure st1) (step_measure _ _ _ Hstep) st1 done1 eq_refl Hinv1)
      as (schedule & st' & Hrun & Hfin).
    exists (w :: schedule), st'. split; [|done].
    cbn [Pool.runSchedule]. by rewrite Hstep.
Qed.

(** *** The state in which the pool returns *)

Lemma invariant_finished ps st finishedFetches :
  invariant ps st finishedFetches →
  finished st →
  projects st = map settled ps ∧
  requests (trace st) = map id (filter (fun p => needsDetail p = true) ps) ∧
  (∀ i, i ∈ finishedFetches ↔ ∃ p, ps !! i = Some p ∧ needsDetail p = true).
Proof.
  intros [Hlen Hpend Hset Hawd Hexcl Hret Hwk Hreq Hnd Hdone Hwarn Hfet] Hfin.
  assert (∀ i, ¬ awaited (workers st) i) as Hnone.
  { intros i [w Hw]. unfold finished in Hfin. rewrite Forall_lookup in Hfin.
    by specialize (Hfin w _ Hw). }
  assert (length ps ≤ index st) as Hpast.
  { destruct (workers st) as [|x ws] eqn:Hws.
    - rewrite Hwk by done. cbn. lia.
    - apply Hret. unfold finished in Hfin. rewrite Hws in Hfin.
      apply Forall_cons in Hfin as [-> _]. left. }
  split_and!.
  - apply list_eq. intros i. rewrite list_lookup_fmap.
    destruct (ps !! i) as [p|] eqn:Hp; cbn.
    + apply Hset; [done| |done]. apply lookup_lt_Some in Hp. lia.
    + apply lookup_ge_None. apply lookup_ge_None in Hp. lia.
  - by rewrite Hreq, take_ge.
  - intros i. rewrite Hdone. split.
    + by intros (_ & _ & ?).
    + intros (p & Hp & ?). split_and!; [|done|by exists p].
      apply lookup_lt_Some in Hp. lia.
Qed.

(** Settling an item twice is settling it once. *)
Lemma settled_idempotent p : settled (settled p) = settled p.
Proof.
  assert (settled p = p → settled (settled p) = settled p) as Hsame.
  { intros Hs. by rewrite !Hs. }
  destruct (needsDetail p) eqn:Hneeds.
  - destruct (fetchProjectDetail (id p)) as [lru la|message] eqn:Hfetch.
    + assert (settled p = enrich p lru la) as ->.
      { unfold PoolSpec.settled. by rewrite Hneeds, Hfetch. }
      unfold PoolSpec.settled, needsDetail.
      cbn [enrich id last_repository_updated_at].
      destruct (truthy lru); cbn [negb]; [done|]. rewrite Hfetch.
      unfold enrich. cbn [id last_activity_at]. f_equal.
      destruct (truthy (last_activity_at p)) eqn:Hla.
      * by rewrite Hla.
      * by destruct (truthy la).
    + apply Hsame. unfold PoolSpec.settled. by rewrite Hneeds, Hfetch.
  - apply Hsame. unfold PoolSpec.settled. by rewrite Hneeds.
Qed.

Lemma omap_none {A} (f : nat → option A) l :
  (∀ i, i ∈ l → f i = None) → omap f l = [].
Proof.
  induction l as [|k l IH]; intros Hnone; [done|].
  cbn [omap list_omap]. rewrite (Hnone k) by left.
  apply IH. intros i Hi. apply Hnone. by right.
Qed.

Lemma omap_single {A} (f : nat → option A) l j x :
  NoDup l → j ∈ l → f j = Some x →
  (∀ i, i ∈ l → i ≠ j → f i = None) →
  omap f l = [x].
Proof.
  induction 1 as [|k l Hk Hnd IH]; intros Hj Hx Hothers.
  - by apply elem_of_nil in Hj.
  - cbn [omap list_omap]. destruct (decide (k = j)) as [->|Hne].
    + rewrite Hx. f_equal. apply omap_none. intros i Hi.
      apply Hothers; [by right|]. by intros ->.
    + rewrite (Hothers k); [|left|done].
      apply IH; [|done|].
      * apply elem_of_cons in Hj as [->|Hj]; done.
      * intros i Hi. apply Hothers. by right.
Qed.

(** *** Runs of the whole pool *)

Local Abbreviation fetchProjectDetailsConcurrently := (Pool.fetchProjectDetailsConcurrently fetchProjectDetail).

Lemma pool_returns_invariant parsed ps st :
  fetchProjectDetailsConcurrently parsed ps st →
  finished st ∧ ∃ finishedFetches, invariant ps st finishedFetches.
Proof.
  intros (schedule & Hrun & Hfin). split; [done|].
  eapply invariant_run; [apply (invariant_start parsed)|done].
Qed.

Lemma pool_returns_exists parsed ps : ∃ st, fetchProjectDetailsConcurrently parsed ps st.
Proof.
  destruct (invariant_completes _ _ _ (invariant_start parsed ps))
    as (schedule & st & Hrun & Hfin).
  exists st, schedule. done.
Qed.

Lemma pool_returns_projects parsed ps st :
  fetchProjectDetailsConcurrently parsed ps st →
  projects st = map settled ps ∧
  requests (trace st) = map id (filter (fun p => needsDetail p = true) ps).
Proof.
  intros (Hfin & finishedFetches & Hinv)%pool_returns_invariant.
  by destruct (invariant_finished _ _ _ Hinv Hfin) as (? & ? & _).
Qed.

End with_fetch.

End PoolFacts.

(** * The claims about the codec *)

Import Csv CsvSpec CsvFacts.

(** C2, as the code has it.  The text of scenario B decodes to exactly one
    cell: [a,b], a line feed, a double quote, [c] and a double quote.  Both
    doubled quotes inside the quoted cell are literal quotes; the writer
    produces this very text for that value. *)
Theorem scenario_B_decodes :
  parseCsv scenarioB
  = [["a,b" +:+ str LF +:+ str dquote +:+ "c" +:+ str dquote]] ∧
  stringifyCsvValue
    (Some ("a,b" +:+ str LF +:+ str dquote +:+ "c" +:+ str dquote))
  = scenarioB.
Proof. split; vm_compute; reflexivity. Qed.

(** C2, as stated, fails: the decoded cell is not [a,b], a line feed and
    [c] followed by one double quote. *)
Lemma scenario_B_not_as_stated :
  parseCsv scenarioB ≠ [["a,b" +:+ str LF +:+ "c" +:+ str dquote]].
Proof. vm_compute. discriminate. Qed.

(** C1, as stated, fails at three inputs with string values under every
    header: a single-column table whose last value is empty loses that
    record, a header containing the separator is split in two, and a
    column named [__proto__] comes back without its field, the reader's
    assignment to that name creating no property. *)
Lemma codec_roundtrip_fails :
  (stringValued ["h"] [{["h" := EmptyString]}] ∧
   ¬ fieldwiseEqual ["h"] [{["h" := EmptyString]}]
       (readCsv (writeCsv ["h"] [{["h" := EmptyString]}]))) ∧
  (stringValued ["a,b"] [{["a,b" := "x"]}] ∧
   ¬ fieldwiseEqual ["a,b"] [{["a,b" := "x"]}]
       (readCsv (writeCsv ["a,b"] [{["a,b" := "x"]}]))) ∧
  (stringValued ["__proto__"] [{["__proto__" := "x"]}] ∧
   readCsv (writeCsv ["__proto__"] [{["__proto__" := "x"]}]) = [∅] ∧
   ¬ fieldwiseEqual ["__proto__"] [{["__proto__" := "x"]}]
       (readCsv (writeCsv ["__proto__"] [{["__proto__" := "x"]}]))).
Proof.
  split; [|split]; [split | split | split; [|split]].
  - constructor; [|constructor]. intros h ->%list_elem_of_singleton.
    by eexists.
  - intros [Hlen _]. vm_compute in Hlen. discriminate.
  - constructor; [|constructor]. intros h ->%list_elem_of_singleton.
    by eexists.
  - intros [_ Hfields].
    specialize (Hfields 0 {["a,b" := "x"]}
                  (fillRecord ["a"; "b"] 0 ["x"] ∅) "a,b").
    assert (@lookup _ _ (gmap string string) _ "a,b"
              (fillRecord ["a"; "b"] 0 ["x"] ∅) = Some "x") as H.
    { apply Hfields; [reflexivity | vm_compute; reflexivity
                     | by apply list_elem_of_singleton]. }
    vm_compute in H. discriminate.
  - constructor; [|constructor]. intros h ->%list_elem_of_singleton.
    by eexists.
  - vm_compute. reflexivity.
  - intros [_ Hfields].
    specialize (Hfields 0 {["__proto__" := "x"]} ∅ "__proto__").
    assert (@lookup _ _ (gmap string string) _ "__proto__" ∅ = Some "x") as H.
    { rewrite Hfields; [reflexivity | reflexivity | vm_compute; reflexivity
                       | by apply list_elem_of_singleton]. }
    discriminate.
Qed.

(** C1, amended.  For headers free of the separator, the quote and line
    breaks, none of them [__proto__], and records with a string under every
    header, decoding the encoding gives back the records field by field,
    provided the last record is not written as a single empty cell: there
    are no records, or at least two headers, or the one header's last value
    is not empty. *)
Theorem codec_roundtrip hs (records : list (gmap string string)) :
  Forall plainHeader hs →
  "__proto__" ∉ hs →
  stringValued hs records →
  (records = [] ∨ 2 ≤ length hs ∨
   ∃ h r, hs = [h] ∧ last records = Some r ∧ r !! h ≠ Some EmptyString) →
  fieldwiseEqual hs records (readCsv (writeCsv hs records)).
Proof.
  intros Hhs Hproto Hval Hlast.
  unfold stringValued in Hval. rewrite Forall_forall in Hval.
  assert (survivors hs records = records) as Hkeep.
  { apply survivors_kept. intros r Hr.
    destruct Hlast as [-> | [Hlen | (h & r0 & -> & Hr0 & Hne)]].
    - done.
    - destruct hs as [|h0 [|h1 hs]]; cbn in Hlen; try lia.
      rewrite cellsRead_cons. discriminate.
    - rewrite Hr in Hr0. injection Hr0 as <-.
      rewrite cellsRead_cons. cbn [map].
      destruct (r !! h) as [v|] eqn:Hv.
      + cbn [nullish]. congruence.
      + apply last_Some_elem_of in Hr.
        destruct (Hval r Hr h) as [v Hv']; [by apply list_elem_of_singleton|].
        congruence. }
  split.
  - by rewrite readCsv_writeCsv, Hkeep, length_map.
  - intros i r r' h Hr Hr' Hh.
    rewrite (readCsv_writeCsv_fields hs records i r r' h)
      by (try done; by intros ->).
    destruct (Hval r (list_elem_of_lookup_2 _ _ _ Hr) h Hh) as [v ->]. done.
Qed.

(** The sample table comes back field by field. *)
Lemma codec_roundtrip_witness :
  fieldwiseEqual sampleHeaders sampleRecords
    (readCsv (writeCsv sampleHeaders sampleRecords)).
Proof.
  apply codec_roundtrip.
  - repeat constructor.
  - by apply (bool_decide_unpack _).
  - repeat constructor; intros h Hh;
      repeat (apply elem_of_cons in Hh as [-> | Hh]; [by eexists|]);
      by apply elem_of_nil in Hh.
  - right. left. cbn. lia.
Defined.


(** * The claims about the loaders and the archive cross-check *)

Import Reconcile ReconcileSpec ReconcileFacts.

(** C6, at the failing input.  A report whose one repository is named
    constructor reads as one record with that name.  The claim has it
    stored under the key constructor; instead both loaders throw on it,
    before any warning, and the run of [main] aborts: [repos[key]] finds
    the inherited [Object.prototype.constructor], so the record is taken
    for a duplicate, and [duplicates[key]] is that same function, which
    has no [push].  The same happens for the name [__proto__], whatever
    records precede it. *)
Theorem loader_throws_on_member_name :
  readCsv constructorReport
  = [{["name" := "constructor"; "archived" := "false"]}] ∧
  loadGithubReport Builtins.trimAscii Builtins.lowerAscii constructorReport
  = None ∧
  loadGitlabReport Builtins.trimAscii Builtins.lowerAscii constructorReport
  = None ∧
  crossCheck Builtins.trimAscii Builtins.lowerAscii
    (readCsv constructorReport) [] = None ∧
  loadRecords Builtins.trimAscii Builtins.lowerAscii
    [{["name" := "Foo"]}; {["name" := " __PROTO__ "]}] = None.
Proof. split_and!; vm_compute; reflexivity. Qed.

(** X24.  The loaders return exactly when no record has a name that finds
    a member of [Object.prototype].  When a loader returns, it has skipped
    the records whose trimmed name is empty and keyed the rest by the
    lowercased trimmed name: under every key the mapping holds the first
    record of the file with that key, the later ones are collected as
    duplicates and never replace it, also when more records follow; the
    mapping has one entry per distinct normalized key; and duplicates only
    produce a warning carrying their number, next to the mapping that is
    returned all the same.  The name is the [name] field, or the empty
    string where there is none, trimmed. *)
Theorem loader_first_wins (trim toLowerCase : string → string)
    (records more : list (gmap string string)) (key : string)
    (report : loaded) :
  loadRecords trim toLowerCase records = Some report →
  canonical report !! key = head (matching trim toLowerCase key records) ∧
  duplicates report !! key
  = nonempty (tail (matching trim toLowerCase key records)) ∧
  (∀ extended, loadRecords trim toLowerCase (records ++ more) = Some extended →
     canonical extended !! key
     = match canonical report !! key with
       | Some first => Some first
       | None => head (matching trim toLowerCase key more)
       end) ∧
  dom (canonical report) = list_to_set (keysOf trim toLowerCase records) ∧
  size (canonical report)
  = length (remove_dups (keysOf trim toLowerCase records)) ∧
  warning report
  = (if 0 <? size (duplicates report)
     then Some (size (duplicates report)) else None) ∧
  (∀ r : gmap string string,
     trimmedName trim r = trim (default EmptyString (r !! "name"))) ∧
  (∀ records',
     loadRecords trim toLowerCase records' = None
     ↔ Exists (memberNamed trim toLowerCase) records').
Proof.
  intros Hload. split_and!.
  - by apply loadRecords_canonical.
  - by apply loadRecords_duplicates.
  - intros extended Hextended.
    rewrite (loadRecords_canonical _ _ _ _ _ Hextended),
            (loadRecords_canonical _ _ _ _ _ Hload).
    unfold matching. rewrite filter_app. by destruct (filter _ records).
  - by apply loadRecords_dom.
  - by apply loadRecords_size.
  - by apply loadRecords_Some in Hload as (_ & _ & ?).
  - apply trimmedName_spec.
  - apply loadRecords_None.
Qed.

(** Two records with the same key: the first is the one kept. *)
Lemma loader_first_wins_witness :
  ∃ report,
    loadRecords Builtins.trimAscii Builtins.lowerAscii
      LastChangeSpec.fooTwice = Some report ∧
    canonical report !! "foo"
    = Some {["name" := "Foo"; "visibility" := "public"]}.
Proof.
  destruct (loadRecords Builtins.trimAscii Builtins.lowerAscii
              LastChangeSpec.fooTwice) as [report|] eqn:Hload.
  - exists report. split; [done|].
    rewrite (proj1 (loader_first_wins Builtins.trimAscii Builtins.lowerAscii
                      LastChangeSpec.fooTwice [] "foo" report Hload)).
    vm_compute. reflexivity.
  - vm_compute in Hload. discriminate.
Defined.

(** C5.  The keys iterated by [compare] are exactly the keys of the left
    mapping, each once; every key takes one of the three branches, and the
    three counters count the keys of each branch, so they add up to
    [total_github], which is the size of the left mapping; and the number
    of rows is [not_archived]. *)
Theorem join_completeness (toLowerCase : string → string)
    (github gitlab : gmap string (gmap string string)) :
  let run := compare toLowerCase github gitlab in
  let keys := sortedKeys github in
  NoDup keys ∧
  dom github = list_to_set keys ∧
  missing run.2 = tally toLowerCase MissingOnRight gitlab keys ∧
  archived run.2 = tally toLowerCase Resolved gitlab keys ∧
  not_archived run.2 = tally toLowerCase Unresolved gitlab keys ∧
  missing run.2 + archived run.2 + not_archived run.2 = total_github run.2 ∧
  total_github run.2 = size github ∧
  length run.1 = not_archived run.2.
Proof.
  cbn zeta. rewrite compare_spec. cbn [fst snd missing archived not_archived
    total_github]. split_and!; try done.
  - apply sortedKeys_NoDup.
  - apply set_eq. intros key.
    by rewrite elem_of_dom, elem_of_list_to_set, sortedKeys_elem.
  - apply tally_total.
  - apply sortedKeys_length.
  - apply rowFor_length. intros key. apply sortedKeys_elem.
Qed.

(** C7.  For a matched pair, the loop of [compare] counts the pair as
    archived and emits no row exactly when the lowercased, stringified
    [archived] field of the GitLab record is the token true or the token 1;
    otherwise it counts it as not archived and emits one row, built from
    both records, with the status gitlab_not_archived.  The rows of a whole
    run are the rows of its unresolved keys in key order.  In scenario A
    the run yields one row, for bar, and the counters archived 1,
    not_archived 1, missing 0. *)
Theorem archive_crosscheck :
  (∀ (toLowerCase : string → string)
     (github gitlab : gmap string (gmap string string)) key ghRepo glProject
     rows c,
     github !! key = Some ghRepo →
     gitlab !! key = Some glProject →
     let token := archivedValue toLowerCase glProject in
     ((token = "true" ∨ token = "1") →
      compareStep toLowerCase github gitlab (rows, c) key
      = (rows, Counters (missing c) (archived c + 1) (not_archived c)
                 (total_github c))) ∧
     (¬ (token = "true" ∨ token = "1") →
      compareStep toLowerCase github gitlab (rows, c) key
      = (rows ++ [makeRow ghRepo glProject],
         Counters (missing c) (archived c) (not_archived c + 1)
           (total_github c)) ∧
      status (makeRow ghRepo glProject) = "gitlab_not_archived" ∧
      github_name (makeRow ghRepo glProject) = ghRepo !! "name" ∧
      gitlab_archived (makeRow ghRepo glProject) = glProject !! "archived")) ∧
  (∀ (toLowerCase : string → string)
     (github gitlab : gmap string (gmap string string)),
     (compare toLowerCase github gitlab).1
     = omap (rowFor toLowerCase github gitlab) (sortedKeys github)) ∧
  scenarioA_run
  = Some ([Outcome (Some "bar") (Some EmptyString) (Some EmptyString)
             (Some EmptyString) (Some EmptyString) (Some "false")
             "gitlab_not_archived"],
          Counters 0 1 1 2).
Proof.
  split_and!.
  - intros toLowerCase github gitlab key ghRepo glProject rows c Hgh Hgl token.
    unfold compareStep. rewrite Hgh, Hgl. unfold isArchived. fold token.
    split.
    + intros [-> | ->]; reflexivity.
    + intros Hnot.
      destruct (String.eqb_spec token "true") as [?|_]; [tauto|].
      destruct (String.eqb_spec token "1") as [?|_]; [tauto|]. done.
  - intros. by rewrite compare_spec.
  - vm_compute. reflexivity.
Qed.

(** A matched pair whose GitLab record is archived. *)
Lemma archive_crosscheck_witness :
  compareStep Builtins.lowerAscii
    {["foo" := {["name" := "Foo"]}]}
    {["foo" := {["name" := "foo"; "archived" := "TRUE"]}]}
    ([], Counters 0 0 0 0) "foo"
  = ([], Counters 0 1 0 0).
Proof.
  refine (proj1 (proj1 archive_crosscheck Builtins.lowerAscii
                   {["foo" := {["name" := "Foo"]}]}
                   {["foo" := {["name" := "foo"; "archived" := "TRUE"]}]}
                   "foo" {["name" := "Foo"]}
                   {["name" := "foo"; "archived" := "TRUE"]}
                   [] (Counters 0 0 0 0) _ _) _).
  - reflexivity.
  - reflexivity.
  - left. vm_compute. reflexivity.
Defined.

(** * The claims about the staleness comparison and about ordering *)

Import LastChange LastChangeSpec LastChangeFacts.

(** C3, as stated, fails: with one pair for which only the GitLab date is
    known and one pair for which GitLab is newer, the results hold one
    gitlab_newer outcome, but no counter has the value one: both pairs were
    counted by [gitlabNewer].  And a GitHub repository named constructor
    is compared and classified although the GitLab file is empty, so that
    there is no pair: the lookup finds [Object.prototype.constructor]. *)
Lemma staleness_counters_shared :
  (runStaleness twoGitlabLeaning_github twoGitlabLeaning_gitlab).2
  = LastChange.Counters 2 0 2 0 0 ∧
  map LastChange.status
    (runStaleness twoGitlabLeaning_github twoGitlabLeaning_gitlab).1
  = ["gitlab_has_timestamp_only"; "gitlab_newer"] ∧
  ¬ dedicatedCounters
      (runStaleness twoGitlabLeaning_github twoGitlabLeaning_gitlab) ∧
  runStaleness constructorOnly []
  = ([Result "constructor" (Some "2024-01-01T00:00:00Z") (Some EmptyString)
        "github_has_timestamp_only"],
     LastChange.Counters 1 0 0 1 0).
Proof.
  split_and!; [vm_compute; reflexivity..| |vm_compute; reflexivity].
  intros H. specialize (H "gitlab_newer"). vm_compute in H.
  assert (1 ∈ [2; 0; 2; 0; 0]) as Hin.
  { apply H. do 3 right. left. }
  repeat (apply elem_of_cons in Hin as [Hin|Hin]; [discriminate|]).
  by apply elem_of_nil in Hin.
Qed.

(** C3, amended.  Where no GitHub record has a name that is, lowercased,
    the name of a member of [Object.prototype]: every result of the
    staleness comparison comes from a joined pair, a GitHub record and a
    GitLab record with the same normalized name, and carries the one
    status, of five, that the two dates determine, an absent or unparsable
    timestamp counting as an unknown date; every GitHub record with a
    counterpart yields one result.  The counters are three, not five:
    [unknown] counts the both-unknown results, [gitlabNewer] the results
    where only GitLab's date is known or GitLab's is newer,
    [githubNewerOrEqual] the results where only GitHub's date is known or
    GitHub's is newer or equal; together they add up to [compared]. *)
Theorem staleness_classification (trim toLowerCase : string → string)
    (dateTime : string → option Z)
    (githubRecords gitlabRecords : list (gmap string string)) :
  Forall (plainlyNamed trim toLowerCase) githubRecords →
  let run := compareLastChanges trim toLowerCase dateTime
               githubRecords gitlabRecords in
  Forall (resultOfPair trim toLowerCase dateTime githubRecords gitlabRecords)
    run.1 ∧
  length run.1
  = length (filter (counterpart trim toLowerCase gitlabRecords)
              githubRecords) ∧
  (∀ githubDate gitlabDate,
     ∃ tag, tag ∈ fiveTags ∧ Outcome githubDate gitlabDate tag ∧
            ∀ tag', Outcome githubDate gitlabDate tag' → tag' = tag) ∧
  NoDup fiveTags ∧
  toDate dateTime None = None ∧
  toDate dateTime (Some EmptyString) = None ∧
  (∀ text, text ≠ EmptyString →
           toDate dateTime (Some text) = dateTime text) ∧
  compared run.2 = length run.1 ∧
  unknown run.2 = countStatus "unknown_timestamps" run.1 ∧
  gitlabNewer run.2
  = countStatus "gitlab_has_timestamp_only" run.1
    + countStatus "gitlab_newer" run.1 ∧
  githubNewerOrEqual run.2
  = countStatus "github_has_timestamp_only" run.1
    + countStatus "github_newer_or_equal" run.1 ∧
  unknown run.2 + gitlabNewer run.2 + githubNewerOrEqual run.2
  = compared run.2.
Proof.
  intros Hplain. cbn zeta.
  destruct (compareLastChanges_inv trim toLowerCase dateTime
              githubRecords gitlabRecords)
    as (Hc & Hu & Hgl & Hgh & Hnames & Hall).
  rewrite Forall_forall in Hplain.
  split_and!; try done.
  - eapply Forall_impl; [exact Hall|].
    intros r (repo & project & Hrepo & Hname & Hfound & Hout).
    rewrite DictFacts.get_own in Hfound by (by apply Hplain).
    destruct (indexByName trim toLowerCase gitlabRecords
              !! toLowerCase (trimmedName trim repo))
      as [stored|] eqn:Hstored; [|done].
    injection Hfound as ->.
    apply (indexByName_elem trim toLowerCase dateTime) in Hstored
      as (Hin & Hkey & _).
    by exists repo, project.
  - rewrite <- (length_map LastChange.name), Hnames, length_map.
    f_equal. clear Hc Hu Hgl Hgh Hnames Hall.
    induction githubRecords as [|repo records IH]; [done|].
    rewrite !filter_cons.
    pose proof (joined_counterpart trim toLowerCase dateTime gitlabRecords
                  repo (Hplain repo ltac:(left))) as Hiff.
    rewrite IH by (intros r Hr; apply Hplain; by right).
    destruct (decide (joined trim toLowerCase _ repo)) as [Hj|Hj].
    + by rewrite decide_True by (by apply Hiff).
    + by rewrite decide_False by (by rewrite <- Hiff).
  - intros githubDate gitlabDate.
    destruct (Outcome_total githubDate gitlabDate) as [tag Htag].
    exists tag. split_and!; [by eapply Outcome_tag | done |].
    intros tag' Htag'. by eapply Outcome_functional.
  - unfold fiveTags.
    repeat (apply NoDup_cons; split;
            [intros Hin;
             repeat (apply elem_of_cons in Hin as [Hin|Hin]; [discriminate|]);
             by apply elem_of_nil in Hin|]).
    apply NoDup_nil_2.
  - intros text Htext. by destruct text.
  - rewrite Hu, Hgl, Hgh, Hc.
    rewrite <- (countStatus_partition
                  (compareLastChanges trim toLowerCase dateTime
                     githubRecords gitlabRecords).1); [lia|].
    eapply Forall_impl; [exact Hall|].
    intros r (repo & project & _ & _ & _ & Hout). by eapply Outcome_tag.
Qed.

(** The two pairs that lean to GitLab. *)
Lemma staleness_classification_witness :
  length (runStaleness twoGitlabLeaning_github twoGitlabLeaning_gitlab).1 = 2 ∧
  gitlabNewer (runStaleness twoGitlabLeaning_github twoGitlabLeaning_gitlab).2
  = 2.
Proof.
  destruct (staleness_classification Builtins.trimAscii Builtins.lowerAscii
              Builtins.sampleDateTime twoGitlabLeaning_github
              twoGitlabLeaning_gitlab)
    as (_ & Hlen & _ & _ & _ & _ & _ & _ & _ & Hnewer & _).
  - repeat constructor.
  - unfold runStaleness. split.
    + rewrite Hlen. vm_compute. reflexivity.
    + rewrite Hnewer. vm_compute. reflexivity.
Defined.

(** C4, as stated, fails.  The staleness comparison emits its results in
    the order of the GitHub file: listing zeta before alpha gives results
    that are not sorted and that differ from those of the reordered file.
    The archive cross-check depends on file order where a key is repeated:
    the first record wins, so swapping two records with the same key
    changes the row.  And for a GitHub file with a repository named
    constructor the archive cross-check emits no rows at all: the loader
    throws. *)
Lemma ordering_depends_on_input :
  (zetaAlpha ≡ₚ alphaZeta ∧
   (runStaleness zetaAlpha alphaZeta).1 ≠ (runStaleness alphaZeta alphaZeta).1) ∧
  ¬ StronglySorted String.le
      (map (fun r => Builtins.lowerAscii (LastChange.name r))
         (runStaleness zetaAlpha alphaZeta).1) ∧
  (fooTwice ≡ₚ fooTwiceSwapped ∧
   fst <$> runCrossCheck fooTwice fooCounterpart
   ≠ fst <$> runCrossCheck fooTwiceSwapped fooCounterpart) ∧
  runCrossCheck constructorOnly fooCounterpart = None.
Proof.
  split_and!.
  - apply perm_swap.
  - vm_compute. discriminate.
  - vm_compute. intros Hsorted.
    apply StronglySorted_inv in Hsorted as [_ Hle].
    apply Forall_cons in Hle as [Hle _]. exact Hle.
  - apply perm_swap.
  - vm_compute. discriminate.
  - vm_compute. reflexivity.
Qed.

(** C4, amended.  Whenever both loaders return, the rows of the archive
    cross-check are in strictly ascending order of normalized key,
    whatever the order of the files and whether or not keys are repeated.
    Reordering the records of either file leaves the whole outcome
    unchanged provided no two named records of a file share a normalized
    key.  The staleness comparison does not sort: its results follow the
    GitHub file, one for each record with a name for which the lookup
    among the GitLab names finds something. *)
Theorem ordering_determinism (trim toLowerCase : string → string)
    (dateTime : string → option Z)
    (github github' gitlab gitlab' : list (gmap string string)) :
  (∀ run, crossCheck trim toLowerCase github gitlab = Some run →
     StronglySorted String.le (map (rowKey trim toLowerCase) run.1) ∧
     NoDup (map (rowKey trim toLowerCase) run.1)) ∧
  (github ≡ₚ github' →
   gitlab ≡ₚ gitlab' →
   NoDup (keysOf trim toLowerCase github) →
   NoDup (keysOf trim toLowerCase gitlab) →
   crossCheck trim toLowerCase github' gitlab'
   = crossCheck trim toLowerCase github gitlab) ∧
  map LastChange.name
    (compareLastChanges trim toLowerCase dateTime github gitlab).1
  = map (trimmedName trim)
      (filter (joined trim toLowerCase (indexByName trim toLowerCase gitlab))
         github).
Proof.
  split_and!.
  - intros run Hrun. unfold crossCheck in Hrun.
    destruct (loadRecords trim toLowerCase github) as [ghReport|] eqn:Hleft;
      [|done].
    destruct (loadRecords trim toLowerCase gitlab) as [glReport|] eqn:Hright;
      [|done].
    injection Hrun as <-.
    assert (map (rowKey trim toLowerCase)
              (compare toLowerCase (canonical ghReport) (canonical glReport)).1
            = filter (fun key => branchOf toLowerCase (canonical glReport) key
                                 = Unresolved)
                (sortedKeys (canonical ghReport))) as Hkeys.
    { rewrite compare_spec. cbn [fst]. apply rowKeys_filter.
      intros key [r Hr]%sortedKeys_elem. exists r. split; [done|].
      by apply (loadRecords_key _ _ _ _ _ _ Hleft) in Hr as (_ & _ & ?). }
    rewrite Hkeys. split.
    + apply StronglySorted_filter, sortedKeys_sorted.
    + apply NoDup_filter, sortedKeys_NoDup.
  - intros Hgh Hgl Hndgh Hndgl. rewrite !crossCheck_canonical.
    by rewrite <- (loadRecords_permutation trim toLowerCase github github'),
               <- (loadRecords_permutation trim toLowerCase gitlab gitlab').
  - by destruct (compareLastChanges_inv trim toLowerCase dateTime github gitlab)
      as (_ & _ & _ & _ & Hnames & _).
Qed.

(** Scenario A with the records of both files swapped. *)
Lemma ordering_determinism_witness :
  crossCheck Builtins.trimAscii Builtins.lowerAscii
    (reverse scenarioA_left) (reverse scenarioA_right)
  = scenarioA_run.
Proof.
  refine (proj1 (proj2 (ordering_determinism Builtins.trimAscii
            Builtins.lowerAscii Builtins.sampleDateTime
            scenarioA_left (reverse scenarioA_left)
            scenarioA_right (reverse scenarioA_right))) _ _ _ _).
  - apply perm_swap.
  - apply perm_swap.
  - by apply (bool_decide_unpack _).
  - by apply (bool_decide_unpack _).
Defined.

(** * The trailing-row rule of the decoder *)

(** C10.  The decoder drops the last scanned row exactly when that row is
    one empty cell.  So a single-column table whose last value is empty
    comes back one record short, whatever precedes it, while with two or
    more columns the last record is kept, also when all its cells are
    empty; and a text that ends with an empty line loses that line. *)
Theorem trailing_row_rule (content : string) (h : string) (hs : list string)
    (records : list (gmap string string)) (r : gmap string string) :
  plainHeader h →
  Forall plainHeader hs →
  2 ≤ length hs →
  parseCsv content
  = (if decide (last (scanRows content) = Some [EmptyString])
     then pop (scanRows content) else scanRows content) ∧
  length (readCsv (writeCsv [h] (records ++ [<[h := EmptyString]> r]))) + 1
  = length (records ++ [<[h := EmptyString]> r]) ∧
  length (readCsv (writeCsv hs (records ++ [r]))) = length (records ++ [r]) ∧
  last (parseCsv (writeCsv hs (records ++ [r])))
  = Some (map (fun h' => nullish (r !! h') EmptyString) hs) ∧
  parseCsv ("a" +:+ str LF +:+ str LF) = [["a"]].
Proof.
  intros Hh Hhs Hlen. split_and!.
  - unfold parseCsv. cbn zeta.
    destruct (trailingEmpty (scanRows content)) eqn:Ht.
    + apply trailingEmpty_last in Ht. by rewrite decide_True.
    + rewrite decide_False; [done|]. intros Hl%trailingEmpty_last. congruence.
  - rewrite readCsv_writeCsv by (by constructor).
    rewrite survivors_dropped, length_map, length_app; [done|].
    rewrite cellsRead_cons. cbn [map]. by rewrite lookup_insert_eq.
  - rewrite readCsv_writeCsv by done.
    rewrite survivors_kept, length_map; [done|].
    intros r' _. destruct hs as [|h0 [|h1 hs]]; cbn in Hlen; try lia.
    rewrite cellsRead_cons. discriminate.
  - destruct hs as [|h0 [|h1 hs]]; cbn in Hlen; try lia.
    pose proof (scanRows_writeCsv (h0 :: h1 :: hs) (records ++ [r]) Hhs)
      as Hscan.
    rewrite map_app, app_comm_cons in Hscan. cbn [map] in Hscan.
    rewrite (parseCsv_snoc _ _ _ Hscan).
    fold (cellsRead (h0 :: h1 :: hs) r). rewrite cellsRead_cons.
    rewrite decide_False by discriminate. by rewrite last_snoc.
  - vm_compute. reflexivity.
Qed.

(** A one-column table ending in an empty value, and a two-column one
    ending in an all-empty record. *)
Lemma trailing_row_rule_witness :
  length (readCsv (writeCsv ["h"]
            ([{["h" := "x"]}] ++ [<["h" := EmptyString]> ∅]))) + 1 = 2 ∧
  length (readCsv (writeCsv ["h"; "k"] ([{["h" := "x"]}] ++ [∅]))) = 2.
Proof.
  pose proof (trailing_row_rule EmptyString "h" ["h"; "k"]
                [{["h" := "x"]}] ∅) as H.
  destruct H as (_ & H1 & H2 & _).
  - reflexivity.
  - repeat constructor.
  - cbn. lia.
  - split; [exact H1 | exact H2].
Defined.

(** * The claims about the detail-fetch pool *)

Import Pool PoolSpec PoolFacts.

(** C8.  Whatever the interleaving of the workers, and whatever the two
    concurrency settings, a second run of the pool on the items the first
    run left, with the same fetch behaviour, changes nothing: the items are
    the same after it.  Its fetch calls are exactly those for the items
    still lacking the field, in order, so an item the first run filled is
    skipped without a call, and there is no call at all once every item
    has the field.  Both runs do return. *)
Theorem enrichment_idempotent (fetchProjectDetail : Z → response)
    (parsed parsed' : option Z) (ps : list project) (st st' : pool) :
  fetchProjectDetailsConcurrently fetchProjectDetail parsed ps st →
  fetchProjectDetailsConcurrently fetchProjectDetail parsed' (projects st) st' →
  projects st' = projects st ∧
  requests (trace st')
  = map id (filter (fun p => needsDetail p = true) (projects st)) ∧
  (Forall (fun p => needsDetail p = false) (projects st) →
   requests (trace st') = []) ∧
  (∃ first, fetchProjectDetailsConcurrently fetchProjectDetail parsed ps first) ∧
  (∃ second, fetchProjectDetailsConcurrently fetchProjectDetail parsed' (projects st) second).
Proof.
  intros [Hst _]%pool_returns_projects [Hst' Hreq]%pool_returns_projects.
  split_and!.
  - rewrite Hst', Hst, map_map. apply map_ext. intros p.
    apply settled_idempotent.
  - done.
  - intros Hfilled. rewrite Hreq. clear Hst Hst' Hreq.
    induction Hfilled as [|p l Hp _ IH]; [done|].
    rewrite filter_cons, decide_False by congruence. exact IH.
  - apply pool_returns_exists.
  - apply pool_returns_exists.
Qed.

(** Scenario C run twice: the second run only asks for item 4 again. *)
Lemma enrichment_idempotent_witness :
  projects scenarioC_again = projects scenarioC_final ∧
  requests (trace scenarioC_again) = [4%Z].
Proof.
  destruct (enrichment_idempotent scenarioC_fetch scenarioC_parsed
              scenarioC_parsed scenarioC_items scenarioC_final scenarioC_again)
    as (Hsame & Hreq & _).
  - exists roundRobin. split; [vm_compute; reflexivity|].
    repeat constructor.
  - exists secondRun. split; [vm_compute; reflexivity|].
    repeat constructor.
  - split; [exact Hsame|]. rewrite Hreq. vm_compute. reflexivity.
Defined.

(** C9.  If the fetch fails for one item that needs its detail and succeeds
    for every other such item, then in whatever state the pool returns,
    under any interleaving, exactly one warning was printed, for that item;
    the item is as it was; every other item that needed its detail carries
    what its fetch returned; and the pool has returned, as it always does.
    In scenario C, three workers over ten items with the fetch of item 4
    failing, every run ends with items 1 to 3 and 5 to 10 filled, item 4
    not, and one warning, for item 4. *)
Theorem one_failure_is_local :
  (∀ (fetchProjectDetail : Z → response) parsed ps st j failing message,
     fetchProjectDetailsConcurrently fetchProjectDetail parsed ps st →
     ps !! j = Some failing →
     needsDetail failing = true →
     fetchProjectDetail (id failing) = Failure message →
     (∀ i p, ps !! i = Some p → i ≠ j → needsDetail p = true →
             ∃ lru la, fetchProjectDetail (id p) = Detail lru la) →
     warnings (trace st) = [(id failing, message)] ∧
     projects st !! j = Some failing ∧
     (∀ i p, ps !! i = Some p → i ≠ j → needsDetail p = true →
             ∃ lru la, fetchProjectDetail (id p) = Detail lru la ∧
                       projects st !! i = Some (enrich p lru la)) ∧
     finished st) ∧
  (∀ (fetchProjectDetail : Z → response) parsed ps,
     ∃ st, fetchProjectDetailsConcurrently fetchProjectDetail parsed ps st) ∧
  (∀ st, fetchProjectDetailsConcurrently scenarioC_fetch scenarioC_parsed scenarioC_items st →
         projects st = scenarioC_filled ∧
         warnings (trace st) = [(4%Z, "socket hang up")]) ∧
  fetchProjectDetailsConcurrently scenarioC_fetch scenarioC_parsed scenarioC_items scenarioC_final.
Proof.
  assert (∀ (fetchProjectDetail : Z → response) parsed ps st j failing message,
     fetchProjectDetailsConcurrently fetchProjectDetail parsed ps st →
     ps !! j = Some failing →
     needsDetail failing = true →
     fetchProjectDetail (id failing) = Failure message →
     (∀ i p, ps !! i = Some p → i ≠ j → needsDetail p = true →
             ∃ lru la, fetchProjectDetail (id p) = Detail lru la) →
     warnings (trace st) = [(id failing, message)] ∧
     projects st !! j = Some failing ∧
     (∀ i p, ps !! i = Some p → i ≠ j → needsDetail p = true →
             ∃ lru la, fetchProjectDetail (id p) = Detail lru la ∧
                       projects st !! i = Some (enrich p lru la)) ∧
     finished st) as Hgeneral.
  { intros fetchProjectDetail parsed ps st j failing message
      Hrun Hj Hneeds Hfail Hothers.
    destruct (pool_returns_invariant _ _ _ _ Hrun) as (Hfin & done & Hinv).
    destruct (invariant_finished _ _ _ _ Hinv Hfin) as (Hprojects & _ & Hdone).
    split_and!.
    - rewrite (inv_warnings _ _ _ _ Hinv).
      apply (omap_single _ _ j).
      + by destruct Hinv.
      + apply Hdone. by exists failing.
      + rewrite Hj. cbn. unfold warningOf. by rewrite Hneeds, Hfail.
      + intros i [p [Hp Hpneeds]]%Hdone Hne. rewrite Hp. cbn.
        destruct (Hothers i p Hp Hne Hpneeds) as (lru & la & Hfetch).
        unfold warningOf. by rewrite Hpneeds, Hfetch.
    - rewrite Hprojects, list_lookup_fmap, Hj. cbn.
      unfold settled. by rewrite Hneeds, Hfail.
    - intros i p Hp Hne Hpneeds.
      destruct (Hothers i p Hp Hne Hpneeds) as (lru & la & Hfetch).
      exists lru, la. split; [done|].
      rewrite Hprojects, list_lookup_fmap, Hp. cbn.
      unfold settled. by rewrite Hpneeds, Hfetch.
    - done. }
  split_and!.
  - exact Hgeneral.
  - intros. apply pool_returns_exists.
  - intros st Hrun. split.
    + apply pool_returns_projects in Hrun as [-> _]. vm_compute. reflexivity.
    + apply (Hgeneral scenarioC_fetch scenarioC_parsed scenarioC_items st 3
               (Project 4 None None) "socket hang up"); try done.
      intros i p Hp Hne _.
      do 10 (destruct i as [|i];
             [try done; injection Hp as <-; by eexists _, _|]).
      done.
  - exists roundRobin. split; [vm_compute; reflexivity|]. repeat constructor.
Qed.

(** Scenario C under the round-robin schedule. *)
Lemma one_failure_is_local_witness :
  warnings (trace scenarioC_final) = [(4%Z, "socket hang up")] ∧
  projects scenarioC_final !! 3 = Some (Project 4 None None).
Proof.
  destruct (proj1 one_failure_is_local scenarioC_fetch scenarioC_parsed
              scenarioC_items scenarioC_final 3 (Project 4 None None)
              "socket hang up") as (Hwarn & Hitem & _).
  - exists roundRobin. split; [vm_compute; reflexivity|]. repeat constructor.
  - reflexivity.
  - reflexivity.
  - reflexivity.
  - intros i p Hp Hne _.
    do 10 (destruct i as [|i];
           [try done; injection Hp as <-; by eexists _, _|]).
    done.
  - split; [exact Hwarn | exact Hitem].
Defined.

(** * Further properties of the codec *)

Module MoreCsvFacts.
Import Csv CsvSpec CsvFacts MoreSpec.

Lemma nonempty_length (v : string) :
  v ≠ EmptyString → (0 <? String.length v) = true.
Proof. destruct v; [done|]. reflexivity. Qed.

Lemma parse_single_cell (content v : string) (q : bool) :
  scan content (Scanner [] [] EmptyString false) = Scanner [] [] v q →
  parseCsv content = if decide (v = EmptyString) then [] else [[v]].
Proof.
  intros Hscan. unfold parseCsv, scanRows. rewrite Hscan.
  assert (flush (Scanner [] [] v q)
          = if decide (v = EmptyString) then [] else [[v]]) as ->.
  { unfold flush. cbn [cell row rows length]. case_decide as Hv.
    - by subst v.
    - by rewrite nonempty_length. }
  case_decide as Hv; [done|].
  destruct (trailingEmpty [[v]]) eqn:Ht; [|done].
  apply (trailingEmpty_snoc []) in Ht. congruence.
Qed.

(** A quoted cell whose closing quote never comes. *)
Lemma scan_quoted_open s rs r cl :
  scan (doubleQuotes s) (Scanner rs r cl true) = Scanner rs r (cl +:+ s) true.
Proof.
  revert cl. induction s as [|c s IH]; intros cl.
  - cbn. by rewrite sapp_nil_r.
  - cbn [doubleQuotes]. destruct (Ascii.eqb c dquote) eqn:Hc.
    + apply Ascii.eqb_eq in Hc as ->.
      rewrite scan_escaped, IH. by rewrite sapp_snoc.
    + rewrite scan_quoted_char by done. rewrite IH. by rewrite sapp_snoc.
Qed.

(** One character of input: the scanner goes on with the rest or, after a
    look ahead, with the rest but one character, and has either the rows
    it had or one more, made of the pending row and cell. *)
Lemma scan_step c rest st :
  ∃ rest' st',
    scan (String c rest) st = scan rest' st' ∧
    String.length rest' ≤ String.length rest ∧
    (rows st' = rows st ∨ rows st' = rows st ++ [row st ++ [cell st]]).
Proof.
  cbn [scan]. destruct (inQuotes st).
  - destruct (Ascii.eqb c dquote).
    + destruct rest as [|next rest'].
      * eexists _, _. split; [reflexivity|]. split; [done | by left].
      * destruct (Ascii.eqb next dquote); eexists _, _;
          (split; [reflexivity|]); (split; [cbn; lia | by left]).
    + eexists _, _. split; [reflexivity|]. split; [done | by left].
  - destruct (Ascii.eqb c dquote).
    { eexists _, _. split; [reflexivity|]. split; [done | by left]. }
    destruct (Ascii.eqb c comma).
    { eexists _, _. split; [reflexivity|]. split; [done | by left]. }
    destruct (Ascii.eqb c CR || Ascii.eqb c LF).
    + destruct rest as [|next rest'].
      * eexists _, _. split; [reflexivity|]. split; [done | by right].
      * destruct (Ascii.eqb c CR && Ascii.eqb next LF); eexists _, _;
          (split; [reflexivity|]); (split; [cbn; lia | by right]).
    + eexists _, _. split; [reflexivity|]. split; [done | by left].
Qed.

Lemma scan_rows_nonempty content st :
  Forall (fun r : list string => r ≠ []) (rows st) →
  Forall (fun r : list string => r ≠ []) (rows (scan content st)).
Proof.
  remember (String.length content) as n eqn:Hn. revert content st Hn.
  induction n as [n IH] using lt_wf_ind. intros content st -> Hrows.
  destruct content as [|c rest]; [done|].
  destruct (scan_step c rest st) as (rest' & st' & -> & Hlen & Hst').
  apply (IH (String.length rest')); [cbn; lia | done |].
  destruct Hst' as [-> | ->]; [done|].
  apply Forall_app. split; [done|]. constructor; [|constructor].
  by destruct (row st).
Qed.

(** *** Rows ended by any line break the scanner accepts *)

Section line_breaks.

(** A line break: in unquoted mode the scanner ends the row on it. *)
Variable eol : string.
Hypothesis eol_head : ∀ rest, notQuoteHead (eol +:+ rest).
Hypothesis eol_scan : ∀ rest rs r cl,
  scan (eol +:+ rest) (Scanner rs r cl false)
  = scan rest (Scanner (rs ++ [r ++ [cl]]) [] EmptyString false).

Lemma scan_row_cons_eol v vs rest rs r :
  scan (encodeRow (v :: vs) +:+ eol +:+ rest) (Scanner rs r EmptyString false)
  = scan rest
      (Scanner (rs ++ [r ++ map (fun v => nullish v EmptyString) (v :: vs)])
         [] EmptyString false).
Proof.
  revert v r. induction vs as [|v' vs IH]; intros v r.
  - unfold encodeRow. cbn [map String.concat].
    rewrite scan_value by apply eol_head. by rewrite sapp_nil_l, eol_scan.
  - unfold encodeRow in *. cbn [map] in *.
    rewrite concat_cons2, !sapp_assoc, str_app.
    rewrite scan_value by (by compute).
    rewrite sapp_nil_l, scan_comma, IH.
    by rewrite <- (assoc_L (++)).
Qed.

Lemma scan_unlinesWith vss rs :
  scan (unlinesWith eol (map encodeRow vss)) (Scanner rs [] EmptyString false)
  = Scanner (rs ++ map cellsOf vss) [] EmptyString false.
Proof.
  revert rs. induction vss as [|vs vss IH]; intros rs.
  - cbn. by rewrite app_nil_r.
  - cbn [map unlinesWith]. destruct vs as [|v vs].
    + unfold encodeRow at 1. cbn [map String.concat cellsOf].
      rewrite sapp_nil_l, eol_scan, IH. by rewrite <- (assoc_L (++)).
    + rewrite scan_row_cons_eol, IH. by rewrite <- (assoc_L (++)).
Qed.

End line_breaks.

Lemma scanRows_unlinesWith_CRLF vss :
  scanRows (unlinesWith CRLF (map encodeRow vss)) = map cellsOf vss.
Proof.
  unfold scanRows. rewrite scan_unlinesWith.
  - reflexivity.
  - intros rest. by compute.
  - intros rest rs r cl. reflexivity.
Qed.

Lemma scanRows_unlinesWith_LF vss :
  scanRows (unlinesWith (str LF) (map encodeRow vss)) = map cellsOf vss.
Proof.
  unfold scanRows. rewrite scan_unlinesWith.
  - reflexivity.
  - intros rest. by compute.
  - intros rest rs r cl. rewrite str_app. apply scan_LF.
Qed.

Lemma unlines_unlinesWith lines : unlines lines = unlinesWith (str LF) lines.
Proof.
  induction lines as [|l lines IH]; [done|].
  cbn [unlines unlinesWith]. by rewrite IH, str_app.
Qed.

(** *** Records by column position *)

Lemma fillRecord_dom hs index cells (record : gmap string string) :
  dom (fillRecord hs index cells record)
  = list_to_set (filter (fun h => h ≠ "__proto__") hs) ∪ dom record.
Proof.
  revert index record. induction hs as [|h hs IH]; intros index record.
  - cbn [fillRecord]. apply set_eq. intros x.
    rewrite elem_of_union, elem_of_list_to_set, elem_of_nil. tauto.
  - cbn [fillRecord]. rewrite IH, filter_cons. unfold Dict.assignString.
    destruct (String.eqb_spec h "__proto__") as [->|Hne].
    + by rewrite decide_False by (by intros []).
    + rewrite decide_True by done. rewrite dom_insert_L.
      apply set_eq. intros x.
      rewrite !elem_of_union, !elem_of_list_to_set, elem_of_cons,
        elem_of_singleton. tauto.
Qed.

Lemma fillRecord_position hs index cells (record : gmap string string) j h :
  NoDup hs → hs !! j = Some h → h ≠ "__proto__" →
  fillRecord hs index cells record !! h
  = Some (nullish (cells !! (index + j)) EmptyString).
Proof.
  intros Hnd. revert index record j.
  induction Hnd as [|h0 hs Hh0 Hnd IH]; intros index record j Hj Hproto;
    [done|].
  cbn [fillRecord]. destruct j as [|j].
  - injection Hj as <-. rewrite fillRecord_other by done.
    by rewrite DictFacts.assignString_own, Nat.add_0_r.
  - cbn in Hj. rewrite (IH _ _ j Hj Hproto). do 3 f_equal. lia.
Qed.

End MoreCsvFacts.

Import MoreSpec MoreCsvFacts.

(** X1.  A single written cell reads back as itself: the text the writer
    produces for a non-empty value, whatever characters it holds, decodes
    to one row of one cell with that value; for the empty value the text is
    empty and decodes to no row. *)
Theorem cell_roundtrip (v : string) :
  parseCsv (stringifyCsvValue (Some v))
  = if decide (v = EmptyString) then [] else [[v]].
Proof.
  apply (parse_single_cell _ v false).
  rewrite <- (sapp_nil_r (stringifyCsvValue (Some v))).
  rewrite scan_value by done. by rewrite sapp_nil_l.
Qed.

(** X2.  A quoted cell whose closing quote is missing is closed by the end
    of the input: the opening quote followed by the escaped value decodes
    to the value, and the decoder reports no error. *)
Theorem unterminated_quote_closes (v : string) :
  parseCsv (String dquote (doubleQuotes v))
  = if decide (v = EmptyString) then [] else [[v]].
Proof.
  apply (parse_single_cell _ v true).
  by rewrite scan_open, scan_quoted_open, sapp_nil_l.
Qed.

(** X3.  Whatever the input, malformed or not, every row the decoder
    returns has at least one cell. *)
Theorem parsed_rows_nonempty (content : string) :
  Forall (fun r : list string => r ≠ []) (parseCsv content).
Proof.
  assert (Forall (fun r : list string => r ≠ []) (scanRows content)) as Hrows.
  { unfold scanRows, flush.
    pose proof (scan_rows_nonempty content (Scanner [] [] EmptyString false))
      as Hscan.
    destruct (_ || _); [|by apply Hscan; constructor].
    apply Forall_app. split; [by apply Hscan; constructor|].
    constructor; [|constructor]. by destruct (row _). }
  unfold parseCsv. cbn zeta. destruct (trailingEmpty _); [|done].
  unfold pop. by apply Forall_take.
Qed.

(** X4.  Reading a table zips every data row against the header row by
    position: there is one record per data row; its fields are exactly the
    header names other than [__proto__], a name under which the reader's
    assignment creates no property; and, the header names being distinct,
    the field of the j-th header, if that is not [__proto__], is the j-th
    cell of the row, or the empty string where the row is too short.
    Cells beyond the header are ignored. *)
Theorem readCsv_fields_by_position (raw : string) (headers : list string)
    (data : list (list string)) :
  parseCsv raw = headers :: data →
  length (readCsv raw) = length data ∧
  ∀ i cells, data !! i = Some cells →
    ∃ r : gmap string string,
      readCsv raw !! i = Some r ∧
      dom r = list_to_set (filter (fun h => h ≠ "__proto__") headers) ∧
      r !! "__proto__" = None ∧
      (NoDup headers →
       ∀ j h, headers !! j = Some h → h ≠ "__proto__" →
              r !! h = Some (nullish (cells !! j) EmptyString)).
Proof.
  intros Hparse. unfold readCsv. rewrite Hparse. split.
  - apply length_map.
  - intros i cells Hcells. eexists. split_and!.
    + rewrite list_lookup_fmap, Hcells. reflexivity.
    + rewrite fillRecord_dom, dom_empty_L. apply set_eq. intros x.
      rewrite elem_of_union, elem_of_empty. tauto.
    + by rewrite fillRecord_proto.
    + intros Hnd j h Hj Hproto.
      by rewrite (fillRecord_position _ _ _ _ j).
Qed.

(** A header of three columns over a short row and a long row. *)
Lemma readCsv_fields_by_position_witness :
  length (readCsv ("a,b,c" +:+ str LF +:+ "1" +:+ str LF +:+ "1,2,3,4"
                   +:+ str LF)) = 2.
Proof.
  destruct (readCsv_fields_by_position
              ("a,b,c" +:+ str LF +:+ "1" +:+ str LF +:+ "1,2,3,4" +:+ str LF)
              ["a"; "b"; "c"] [["1"]; ["1"; "2"; "3"; "4"]]) as [Hlen _].
  - vm_compute. reflexivity.
  - exact Hlen.
Defined.

(** X5.  A written table reads the same with CRLF line breaks as with the
    line feeds the writer emits: the rows of the writer's text, each ended
    by a carriage return and a line feed instead, decode to the same
    records. *)
Theorem crlf_reads_like_lf (hs : list string)
    (records : list (gmap string string)) :
  Forall plainHeader hs →
  let lines := map encodeRow (map Some hs :: map (valuesOf hs) records) in
  writeCsv hs records = unlinesWith (str LF) lines ∧
  parseCsv (unlinesWith CRLF lines) = parseCsv (writeCsv hs records) ∧
  readCsv (unlinesWith CRLF lines) = readCsv (writeCsv hs records).
Proof.
  intros Hhs lines.
  assert (writeCsv hs records = unlinesWith (str LF) lines) as Hwritten.
  { rewrite writeCsv_unlines by done. apply unlines_unlinesWith. }
  assert (parseCsv (unlinesWith CRLF lines) = parseCsv (writeCsv hs records))
    as Hparse.
  { rewrite Hwritten. unfold parseCsv, lines.
    by rewrite scanRows_unlinesWith_CRLF, scanRows_unlinesWith_LF. }
  split_and!; [done..|]. unfold readCsv. by rewrite Hparse.
Qed.

(** The sample table with CRLF line breaks. *)
Lemma crlf_reads_like_lf_witness :
  readCsv (unlinesWith CRLF
             (map encodeRow (map Some sampleHeaders
                             :: map (valuesOf sampleHeaders) sampleRecords)))
  = readCsv (writeCsv sampleHeaders sampleRecords).
Proof.
  destruct (crlf_reads_like_lf sampleHeaders sampleRecords) as (_ & _ & H).
  - repeat constructor.
  - exact H.
Defined.

(** * The written archive report *)

Module ReportFacts.
Import Csv CsvSpec CsvFacts Reconcile Report.

Lemma setField_lookup_eq name value (record : gmap string string) :
  setField name value record !! name
  = match value with Some v => Some v | None => record !! name end.
Proof. destruct value; [apply lookup_insert_eq | done]. Qed.

Lemma setField_lookup_ne name name' value (record : gmap string string) :
  name ≠ name' → setField name value record !! name' = record !! name'.
Proof. intros Hne. destruct value; [by apply lookup_insert_ne | done]. Qed.

(** The cell written for each column of a row. *)
Lemma rowObject_cells r :
  map (fun h => nullish (rowObject r !! h) EmptyString) headers
  = [nullish (github_name r) EmptyString;
     nullish (github_name_with_owner r) EmptyString;
     nullish (github_archived r) EmptyString;
     nullish (github_visibility r) EmptyString;
     nullish (gitlab_path_with_namespace r) EmptyString;
     nullish (gitlab_archived r) EmptyString;
     status r].
Proof.
  destruct r as [[?|] [?|] [?|] [?|] [?|] [?|] ?]; vm_compute; reflexivity.
Qed.

Lemma headers_plain : Forall plainHeader headers.
Proof. repeat constructor. Qed.

Lemma written_survives rows :
  survivors headers (map rowObject rows) = map rowObject rows.
Proof.
  apply survivors_kept. intros r _. unfold headers.
  rewrite cellsRead_cons. discriminate.
Qed.

End ReportFacts.

Import Report ReportFacts.

(** X6.  The report that main writes from the rows of [compare] reads
    back to one record per row, none lost, so to as many records as the
    [not_archived] counter says; each record has the seven columns, holding
    the fields of its row, with the empty string for an undefined field. *)
Theorem report_reads_back (toLowerCase : string → string)
    (github gitlab : gmap string (gmap string string))
    (rows : list outcome) (i : nat) (r : outcome) :
  rows !! i = Some r →
  length (readCsv (written (compare toLowerCase github gitlab).1))
  = not_archived (compare toLowerCase github gitlab).2 ∧
  length (readCsv (written rows)) = length rows ∧
  readCsv (written rows) !! i
  = Some (list_to_map
            (zip headers
               [nullish (github_name r) EmptyString;
                nullish (github_name_with_owner r) EmptyString;
                nullish (github_archived r) EmptyString;
                nullish (github_visibility r) EmptyString;
                nullish (gitlab_path_with_namespace r) EmptyString;
                nullish (gitlab_archived r) EmptyString;
                Reconcile.status r])).
Proof.
  intros Hr.
  assert (∀ rows', length (readCsv (written rows')) = length rows') as Hlen.
  { intros rows'. unfold written.
    rewrite readCsv_writeCsv by apply headers_plain.
    by rewrite written_survives, !length_map. }
  split_and!.
  - rewrite Hlen, ReconcileFacts.compare_spec. cbn [fst snd not_archived].
    apply ReconcileFacts.rowFor_length. intros key.
    apply ReconcileFacts.sortedKeys_elem.
  - apply Hlen.
  - unfold written. rewrite readCsv_writeCsv by apply headers_plain.
    rewrite written_survives, list_lookup_fmap, list_lookup_fmap, Hr.
    cbn [fmap option_fmap option_map]. f_equal.
    unfold cellsRead, valuesOf.
    change (cellsOf (map (fun header => rowObject r !! header) headers))
      with (map (fun v => nullish v EmptyString)
              (map (fun header => rowObject r !! header) headers)).
    rewrite map_map, rowObject_cells. reflexivity.
Qed.

(** A report of one row with an undefined name. *)
Lemma report_reads_back_witness :
  readCsv (written [sampleRow]) !! 0
  = Some (list_to_map
            (zip headers
               [EmptyString; "o/r"; "false"; "public"; "g/r"; "false";
                "gitlab_not_archived"])).
Proof.
  exact (proj2 (proj2 (report_reads_back Builtins.lowerAscii ∅ ∅
                         [sampleRow] 0 sampleRow eq_refl))).
Defined.

(** * The environment file *)

Module EnvFacts.
Import Env MoreSpec.

Section with_builtins.

Variable trim : string → string.

Local Abbreviation parseLine := (Env.parseLine trim).
Local Abbreviation assign := (Env.assign trim).
Local Abbreviation loadEnv := (Env.loadEnv trim).

(** The environment after the assignments of some lines. *)
Lemma foldl_assign lines (env : gmap string string) key :
  foldl assign env lines !! key
  = match env !! key with
    | Some v => Some v
    | None => firstAssigned key (omap parseLine lines)
    end.
Proof.
  revert env. induction lines as [|line lines IH]; intros env.
  - cbn. by destruct (env !! key).
  - cbn [foldl omap list_omap]. rewrite IH. unfold Env.assign.
    destruct (parseLine line) as [[k v]|]; [|done].
    unfold firstAssigned. rewrite filter_cons. cbn [fst].
    destruct (env !! k) as [v0|] eqn:Hk.
    + destruct (decide (k = key)) as [->|Hne]; [by rewrite Hk|done].
    + destruct (decide (k = key)) as [->|Hne].
      * by rewrite lookup_insert_eq, Hk.
      * by rewrite lookup_insert_ne.
Qed.

End with_builtins.

(** *** Splitting into lines *)

Lemma splitLines_line line rest acc :
  noBreak line = true →
  splitLines (line +:+ rest) acc = splitLines rest (acc +:+ line).
Proof.
  revert acc. induction line as [|c line IH]; intros acc Hline.
  - by rewrite sapp_nil_l, sapp_nil_r.
  - cbn [noBreak] in Hline.
    apply andb_true_iff in Hline as [[Hcr Hlf]%andb_true_iff Hline].
    apply negb_true_iff in Hcr, Hlf.
    rewrite sapp_cons. cbn [splitLines]. rewrite Hcr, Hlf.
    rewrite IH by done. by rewrite sapp_snoc.
Qed.

Lemma splitLines_LF rest acc :
  splitLines (String LF rest) acc = acc :: splitLines rest EmptyString.
Proof. reflexivity. Qed.

Lemma splitLines_CRLF rest acc :
  splitLines (String CR (String LF rest)) acc
  = acc :: splitLines rest EmptyString.
Proof. reflexivity. Qed.

Lemma splitLines_join (eol : string) line lines :
  (∀ rest acc, splitLines (eol +:+ rest) acc
               = acc :: splitLines rest EmptyString) →
  Forall (fun l => noBreak l = true) (line :: lines) →
  splitLines (String.concat eol (line :: lines)) EmptyString = line :: lines.
Proof.
  intros Heol. revert line. induction lines as [|l lines IH]; intros line Hall.
  - apply Forall_cons in Hall as [Hline _]. cbn [String.concat].
    transitivity (splitLines (line +:+ EmptyString) EmptyString);
      [by rewrite sapp_nil_r|].
    rewrite splitLines_line by done. reflexivity.
  - apply Forall_cons in Hall as [Hline Hall].
    rewrite CsvFacts.concat_cons2, splitLines_line, Heol by done.
    by rewrite IH.
Qed.

(** *** Quotes around a value *)

Lemma endsWith_snoc c s : endsWith c (s +:+ str c) = true.
Proof.
  induction s as [|c' s IH]; [apply Ascii.eqb_refl|].
  rewrite sapp_cons. cbn [endsWith]. rewrite IH.
  destruct (s +:+ str c) eqn:Hs; [|done].
  destruct s; discriminate.
Qed.

Lemma dropLast_snoc c s : dropLast (s +:+ str c) = s.
Proof.
  induction s as [|c' s IH]; [done|].
  rewrite sapp_cons. cbn [dropLast]. rewrite IH.
  destruct (s +:+ str c) eqn:Hs; [|done].
  destruct s; discriminate.
Qed.

Lemma unquote_wrapped q s :
  q = dquote ∨ q = squote → unquote (String q (s +:+ str q)) = s.
Proof.
  intros Hq. unfold unquote.
  assert (endsWith q (String q (s +:+ str q)) = true) as Hend.
  { change (String q (s +:+ str q)) with (String q s +:+ str q).
    apply endsWith_snoc. }
  assert (sliceInner (String q (s +:+ str q)) = s) as Hinner.
  { cbn [sliceInner]. apply dropLast_snoc. }
  destruct Hq as [-> | ->]; cbn [startsWith]; rewrite Hend, Hinner.
  - reflexivity.
  - reflexivity.
Qed.

End EnvFacts.

Import Env EnvFacts.

(** X7.  Loading the environment file never changes a variable the
    environment already has, and never removes one: the environment before
    is contained in the environment after, whether or not there is a
    file. *)
Theorem loadEnv_keeps_environment (trim : string → string)
    (file : option string) (env : gmap string string) :
  env ⊆ loadEnv trim file env.
Proof.
  destruct file as [raw|]; [|done].
  apply map_subseteq_spec. intros key v Hkey.
  unfold loadEnv. by rewrite foldl_assign, Hkey.
Qed.

(** X8.  A variable the environment lacks gets the value of the first
    line of the file that assigns it; later assignments to it are ignored,
    and a variable no line assigns stays unset. *)
Theorem loadEnv_first_assignment_wins (trim : string → string)
    (raw : string) (env : gmap string string) (key : string) :
  env !! key = None →
  loadEnv trim (Some raw) env !! key
  = firstAssigned key (assignments trim raw).
Proof.
  intros Hkey. unfold loadEnv, assignments. by rewrite foldl_assign, Hkey.
Qed.

(** A file that assigns a variable twice, loaded into an environment that
    lacks it. *)
Lemma loadEnv_first_assignment_wins_witness :
  loadEnv Builtins.trimAscii
    (Some ("# settings" +:+ str LF +:+ "A = 1" +:+ str LF +:+ "A=2")) ∅ !! "A"
  = Some "1".
Proof.
  rewrite (loadEnv_first_assignment_wins Builtins.trimAscii
             ("# settings" +:+ str LF +:+ "A = 1" +:+ str LF +:+ "A=2")
             ∅ "A" (lookup_empty _)).
  vm_compute. reflexivity.
Defined.

(** X9.  Splitting a file into lines undoes joining them: lines without a
    carriage return or line feed, joined by line feeds or by CRLF, split
    back into the same lines. *)
Theorem splitLines_inverts_join (line : string) (lines : list string) :
  Forall (fun l => noBreak l = true) (line :: lines) →
  splitLines (String.concat (str LF) (line :: lines)) EmptyString
  = line :: lines ∧
  splitLines (String.concat CRLF (line :: lines)) EmptyString = line :: lines.
Proof.
  intros Hall. split; apply splitLines_join; try done.
Qed.

(** Three lines, one of them empty. *)
Lemma splitLines_inverts_join_witness :
  splitLines (String.concat CRLF ["A=1"; EmptyString; "B=2"]) EmptyString
  = ["A=1"; EmptyString; "B=2"].
Proof.
  apply (proj2 (splitLines_inverts_join "A=1" [EmptyString; "B=2"]
                  ltac:(repeat constructor))).
Defined.

(** X10.  A value wrapped in a pair of double quotes or in a pair of
    single quotes loses exactly that pair, whatever is inside; a value that
    starts with neither quote is kept as it is. *)
Theorem unquote_strips_one_pair (s value : string) :
  unquote (String dquote (s +:+ str dquote)) = s ∧
  unquote (String squote (s +:+ str squote)) = s ∧
  (startsWith dquote value || startsWith squote value = false →
   unquote value = value).
Proof.
  split_and!.
  - apply unquote_wrapped. by left.
  - apply unquote_wrapped. by right.
  - intros [Hd Hs]%orb_false_elim. unfold unquote. by rewrite Hd, Hs.
Qed.

(** * The paginated project listing *)

Module CrawlFacts.
Import Crawl MoreSpec.

Section with_server.

Context {A : Type}.
Variable parseInt : string → option Z.
Variable gitlabGet : Z → reply A.

Local Abbreviation fetchProjectsFrom :=
  (Crawl.fetchProjectsFrom parseInt gitlabGet).
Local Abbreviation Listing := (MoreSpec.Listing parseInt gitlabGet).

(** Along a listing the loop collects the pages in order, given fuel for
    its requests. *)
Lemma fetchProjectsFrom_listing page pages n :
  Listing page pages n →
  ∀ fuel records, n ≤ fuel →
    fetchProjectsFrom fuel page records
    = Some (Returned (records ++ concat pages)).
Proof.
  induction 1 as [page data nextPage Hdata Hget Hlast
                 |page nextPage Hget
                 |page nextPage Hget
                 |page data nextPage next pages n Hdata Hget Htruthy Hnext
                    Hpos Hrest IH];
    intros fuel records Hfuel; (destruct fuel as [|fuel]; [lia|]);
    cbn [Crawl.fetchProjectsFrom]; rewrite Hget.
  - destruct data as [|item data]; [done|]. cbn [concat]. rewrite app_nil_r.
    destruct Hlast as [Hfalsy | [Hnan | (k & Hk & Hlow)]].
    + by rewrite Hfalsy.
    + destruct (truthy nextPage); [by rewrite Hnan | done].
    + destruct (truthy nextPage); [|done]. rewrite Hk.
      by destruct (Z.ltb_spec k 1); [|lia].
  - by rewrite app_nil_r.
  - by rewrite app_nil_r.
  - destruct data as [|item data]; [done|]. rewrite Htruthy, Hnext.
    destruct (Z.ltb_spec next 1); [lia|].
    rewrite IH by lia. cbn [concat]. by rewrite (assoc_L (++)).
Qed.

(** On an endless server the loop reaches neither a break nor a throw. *)
Lemma fetchProjectsFrom_endless :
  endless parseInt gitlabGet →
  ∀ fuel page records, fetchProjectsFrom fuel page records = None.
Proof.
  intros Hendless. induction fuel as [|fuel IH]; intros page records; [done|].
  destruct (Hendless page) as (item & data & nextPage & next & Hget & Htruthy
                               & Hnext & Hpos).
  cbn [Crawl.fetchProjectsFrom]. rewrite Hget, Htruthy, Hnext.
  destruct (Z.ltb_spec next 1); [lia|]. apply IH.
Qed.

End with_server.

End CrawlFacts.

Import Crawl CrawlFacts.

(** X11.  When the server hands out its pages along the chain of next-page
    headers and then stops, [fetchProjects] returns all their records, in
    page order, after as many requests as the chain has; more fuel than
    that changes nothing. *)
Theorem fetchProjects_collects_pages {A : Type}
    (parseInt : string → option Z) (gitlabGet : Z → reply A)
    (pages : list (list A)) (n fuel : nat) :
  Listing parseInt gitlabGet 1 pages n →
  n ≤ fuel →
  fetchProjects parseInt gitlabGet fuel = Some (Returned (concat pages)).
Proof.
  intros Hlisting Hfuel. unfold fetchProjects.
  by rewrite (fetchProjectsFrom_listing _ _ _ _ _ Hlisting).
Qed.

(** Three linked pages, the last with an empty next-page header. *)
Lemma fetchProjects_collects_pages_witness :
  fetchProjects samplePageNumber threePages 5
  = Some (Returned [1; 2; 3; 4; 5]%Z).
Proof.
  apply (fetchProjects_collects_pages samplePageNumber threePages
           [[1; 2]; [3; 4]; [5]]%Z 3 5); [|lia].
  eapply (listing_next _ _ 1); [done | reflexivity | done | reflexivity | lia |].
  eapply (listing_next _ _ 2); [done | reflexivity | done | reflexivity | lia |].
  eapply (listing_last _ _ 3); [done | reflexivity | by left].
Defined.

(** X12.  [fetchProjects] has no guard against a listing that never ends:
    if every page the server can be asked for is non-empty and names a
    next page, the loop never returns and never throws, however many
    requests it is allowed. *)
Theorem fetchProjects_needs_an_end {A : Type}
    (parseInt : string → option Z) (gitlabGet : Z → reply A) (fuel : nat) :
  endless parseInt gitlabGet →
  fetchProjects parseInt gitlabGet fuel = None.
Proof. intros Hendless. by apply fetchProjectsFrom_endless. Qed.

(** A server whose pages all point back to the first. *)
Lemma fetchProjects_needs_an_end_witness :
  fetchProjects loopingPageNumber loopingServer 1000 = None.
Proof.
  apply fetchProjects_needs_an_end. intros page.
  exists page, [], (Some "1"), 1%Z. split_and!; [reflexivity..|lia].
Defined.

(** * Further properties of the detail-fetch pool *)

Module MorePoolFacts.
Import Pool PoolSpec PoolFacts.

Section with_fetch.

Variable fetchProjectDetail : Z → response.

Local Abbreviation settled := (PoolSpec.settled fetchProjectDetail).
Local Abbreviation invariant := (PoolSpec.invariant fetchProjectDetail).
Local Abbreviation runSchedule := (Pool.runSchedule fetchProjectDetail).

Lemma awaited_dec ws i : Decision (awaited ws i).
Proof.
  destruct (decide (Awaiting i ∈ ws)) as [Hin|Hout].
  - left. by apply list_elem_of_lookup in Hin.
  - right. intros [w Hw]. apply Hout. by eapply list_elem_of_lookup_2.
Qed.

(** In every state an item is as it was or as it will be. *)
Lemma invariant_item ps st finishedFetches i p :
  invariant ps st finishedFetches →
  ps !! i = Some p →
  projects st !! i = Some p ∨ projects st !! i = Some (settled p).
Proof.
  intros [_ Hpend Hset _ _ _ _ _ _ _ _ _] Hp.
  destruct (decide (index st ≤ i)) as [Hle|Hlt].
  { left. apply Hpend; [done | by left]. }
  destruct (awaited_dec (workers st) i) as [Haw|Hnaw].
  - left. apply Hpend; [done | by right].
  - right. apply Hset; [done | lia | done].
Qed.

Lemma settled_keeps p :
  id (settled p) = id p ∧
  (needsDetail p = false → settled p = p) ∧
  (truthy (last_activity_at p) = true →
   last_activity_at (settled p) = last_activity_at p).
Proof.
  unfold PoolSpec.settled. destruct (needsDetail p) eqn:Hneeds.
  - destruct (fetchProjectDetail (id p)) as [lru la|message]; [|done].
    split_and!; [done..|]. intros Hla. cbn. by rewrite Hla.
  - done.
Qed.

Lemma measure_start parsed ps :
  measure (start parsed ps) = 2 * length ps + workerCount parsed ps.
Proof.
  unfold measure, start. cbn [projects index workers]. rewrite Nat.sub_0_r.
  f_equal. induction (workerCount parsed ps) as [|n IH]; [done|].
  cbn. cbn in IH. by rewrite IH.
Qed.

Lemma workerCount_le parsed ps :
  workerCount parsed ps ≤ 16 ∧ workerCount parsed ps ≤ length ps.
Proof.
  unfold workerCount, concurrency.
  destruct parsed as [n|]; [destruct (Z.ltb_spec n 1)|]; lia.
Qed.

End with_fetch.

End MorePoolFacts.

Import MorePoolFacts.

(** X13.  The number of workers never exceeds 16 nor the number of items;
    there is at least one worker as soon as there is an item; and where the
    configured concurrency is not a number or is below one, the default of
    eight applies. *)
Theorem workerCount_bounds (parsed : option Z) (ps : list project) :
  workerCount parsed ps ≤ 16 ∧
  workerCount parsed ps ≤ length ps ∧
  (ps ≠ [] → 1 ≤ workerCount parsed ps) ∧
  (parsed = None ∨ (∃ n, parsed = Some n ∧ (n < 1)%Z) →
   workerCount parsed ps = 8 `min` length ps).
Proof.
  split_and!.
  - apply workerCount_le.
  - apply workerCount_le.
  - intros Hps. destruct (workerCount parsed ps) eqn:Hcount; [|lia].
    by apply workerCount_zero in Hcount.
  - unfold workerCount, concurrency. intros [-> | (n & -> & Hn)].
    + lia.
    + destruct (Z.ltb_spec n 1); lia.
Qed.

(** X14.  In every state the pool reaches, under any interleaving, the
    items are the ones it was given, in the same order: none is added,
    dropped or moved, no identifier changes, an item that already had the
    field is untouched, and a last-activity timestamp that was present is
    never overwritten. *)
Theorem pool_keeps_its_items (fetchProjectDetail : Z → response)
    (parsed : option Z) (ps : list project) (schedule : list nat)
    (st : pool) :
  runSchedule fetchProjectDetail schedule (start parsed ps) = Some st →
  length (projects st) = length ps ∧
  map id (projects st) = map id ps ∧
  ∀ i p, ps !! i = Some p →
    ∃ p', projects st !! i = Some p' ∧
      (needsDetail p = false → p' = p) ∧
      (truthy (last_activity_at p) = true →
       last_activity_at p' = last_activity_at p).
Proof.
  intros Hrun.
  destruct (invariant_run fetchProjectDetail schedule ps _ [] st
              (invariant_start fetchProjectDetail parsed ps) Hrun)
    as [finishedFetches Hinv].
  pose proof (inv_length _ _ _ _ Hinv) as Hlen.
  assert (∀ i p, ps !! i = Some p →
            ∃ p', projects st !! i = Some p' ∧ id p' = id p ∧
              (needsDetail p = false → p' = p) ∧
              (truthy (last_activity_at p) = true →
               last_activity_at p' = last_activity_at p)) as Hitems.
  { intros i p Hp.
    destruct (settled_keeps fetchProjectDetail p) as (Hid & Hsame & Hla).
    destruct (invariant_item _ _ _ _ _ _ Hinv Hp) as [Hi | Hi].
    - by exists p.
    - by eexists. }
  split_and!; [done| |].
  - apply list_eq. intros i. rewrite !list_lookup_fmap.
    destruct (ps !! i) as [p|] eqn:Hp.
    + destruct (Hitems i p Hp) as (p' & -> & Hid & _). cbn. by rewrite Hid.
    + apply lookup_ge_None in Hp.
      rewrite (proj2 (lookup_ge_None (projects st) i)) by lia. done.
  - intros i p Hp. destruct (Hitems i p Hp) as (p' & ? & _ & ? & ?).
    by exists p'.
Qed.

(** The round-robin run of scenario C. *)
Lemma pool_keeps_its_items_witness :
  map id (projects scenarioC_final) = map id scenarioC_items.
Proof.
  apply (pool_keeps_its_items scenarioC_fetch scenarioC_parsed scenarioC_items
           roundRobin scenarioC_final).
  vm_compute. reflexivity.
Defined.

(** X15.  The pool cannot run for ever, whatever the interleaving: a run
    on n items takes at most two steps per item and one per worker, so at
    most 2 n + 16 steps. *)
Theorem pool_run_is_bounded (fetchProjectDetail : Z → response)
    (parsed : option Z) (ps : list project) (schedule : list nat)
    (st : pool) :
  runSchedule fetchProjectDetail schedule (start parsed ps) = Some st →
  length schedule ≤ 2 * length ps + workerCount parsed ps ∧
  length schedule ≤ 2 * length ps + 16.
Proof.
  intros Hrun%run_bounded. rewrite measure_start in Hrun.
  pose proof (workerCount_le parsed ps). lia.
Qed.

(** The round-robin run of scenario C takes 23 steps. *)
Lemma pool_run_is_bounded_witness :
  length roundRobin ≤ 2 * length scenarioC_items + 16.
Proof.
  apply (pool_run_is_bounded scenarioC_fetch scenarioC_parsed scenarioC_items
           roundRobin scenarioC_final).
  vm_compute. reflexivity.
Defined.

(** * Further properties of the comparisons *)

Module MoreCompareFacts.
Import Reconcile ReconcileSpec ReconcileFacts MoreSpec.

Section with_builtins.

Variable trim : string → string.
Variable toLowerCase : string → string.
Variable dateTime : string → option Z.

Local Abbreviation branchOf := (ReconcileSpec.branchOf toLowerCase).
Local Abbreviation tally := (ReconcileSpec.tally toLowerCase).
Local Abbreviation rowFor := (ReconcileSpec.rowFor toLowerCase).

(** *** The right side matters only at the left keys *)

Lemma rowFor_agree github gitlab gitlab' (keys : list string) :
  (∀ key, key ∈ keys → gitlab !! key = gitlab' !! key) →
  omap (rowFor github gitlab) keys = omap (rowFor github gitlab') keys.
Proof.
  induction keys as [|key keys IH]; intros Hagree; [done|].
  assert (rowFor github gitlab key = rowFor github gitlab' key) as Hkey.
  { unfold ReconcileSpec.rowFor. by rewrite (Hagree key) by left. }
  cbn [omap list_omap]. rewrite Hkey, IH; [done|].
  intros k Hk. apply Hagree. by right.
Qed.

Lemma tally_agree b gitlab gitlab' (keys : list string) :
  (∀ key, key ∈ keys → gitlab !! key = gitlab' !! key) →
  tally b gitlab keys = tally b gitlab' keys.
Proof.
  induction keys as [|key keys IH]; intros Hagree; [done|].
  assert (branchOf gitlab key = branchOf gitlab' key) as Hkey.
  { unfold ReconcileSpec.branchOf. by rewrite (Hagree key) by left. }
  rewrite !tally_cons, Hkey, IH; [done|].
  intros k Hk. apply Hagree. by right.
Qed.

Lemma tally_empty b (keys : list string) :
  tally b ∅ keys = if decide (b = MissingOnRight) then length keys else 0.
Proof.
  induction keys as [|key keys IH].
  - by case_decide.
  - rewrite tally_cons, IH. unfold ReconcileSpec.branchOf.
    rewrite lookup_empty. cbn [length].
    destruct b; repeat case_decide; try done.
Qed.

Lemma rowFor_empty github (keys : list string) : omap (rowFor github ∅) keys = [].
Proof.
  induction keys as [|key keys IH]; [done|].
  cbn [omap list_omap]. unfold ReconcileSpec.rowFor at 1.
  rewrite lookup_empty. by destruct (github !! key).
Qed.

(** *** The counters of the staleness comparison *)

Local Abbreviation trimmedName := (Reconcile.trimmedName trim).
Local Abbreviation compareStep :=
  (LastChange.compareStep trim toLowerCase dateTime).

Lemma staleness_step_counts gitlabByName results c repo :
  let st := compareStep gitlabByName (results, c) repo in
  LastChange.compared st.2 + LastChange.missingInGitLab st.2
  = LastChange.compared c + LastChange.missingInGitLab c
    + (if decide (trimmedName repo ≠ EmptyString) then 1 else 0) ∧
  LastChange.missingInGitLab st.2
  = LastChange.missingInGitLab c
    + (if decide (trimmedName repo ≠ EmptyString ∧
                  ¬ LastChangeSpec.joined trim toLowerCase gitlabByName repo)
       then 1 else 0).
Proof.
  cbn zeta.
  destruct (String.eqb_spec (trimmedName repo) EmptyString) as [Hempty|Hname].
  { rewrite !decide_False by tauto. unfold LastChange.compareStep.
    apply String.eqb_eq in Hempty. rewrite Hempty. cbn. lia. }
  rewrite decide_True by done.
  destruct (decide (LastChangeSpec.joined trim toLowerCase gitlabByName repo))
    as [Hjoined|Hnot].
  - rewrite decide_False by tauto.
    destruct Hjoined as [_ [project Hproject]].
    destruct (LastChangeFacts.compareStep_joined trim toLowerCase dateTime
                gitlabByName results c repo project Hname Hproject)
      as (r & c' & -> & _ & _ & Hc' & Hm' & _).
    cbn [snd]. lia.
  - rewrite decide_True by done. unfold LastChange.compareStep.
    apply String.eqb_neq in Hname as Hneq. rewrite Hneq.
    destruct (Dict.properties
                (Dict.get gitlabByName (toLowerCase (trimmedName repo))))
      as [project|] eqn:Hproject.
    + exfalso. apply Hnot. split; [done | by eexists].
    + cbn. lia.
Qed.

End with_builtins.

End MoreCompareFacts.

Import MoreCompareFacts.

(** X16.  The archive cross-check looks at the right side only under the
    keys of the left side: two right mappings that agree there give the
    same rows and counters.  Against an empty right side every left key is
    counted missing and no row is emitted; an empty left side gives no row
    and all counters zero. *)
Theorem compare_right_side_locality (toLowerCase : string → string)
    (github gitlab gitlab' : gmap string (gmap string string)) :
  (∀ key, is_Some (github !! key) → gitlab !! key = gitlab' !! key) →
  compare toLowerCase github gitlab = compare toLowerCase github gitlab' ∧
  compare toLowerCase github ∅
  = ([], Reconcile.Counters (size github) 0 0 (size github)) ∧
  compare toLowerCase ∅ gitlab = ([], Reconcile.Counters 0 0 0 0).
Proof.
  intros Hagree. split_and!.
  - rewrite !compare_spec.
    assert (∀ key, key ∈ sortedKeys github → gitlab !! key = gitlab' !! key)
      as Hkeys.
    { intros key Hkey. by apply Hagree, sortedKeys_elem. }
    by rewrite (rowFor_agree _ _ _ gitlab' _ Hkeys),
               !(tally_agree _ _ _ gitlab' _ Hkeys).
  - rewrite compare_spec, rowFor_empty, !tally_empty, sortedKeys_length.
    reflexivity.
  - rewrite compare_spec.
    assert (sortedKeys (∅ : gmap string (gmap string string)) = []) as ->.
    { apply Permutation_nil_r. rewrite sortedKeys_perm.
      by rewrite map_to_list_empty. }
    reflexivity.
Qed.

(** The mappings of scenario A with a project added on the right that
    the left lacks. *)
Lemma compare_right_side_locality_witness :
  compare Builtins.lowerAscii
    {["foo" := {["name" := "Foo"]}; "bar" := {["name" := "bar"]}]}
    {["foo" := {["name" := "foo"; "archived" := "true"]};
      "bar" := {["name" := "BAR"; "archived" := "false"]}]}
  = compare Builtins.lowerAscii
      {["foo" := {["name" := "Foo"]}; "bar" := {["name" := "bar"]}]}
      (<["extra" := ∅]>
         {["foo" := {["name" := "foo"; "archived" := "true"]};
           "bar" := {["name" := "BAR"; "archived" := "false"]}]}).
Proof.
  apply compare_right_side_locality. intros key Hkey.
  destruct (decide (key = "extra")) as [->|Hne].
  - vm_compute in Hkey. by destruct Hkey.
  - symmetry. apply lookup_insert_ne. congruence.
Defined.

(** X17.  In the staleness comparison every GitHub record with a name is
    counted once, as compared or as missing in GitLab: the two counters add
    up to the number of named records, repeated names included.  A record
    is counted as compared when some GitLab record has its lowercased
    trimmed name, and also, whatever the GitLab file holds, when that name
    is the name of a member of [Object.prototype], which the lookup then
    finds; it is counted as missing otherwise. *)
Theorem staleness_counts_every_named_record (trim toLowerCase : string → string)
    (dateTime : string → option Z)
    (githubRecords gitlabRecords : list (gmap string string)) :
  let run := LastChange.compareLastChanges trim toLowerCase dateTime
               githubRecords gitlabRecords in
  let key := fun r => toLowerCase (Reconcile.trimmedName trim r) in
  LastChange.compared run.2 + LastChange.missingInGitLab run.2
  = length (MoreSpec.namedRecords trim githubRecords) ∧
  LastChange.compared run.2
  = length (filter
              (fun r => Reconcile.trimmedName trim r ≠ EmptyString ∧
                 (Dict.inherited (key r) = true ∨
                  LastChangeSpec.counterpart trim toLowerCase gitlabRecords r))
              githubRecords) ∧
  LastChange.missingInGitLab run.2
  = length (filter
              (fun r => Reconcile.trimmedName trim r ≠ EmptyString ∧
                 Dict.inherited (key r) = false ∧
                 ¬ LastChangeSpec.counterpart trim toLowerCase gitlabRecords r)
              githubRecords).
Proof.
  cbn zeta.
  assert (LastChange.compared
            (LastChange.compareLastChanges trim toLowerCase dateTime
               githubRecords gitlabRecords).2
          + LastChange.missingInGitLab
              (LastChange.compareLastChanges trim toLowerCase dateTime
                 githubRecords gitlabRecords).2
          = length (MoreSpec.namedRecords trim githubRecords) ∧
          LastChange.missingInGitLab
            (LastChange.compareLastChanges trim toLowerCase dateTime
               githubRecords gitlabRecords).2
          = length (filter
                      (fun r => Reconcile.trimmedName trim r ≠ EmptyString ∧
                         ¬ LastChangeSpec.joined trim toLowerCase
                             (LastChange.indexByName trim toLowerCase
                                gitlabRecords) r)
                      githubRecords)) as [Hboth Hmissing].
  { unfold LastChange.compareLastChanges, MoreSpec.namedRecords.
    set (idx := LastChange.indexByName trim toLowerCase gitlabRecords).
    induction githubRecords as [|repo records IH] using rev_ind; [done|].
    rewrite foldl_app, !filter_app, !length_app. cbn [foldl].
    destruct (foldl _ _ records) as [results c]. cbn [fst snd] in IH.
    destruct (staleness_step_counts trim toLowerCase dateTime idx results c repo)
      as [Hboth Hmissing].
    cbn zeta in Hboth, Hmissing. rewrite !filter_cons, !filter_nil.
    destruct IH as [IH1 IH2].
    split; [rewrite Hboth | rewrite Hmissing]; repeat case_decide;
      cbn [length]; lia. }
  destruct (LastChangeFacts.compareLastChanges_inv trim toLowerCase dateTime
              githubRecords gitlabRecords) as (Hc & _ & _ & _ & Hnames & _).
  cbn zeta in Hc, Hnames. split_and!.
  - exact Hboth.
  - rewrite Hc, <- (length_map LastChange.name), Hnames, length_map.
    f_equal. apply list_filter_iff. intros r.
    apply (LastChangeFacts.joined_spec trim toLowerCase dateTime).
  - rewrite Hmissing. f_equal. apply list_filter_iff. intros r.
    rewrite (LastChangeFacts.joined_spec trim toLowerCase dateTime).
    destruct (Dict.inherited (toLowerCase (Reconcile.trimmedName trim r)));
      split.
    + intros [Hname Hnot]. exfalso. apply Hnot. by auto.
    + by intros (_ & ? & _).
    + intros [Hname Hnot]. split_and!; try done.
      intros Hc'. apply Hnot. by auto.
    + intros (Hname & _ & Hnot). split; [done|].
      intros [_ [?|?]]; done.
Qed.

(** * The legacy-project audit *)

Module LegacyFacts.
Import Legacy MoreSpec.

Section with_builtins.

Variable trim : string → string.
Variable toLowerCase : string → string.

Local Abbreviation key := (Legacy.key trim toLowerCase).
Local Abbreviation indexStep := (Legacy.indexStep trim toLowerCase).
Local Abbreviation auditStep := (Legacy.auditStep trim toLowerCase).
Local Abbreviation onGithub := (MoreSpec.onGithub trim toLowerCase).

(** [githubByName] has a key exactly when it is not empty, is not the
    name of a member of [Object.prototype], and some record has it. *)
Lemma index_is_Some githubRecords k :
  is_Some (foldl indexStep ∅ githubRecords !! k)
  ↔ k ≠ EmptyString ∧ Dict.inherited k = false ∧
    Exists (fun repo => key repo = k) githubRecords.
Proof.
  induction githubRecords as [|repo records IH] using rev_ind.
  - cbn [foldl]. rewrite lookup_empty, Exists_nil.
    split; [by intros [? ?] | tauto].
  - rewrite foldl_app, Exists_app, Exists_cons, Exists_nil. cbn [foldl].
    unfold Legacy.indexStep at 1.
    destruct (String.eqb_spec (key repo) EmptyString) as [Hempty|Hkey].
    { rewrite IH. split; [tauto|]. intros (Hk & ? & [? | [<- | []]]); tauto. }
    unfold Dict.get.
    destruct (foldl indexStep ∅ records !! key repo) as [seen|] eqn:Hseen.
    + rewrite IH. split; [tauto|].
      intros (Hk & ? & [? | [<- | []]]); [tauto|].
      split_and!; try done. apply IH. by eexists.
    + destruct (Dict.inherited (key repo)) eqn:Hin.
      * rewrite IH. split; [tauto|].
        intros (Hk & ? & [? | [<- | []]]); [tauto | congruence].
      * destruct (decide (key repo = k)) as [<-|Hne].
        -- rewrite lookup_insert_eq. split; [|by eexists]. tauto.
        -- rewrite lookup_insert_ne by done. rewrite IH. tauto.
Qed.

(** What the lookup in the index finds. *)
Lemma index_found githubRecords k :
  k ≠ EmptyString →
  is_Some (Dict.properties (Dict.get (foldl indexStep ∅ githubRecords) k))
  ↔ Dict.inherited k = true ∨ Exists (fun repo => key repo = k) githubRecords.
Proof.
  intros Hk. pose proof (index_is_Some githubRecords k) as Hindex.
  unfold Dict.get.
  destruct (foldl indexStep ∅ githubRecords !! k) as [repo|] eqn:Hrepo.
  - cbn [Dict.properties]. split; [|by eexists].
    intros _. right. apply Hindex. by eexists.
  - destruct (Dict.inherited k) eqn:Hin; cbn [Dict.properties].
    + split; [by left | by eexists].
    + split; [by intros [? ?]|]. intros [?|Hex]; [done|].
      exfalso. assert (is_Some (@None (gmap string string))) as [? ?]; [|done].
      apply Hindex. tauto.
Qed.

(** The names pushed by the second loop. *)
Lemma auditStep_fold githubByName projects :
  let run := foldl (auditStep githubByName) ([], []) projects in
  let found := fun p =>
    is_Some (Dict.properties (Dict.get githubByName (key p))) in
  map m_name run.1
  = map (fun p : gmap string string => p !! "name")
      (filter found (filter (fun p => key p ≠ EmptyString) projects)) ∧
  map u_name run.2
  = map (fun p : gmap string string => p !! "name")
      (filter (fun p => ¬ found p)
         (filter (fun p => key p ≠ EmptyString) projects)).
Proof.
  induction projects as [|project projects IH] using rev_ind; [done|].
  cbn zeta in *. rewrite foldl_app, !filter_app, !map_app. cbn [foldl].
  destruct (foldl (auditStep githubByName) ([], []) projects)
    as [matches missing].
  cbn [fst snd] in IH. destruct IH as [IHm IHu].
  rewrite (filter_cons _ project), filter_nil.
  destruct (String.eqb_spec (key project) EmptyString) as [Hempty|Hkey].
  { rewrite decide_False by tauto. unfold Legacy.auditStep.
    apply String.eqb_eq in Hempty. rewrite Hempty. cbn [fst snd].
    rewrite !filter_nil, !app_nil_r. done. }
  rewrite decide_True by done. rewrite !filter_cons, !filter_nil.
  destruct (decide (is_Some (Dict.properties
                               (Dict.get githubByName (key project)))))
    as [[repo Hrepo]|Hnot].
  - rewrite decide_False by (intros Hnot; apply Hnot; by eexists).
    unfold Legacy.auditStep.
    apply String.eqb_neq in Hkey. rewrite Hkey, Hrepo. cbn [fst snd].
    rewrite map_app, IHm, IHu, app_nil_r. done.
  - rewrite decide_True by done. unfold Legacy.auditStep.
    apply String.eqb_neq in Hkey. rewrite Hkey.
    destruct (Dict.properties (Dict.get githubByName (key project)))
      as [repo|] eqn:Hrepo; [exfalso; apply Hnot; by eexists|].
    cbn [fst snd]. rewrite map_app, IHm, IHu, app_nil_r. done.
Qed.

Lemma filter_agree {B} (P Q : B → Prop) `{∀ x, Decision (P x)}
    `{∀ x, Decision (Q x)} (l : list B) :
  (∀ x, x ∈ l → (P x ↔ Q x)) → filter P l = filter Q l.
Proof.
  induction l as [|x l IH]; intros Hiff; [done|].
  rewrite !filter_cons.
  assert (filter P l = filter Q l) as ->.
  { apply IH. intros y Hy. apply Hiff. by right. }
  pose proof (Hiff x ltac:(left)).
  destruct (decide (P x)), (decide (Q x)); tauto.
Qed.

Lemma filter_split_length {B} (P : B → Prop) `{∀ x, Decision (P x)}
    (l : list B) :
  length (filter P l) + length (filter (fun x => ¬ P x) l) = length l.
Proof.
  induction l as [|x l IH]; [done|].
  rewrite !filter_cons. repeat case_decide; cbn [length]; try tauto; lia.
Qed.

End with_builtins.

End LegacyFacts.

Import Legacy LegacyFacts.

(** X18.  The legacy audit puts every legacy project that has a name into
    exactly one of its two lists, in file order: into the matches when some
    GitHub record has the same lowercased trimmed name, and also, whatever
    the GitHub file holds, when that name is the name of a member of
    [Object.prototype], which the lookup then finds; into the missing ones
    otherwise.  Projects outside the legacy prefix or without a name are
    in neither. *)
Theorem legacy_audit_partitions (trim toLowerCase : string → string)
    (legacyPrefix : string)
    (githubRecords gitlabRecords : list (gmap string string)) :
  let run := audit trim toLowerCase legacyPrefix githubRecords gitlabRecords in
  let legacy := audited trim toLowerCase legacyPrefix gitlabRecords in
  let found := fun p =>
    Dict.inherited (key trim toLowerCase p) = true ∨
    onGithub trim toLowerCase githubRecords p in
  map m_name run.1
  = map (fun p : gmap string string => p !! "name") (filter found legacy) ∧
  map u_name run.2
  = map (fun p : gmap string string => p !! "name")
      (filter (fun p => ¬ found p) legacy) ∧
  length run.1 + length run.2 = length legacy.
Proof.
  cbn zeta. unfold audit, audited.
  set (idx := foldl (indexStep trim toLowerCase) ∅ githubRecords).
  set (legacy := filter (fun p => isLegacy toLowerCase legacyPrefix p = true)
                   gitlabRecords).
  set (found := fun p =>
         Dict.inherited (key trim toLowerCase p) = true ∨
         onGithub trim toLowerCase githubRecords p).
  destruct (auditStep_fold trim toLowerCase idx legacy) as [Hm Hu].
  cbn zeta in Hm, Hu.
  assert (∀ p, p ∈ filter (fun p => key trim toLowerCase p ≠ EmptyString) legacy →
            (is_Some (Dict.properties
                        (Dict.get idx (key trim toLowerCase p)))
             ↔ found p)) as Hiff.
  { intros p [Hp _]%list_elem_of_filter. unfold idx, found.
    by rewrite index_found. }
  assert (map m_name (foldl (auditStep trim toLowerCase idx) ([], []) legacy).1
          = map (fun p : gmap string string => p !! "name")
              (filter found
                 (filter (fun p => key trim toLowerCase p ≠ EmptyString) legacy)))
    as Hm'.
  { rewrite Hm. f_equal. by apply filter_agree. }
  assert (map u_name (foldl (auditStep trim toLowerCase idx) ([], []) legacy).2
          = map (fun p : gmap string string => p !! "name")
              (filter (fun p => ¬ found p)
                 (filter (fun p => key trim toLowerCase p ≠ EmptyString) legacy)))
    as Hu'.
  { rewrite Hu. f_equal. apply filter_agree. intros p Hp.
    by rewrite (Hiff p Hp). }
  split_and!; [done..|].
  rewrite <- (length_map m_name), <- (length_map u_name), Hm', Hu', !length_map.
  apply filter_split_length.
Qed.

(** One legacy project on GitHub, one not, one named constructor, and one
    project outside the group. *)
Lemma legacy_audit_partitions_witness :
  map m_name
    (audit Builtins.trimAscii Builtins.lowerAscii "acme/legacy"
       legacyGithub legacyGitlab).1 = [Some "billing"; Some "constructor"] ∧
  map u_name
    (audit Builtins.trimAscii Builtins.lowerAscii "acme/legacy"
       legacyGithub legacyGitlab).2 = [Some "wiki"].
Proof.
  destruct (legacy_audit_partitions Builtins.trimAscii Builtins.lowerAscii
              "acme/legacy" legacyGithub legacyGitlab) as (Hm & Hu & _).
  split; [rewrite Hm | rewrite Hu]; vm_compute; reflexivity.
Defined.

(** * From a crawler's report to the loader *)

Module PipelineFacts.
Import Csv CsvSpec CsvFacts Reconcile ReconcileSpec ReconcileFacts MoreSpec.

Section with_builtins.

Variable trim : string → string.
Variable toLowerCase : string → string.

Local Abbreviation trimmedName := (Reconcile.trimmedName trim).
Local Abbreviation keyOf := (ReconcileSpec.keyOf trim toLowerCase).
Local Abbreviation matching := (ReconcileSpec.matching trim toLowerCase).

Lemma readCsv_writeCsv_wide hs (records : list (gmap string string)) :
  Forall plainHeader hs → 2 ≤ length hs →
  readCsv (writeCsv hs records) = map (decoded hs) records.
Proof.
  intros Hplain Hlen. rewrite readCsv_writeCsv by done.
  rewrite survivors_kept.
  - destruct hs as [|h hs]; [cbn in Hlen; lia|]. by rewrite cellsOf_headers.
  - intros r _. destruct hs as [|h0 [|h1 hs]]; cbn in Hlen; try lia.
    rewrite cellsRead_cons. discriminate.
Qed.

Lemma decoded_name hs (r : gmap string string) :
  "name" ∈ hs → trimmedName (decoded hs r) = trimmedName r.
Proof.
  intros Hin. unfold Reconcile.trimmedName, decoded. f_equal.
  destruct hs as [|h hs]; [by apply elem_of_nil in Hin|].
  rewrite cellsRead_cons.
  pose proof (fillRecord_values (fun h => nullish (r !! h) EmptyString)
                (h :: hs) [] ∅ "name" Hin ltac:(done)) as Hfield.
  cbn [length app] in Hfield. rewrite Hfield.
  by destruct (r !! "name") as [[|c v]|].
Qed.

Lemma memberNamed_decoded hs (r : gmap string string) :
  "name" ∈ hs →
  ReconcileSpec.memberNamed trim toLowerCase (decoded hs r)
  ↔ ReconcileSpec.memberNamed trim toLowerCase r.
Proof.
  intros Hin. unfold ReconcileSpec.memberNamed, ReconcileSpec.keyOf.
  by rewrite (decoded_name hs r Hin).
Qed.

Lemma matching_decoded hs key (records : list (gmap string string)) :
  "name" ∈ hs →
  matching key (map (decoded hs) records)
  = map (decoded hs) (matching key records).
Proof.
  intros Hin. unfold ReconcileSpec.matching.
  induction records as [|r records IH]; [done|].
  cbn [map]. rewrite !filter_cons, IH.
  unfold ReconcileSpec.keyOf. rewrite (decoded_name hs r Hin).
  by case_decide.
Qed.

End with_builtins.

End PipelineFacts.

Import PipelineFacts.

(** X19.  What a crawler writes, the loader finds again: for records
    written under at least two plain column names, one of them the name
    column and none of them the name of a member of [Object.prototype], so
    that the writer reads own properties only, loading the written file
    throws exactly when loading the records themselves does, and otherwise
    gives the same mapping, each record as it comes back from the table.
    The text form in between changes neither the keys nor which record
    wins. *)
Theorem loader_after_writer (trim toLowerCase : string → string)
    (hs : list string) (records : list (gmap string string)) :
  Forall plainHeader hs →
  Forall (fun h => Dict.inherited h = false) hs →
  2 ≤ length hs →
  "name" ∈ hs →
  canonical <$> loadGithubReport trim toLowerCase (writeCsv hs records)
  = (fun report => decoded hs <$> canonical report)
    <$> loadRecords trim toLowerCase records ∧
  canonical <$> loadGitlabReport trim toLowerCase (writeCsv hs records)
  = (fun report => decoded hs <$> canonical report)
    <$> loadRecords trim toLowerCase records.
Proof.
  intros Hplain _ Hlen Hname.
  assert (canonical
            <$> loadRecords trim toLowerCase (readCsv (writeCsv hs records))
          = (fun report => decoded hs <$> canonical report)
            <$> loadRecords trim toLowerCase records) as Hload; [|done].
  rewrite readCsv_writeCsv_wide by done.
  destruct (loadRecords trim toLowerCase records) as [report|] eqn:Hrecords.
  - destruct (loadRecords_Some _ _ _ _ Hrecords) as (Hok & _ & _).
    assert (Forall (fun r => ¬ memberNamed trim toLowerCase r)
              (map (decoded hs) records)) as Hok'.
    { apply Forall_fmap. eapply Forall_impl; [exact Hok|].
      intros r Hr. cbn. by rewrite memberNamed_decoded. }
    destruct (loadRecords_returns _ _ _ Hok') as [report' Hdecoded].
    rewrite Hdecoded. cbn. f_equal. apply map_eq. intros k.
    rewrite lookup_fmap.
    rewrite (loadRecords_canonical _ _ _ _ _ Hdecoded),
            (loadRecords_canonical _ _ _ _ _ Hrecords),
            matching_decoded by done.
    by destruct (matching trim toLowerCase k records).
  - apply loadRecords_None in Hrecords.
    assert (loadRecords trim toLowerCase (map (decoded hs) records) = None)
      as ->; [|done].
    apply loadRecords_None. apply Exists_exists in Hrecords as (r & Hin & Hr).
    apply Exists_exists. exists (decoded hs r). split.
    + apply list_elem_of_fmap. by exists r.
    + by apply memberNamed_decoded.
Qed.

(** The report of the GitHub crawler for two repositories. *)
Lemma loader_after_writer_witness :
  canonical <$> loadGithubReport Builtins.trimAscii Builtins.lowerAscii
                  (writeCsv githubReportHeaders crawledRepos)
  = (fun report => decoded githubReportHeaders <$> canonical report)
    <$> loadRecords Builtins.trimAscii Builtins.lowerAscii crawledRepos.
Proof.
  refine (proj1 (loader_after_writer Builtins.trimAscii Builtins.lowerAscii
                   githubReportHeaders crawledRepos _ _ _ _)).
  - repeat constructor.
  - repeat (constructor; [vm_compute; reflexivity|]). constructor.
  - cbn. lia.
  - left.
Defined.

(** X20.  In every state the pool reaches, under any interleaving, no two
    workers are suspended on the same item, every item a worker is
    suspended on lacks the field, and the remote calls issued so far are
    one for each claimed item that lacked the field, in claim order: no
    item is ever fetched twice. *)
Theorem pool_single_fetch_per_item (fetchProjectDetail : Z → response)
    (parsed : option Z) (ps : list project) (schedule : list nat)
    (st : pool) :
  Pool.runSchedule fetchProjectDetail schedule (start parsed ps) = Some st →
  (∀ w w' i, workers st !! w = Some (Awaiting i) →
             workers st !! w' = Some (Awaiting i) → w = w') ∧
  (∀ w i, workers st !! w = Some (Awaiting i) →
          ∃ p, ps !! i = Some p ∧ projects st !! i = Some p ∧
               needsDetail p = true) ∧
  requests (trace st)
  = map id (filter (fun p => needsDetail p = true) (take (index st) ps)).
Proof.
  intros Hrun.
  destruct (invariant_run fetchProjectDetail schedule ps _ [] st
              (invariant_start fetchProjectDetail parsed ps) Hrun)
    as [finishedFetches Hinv].
  destruct Hinv as [_ Hpend _ Hawd Hexcl _ _ Hreq _ _ _ _].
  split_and!; [done| |done].
  intros w i Hw. destruct (Hawd i) as (_ & p & Hp & Hneeds); [by exists w|].
  exists p. split_and!; [done| |done].
  apply Hpend; [done|]. right. by exists w.
Qed.

(** The round-robin run of scenario C. *)
Lemma pool_single_fetch_per_item_witness :
  requests (trace scenarioC_final)
  = map id (filter (fun p => needsDetail p = true)
              (take (index scenarioC_final) scenarioC_items)).
Proof.
  apply (pool_single_fetch_per_item scenarioC_fetch scenarioC_parsed
           scenarioC_items roundRobin scenarioC_final).
  vm_compute. reflexivity.
Defined.

(** * The single-repository check *)

Module StatusFacts.
Import Status.

Lemma stripTrailingSlash_added path :
  stripTrailingSlash (path +:+ str slash) = path.
Proof.
  unfold stripTrailingSlash.
  by rewrite EnvFacts.endsWith_snoc, EnvFacts.dropLast_snoc.
Qed.

End StatusFacts.

Import Status StatusFacts.

(** X21.  [fetchGitlabProject] answers by the HTTP status and the body.
    It returns null for a response with status 404 and for a response with
    a status below 400, or without one, whose body parses to null, and for
    nothing else; a response with a status below 400, or without one, whose
    body parses to another value gives that value, and an error when the
    body is not JSON; every other status and every network error gives an
    error. *)
Theorem fetchGitlabProject_by_status (J : Type)
    (parseJson : string → option (option J))
    (decimal : Z → string) (groupPath repoName : string) (x : exchange) :
  let fetch := fetchGitlabProject J parseJson decimal groupPath repoName in
  (fetch x = inr None ↔
     (∃ body, x = Response (Some 404%Z) body) ∨
     (∃ status body, x = Response status body ∧
        (match status with Some n => n | None => 0 end < 400)%Z ∧
        parseJson body = Some None)) ∧
  (∀ project, fetch x = inr (Some project) ↔
     ∃ status body, x = Response status body ∧
       (match status with Some n => n | None => 0 end < 400)%Z ∧
       parseJson body = Some (Some project)) ∧
  (∀ status body, x = Response status body →
     (400 ≤ match status with Some n => n | None => 0 end)%Z →
     status ≠ Some 404%Z → ∃ m, fetch x = inl m) ∧
  (∀ status body, x = Response status body →
     (match status with Some n => n | None => 0 end < 400)%Z →
     parseJson body = None → ∃ m, fetch x = inl m) ∧
  (∀ text, x = NetworkError text → ∃ m, fetch x = inl m).
Proof.
  cbn zeta. unfold fetchGitlabProject, gitlabGet.
  destruct x as [text|status body].
  - cbn. split_and!.
    + split; [done | by intros [[? ?] | (? & ? & ? & _)]].
    + intros project. split; [done | by intros (? & ? & ? & _)].
    + done.
    + done.
    + intros ? _. by eexists.
  - set (n := match status with Some n => n | None => 0%Z end).
    destruct (Z.leb_spec 400 n) as [Hhigh|Hlow].
    + cbn [statusCode message]. case_decide as H404.
      * injection H404 as H404. split_and!.
        -- split; [|done]. intros _. left. exists body. subst n.
           destruct status as [k|]; [by subst k | done].
        -- intros project. split; [done|].
           intros (status' & body' & [= <- <-] & Hlt & _). fold n in Hlt. lia.
        -- intros status' body' [= <- <-] _ Hne. exfalso. apply Hne.
           subst n. destruct status as [k|]; [by subst k | done].
        -- intros status' body' [= <- <-] Hlt. fold n in Hlt. lia.
        -- done.
      * split_and!.
        -- split; [done|].
           intros [[body' [= -> _]] | (status' & body' & [= <- <-] & Hlt & _)].
           ++ subst n. done.
           ++ fold n in Hlt. lia.
        -- intros project. split; [done|].
           intros (status' & body' & [= <- <-] & Hlt & _). fold n in Hlt. lia.
        -- intros. by eexists.
        -- intros status' body' [= <- <-] Hlt. fold n in Hlt. lia.
        -- done.
    + destruct (parseJson body) as [[project|]|] eqn:Hparse.
      * split_and!.
        -- split; [done|].
           intros [[body' [= -> _]] | (status' & body' & [= <- <-] & _ & Hp)].
           ++ subst n. lia.
           ++ congruence.
        -- intros project'. split.
           ++ intros [= <-]. by exists status, body.
           ++ intros (status' & body' & [= <- <-] & _ & Hp). congruence.
        -- intros status' body' [= <- <-] Hge. fold n in Hge. lia.
        -- intros status' body' [= <- <-] _ Hp. congruence.
        -- done.
      * split_and!.
        -- split; [|done]. intros _. right. by exists status, body.
        -- intros project'. split; [done|].
           intros (status' & body' & [= <- <-] & _ & Hp). congruence.
        -- intros status' body' [= <- <-] Hge. fold n in Hge. lia.
        -- intros status' body' [= <- <-] _ Hp. congruence.
        -- done.
      * cbn [statusCode message]. rewrite decide_False by done. split_and!.
        -- split; [done|].
           intros [[body' [= -> _]] | (status' & body' & [= <- <-] & _ & Hp)].
           ++ subst n. lia.
           ++ congruence.
        -- intros project'. split; [done|].
           intros (status' & body' & [= <- <-] & _ & Hp). congruence.
        -- intros status' body' [= <- <-] Hge. fold n in Hge. lia.
        -- intros. by eexists.
        -- done.
Qed.

(** X22.  One slash at the end of the group path makes no difference to
    the project path that is asked for: the path is the group path without
    that slash, a slash and the repository name. *)
Theorem fullPath_ignores_trailing_slash (groupPath repoName : string) :
  Env.endsWith slash groupPath = false →
  fullPath (groupPath +:+ str slash) repoName = fullPath groupPath repoName ∧
  fullPath groupPath repoName = groupPath +:+ str slash +:+ repoName.
Proof.
  intros Hend. unfold fullPath. rewrite stripTrailingSlash_added.
  unfold stripTrailingSlash. by rewrite Hend.
Qed.

(** The default group path, with and without a slash at its end. *)
Lemma fullPath_ignores_trailing_slash_witness :
  fullPath ("batchnz/work" +:+ str slash) "shop" = fullPath "batchnz/work" "shop".
Proof.
  apply (fullPath_ignores_trailing_slash "batchnz/work" "shop").
  reflexivity.
Defined.

(** * The GitLab index of the staleness comparison *)

(** X23.  The index of the staleness comparison holds, under each key, the
    first GitLab record, in file order, that has it; later GitLab records
    with the same key are never used, also when more records follow.
    Records whose lowercased trimmed name is empty are never indexed, and
    neither are records whose lowercased trimmed name is the name of a
    member of [Object.prototype]: a lookup under such a name finds the
    member instead. *)
Theorem staleness_index_first_wins (trim toLowerCase : string → string)
    (gitlabRecords more : list (gmap string string)) (key : string) :
  LastChange.indexByName trim toLowerCase gitlabRecords !! key
  = head (filter
            (fun r => toLowerCase (Reconcile.trimmedName trim r) ≠ EmptyString ∧
                      toLowerCase (Reconcile.trimmedName trim r) = key ∧
                      Dict.inherited
                        (toLowerCase (Reconcile.trimmedName trim r)) = false)
            gitlabRecords) ∧
  LastChange.indexByName trim toLowerCase (gitlabRecords ++ more) !! key
  = match LastChange.indexByName trim toLowerCase gitlabRecords !! key with
    | Some first => Some first
    | None => LastChange.indexByName trim toLowerCase more !! key
    end ∧
  LastChange.indexByName trim toLowerCase gitlabRecords !! EmptyString = None ∧
  (Dict.inherited key = true →
   LastChange.indexByName trim toLowerCase gitlabRecords !! key = None ∧
   Dict.get (LastChange.indexByName trim toLowerCase gitlabRecords) key
   = Dict.Member).
Proof.
  pose proof (LastChangeFacts.indexStep_fold trim toLowerCase (fun _ => None))
    as Hfold.
  unfold LastChange.indexByName. rewrite !Hfold. split_and!.
  - done.
  - rewrite filter_app. by destruct (filter _ gitlabRecords).
  - induction gitlabRecords as [|r records IH]; [done|].
    rewrite filter_cons.
    by rewrite decide_False by (intros (? & ? & ?); congruence).
  - intros Hkey.
    assert (head (filter
              (fun r => toLowerCase (Reconcile.trimmedName trim r) ≠ EmptyString ∧
                        toLowerCase (Reconcile.trimmedName trim r) = key ∧
                        Dict.inherited
                          (toLowerCase (Reconcile.trimmedName trim r)) = false)
              gitlabRecords) = None) as Hnone.
    { induction gitlabRecords as [|r records IH]; [done|].
      rewrite filter_cons.
      by rewrite decide_False by (intros (? & ? & ?); congruence). }
    split; [done|].
    apply DictFacts.get_member; [done|]. by rewrite Hfold.
Qed.
